(** * tchannel-node: the v2 call-frame codec and the Hyperbahn permissions cache

    A shallow embedding of [v2/call.js] (structured and lazy readers and
    writers of CallRequest / CallResponse bodies) and of
    [hyperbahn/permissions_cache.js], with the properties of the
    specification stated and settled over it. *)

From Stdlib Require Import ZArith Lia Strings.Byte.
From stdpp Require Import base option list strings gmap.

Local Open Scope Z_scope.

(** Linear arithmetic with division and remainder by constants. *)
Ltac zlia := Z.div_mod_to_equations; lia.

(* ===================================================================== *)
(** * Node buffers                                                        *)
(* ===================================================================== *)

(** A Node [Buffer] is a fixed-length array of octets.  Offsets are
    JavaScript numbers; the code only ever computes integers, so they are
    [Z].  The [readUInt*] methods are called with [noAssert = false]: an
    access outside the buffer throws a [RangeError], which is [None] here. *)
Module Buf.

Definition to_Z (b : byte) : Z := Z.of_N (Byte.to_N b).

Definition of_Z (z : Z) : byte :=
  default x00 (Byte.of_N (Z.to_N (z mod 256))).

(** [buf.readUInt8(offset, false)] *)
Definition readUInt8 (buf : list byte) (offset : Z) : option Z :=
  if 0 <=? offset then to_Z <$> buf !! Z.to_nat offset else None.

(** [buf.readUInt16BE(offset, false)] *)
Definition readUInt16BE (buf : list byte) (offset : Z) : option Z :=
  match readUInt8 buf offset, readUInt8 buf (offset + 1) with
  | Some hi, Some lo => Some (hi * 256 + lo)
  | _, _ => None
  end.

(** [buf.readUInt32BE(offset, false)] *)
Definition readUInt32BE (buf : list byte) (offset : Z) : option Z :=
  match readUInt8 buf offset, readUInt8 buf (offset + 1),
        readUInt8 buf (offset + 2), readUInt8 buf (offset + 3) with
  | Some b0, Some b1, Some b2, Some b3 =>
      Some (((b0 * 256 + b1) * 256 + b2) * 256 + b3)
  | _, _, _, _ => None
  end.

(** [buf.slice(start, end)]: both ends are clamped to the buffer, and an
    end before the start gives the empty slice. *)
Definition slice (buf : list byte) (start end_ : Z) : list byte :=
  let s := Z.max 0 start in
  take (Z.to_nat (end_ - s)) (drop (Z.to_nat s) buf).

(** Big-endian octets of an unsigned integer. *)
Definition u8_bytes (v : Z) : list byte := [of_Z v].
Definition u16_bytes (v : Z) : list byte := [of_Z (v / 256); of_Z v].
Definition u32_bytes (v : Z) : list byte :=
  [of_Z (v / 16777216); of_Z (v / 65536); of_Z (v / 256); of_Z v].

(** Overwriting [bs] in place at [offset]; a write that does not fit
    leaves no result. *)
Definition write (buf : list byte) (offset : Z) (bs : list byte)
  : option (list byte) :=
  if (0 <=? offset) && (offset + Z.of_nat (length bs) <=? Z.of_nat (length buf))
  then Some (take (Z.to_nat offset) buf ++ bs
             ++ drop (Z.to_nat offset + length bs) buf)
  else None.

Lemma to_Z_range b : 0 <= to_Z b < 256.
Proof.
  unfold to_Z. pose proof (Byte.to_N_bounded b) as H.
  split; [lia|]. apply N2Z.inj_le in H. simpl in H. lia.
Qed.

Lemma of_to_Z b : of_Z (to_Z b) = b.
Proof.
  unfold of_Z. pose proof (to_Z_range b) as H.
  rewrite Z.mod_small by exact H. unfold to_Z.
  rewrite N2Z.id, Byte.of_to_N. reflexivity.
Qed.

Lemma to_of_Z z : 0 <= z < 256 -> to_Z (of_Z z) = z.
Proof.
  intros H. unfold of_Z. rewrite Z.mod_small by exact H.
  destruct (Byte.of_N (Z.to_N z)) as [b|] eqn:E.
  - simpl. unfold to_Z. apply Byte.to_of_N in E. rewrite E. lia.
  - apply Byte.of_N_None_iff in E. lia.
Qed.

Lemma to_of_Z_mod z : to_Z (of_Z z) = z mod 256.
Proof.
  unfold of_Z.
  destruct (Byte.of_N (Z.to_N (z mod 256))) as [b|] eqn:E.
  - simpl. unfold to_Z. apply Byte.to_of_N in E. rewrite E.
    pose proof (Z.mod_pos_bound z 256). lia.
  - apply Byte.of_N_None_iff in E. pose proof (Z.mod_pos_bound z 256). lia.
Qed.

Lemma to_Z_inj a b : to_Z a = to_Z b -> a = b.
Proof. intros H. rewrite <- (of_to_Z a), <- (of_to_Z b), H. reflexivity. Qed.

Lemma readUInt8_Some buf off v :
  readUInt8 buf off = Some v ->
  0 <= off < Z.of_nat (length buf)
  /\ exists b, buf !! Z.to_nat off = Some b /\ v = to_Z b.
Proof.
  unfold readUInt8. destruct (Z.leb_spec 0 off); [|done].
  destruct (buf !! Z.to_nat off) as [b|] eqn:E; [|done].
  intros [= <-]. apply lookup_lt_Some in E. split; [lia|eauto].
Qed.

Lemma readUInt8_lookup buf off b :
  0 <= off -> buf !! Z.to_nat off = Some b -> readUInt8 buf off = Some (to_Z b).
Proof.
  intros H E. unfold readUInt8. destruct (Z.leb_spec 0 off); [|lia].
  by rewrite E.
Qed.

Lemma readUInt8_in_range buf off :
  0 <= off < Z.of_nat (length buf) -> is_Some (readUInt8 buf off).
Proof.
  intros H. destruct (lookup_lt_is_Some_2 buf (Z.to_nat off)) as [b Hb]; [lia|].
  exists (to_Z b). apply readUInt8_lookup; [lia|done].
Qed.

Lemma readUInt8_range buf off v : readUInt8 buf off = Some v -> 0 <= v < 256.
Proof.
  intros H. apply readUInt8_Some in H as (_ & b & _ & ->). apply to_Z_range.
Qed.

Lemma readUInt8_app pre b rest :
  readUInt8 (pre ++ b :: rest) (Z.of_nat (length pre)) = Some (to_Z b).
Proof.
  apply readUInt8_lookup; [lia|]. rewrite Nat2Z.id.
  by rewrite list_lookup_middle.
Qed.

Lemma readUInt8_write buf off b buf' :
  write buf off [b] = Some buf' -> readUInt8 buf' off = Some (to_Z b).
Proof.
  unfold write. cbn [length].
  destruct (Z.leb_spec 0 off); [|done].
  destruct (Z.leb_spec (off + Z.of_nat 1) (Z.of_nat (length buf))); [|done].
  cbn [andb]. intros [= <-].
  apply readUInt8_lookup; [done|].
  rewrite lookup_app_r; rewrite length_take; [|lia].
  replace (Z.to_nat off - Z.to_nat off `min` length buf)%nat with 0%nat by lia.
  done.
Qed.

Lemma write_length buf off bs buf' :
  write buf off bs = Some buf' -> length buf' = length buf.
Proof.
  unfold write.
  destruct ((0 <=? off) && (off + Z.of_nat (length bs) <=? Z.of_nat (length buf)))
    eqn:E; [|done].
  intros [= <-]. rewrite !length_app, length_take, length_drop. lia.
Qed.

Lemma write_app pre old rest bs :
  length old = length bs ->
  write (pre ++ old ++ rest) (Z.of_nat (length pre)) bs
  = Some (pre ++ bs ++ rest).
Proof.
  intros Hl. unfold write.
  match goal with |- (if ?c then _ else _) = _ => destruct c eqn:E end;
    [|rewrite !length_app in E; apply andb_false_iff in E;
      destruct E as [E|E]; apply Z.leb_gt in E; lia].
  f_equal. rewrite Nat2Z.id. rewrite take_app_length. f_equal. f_equal.
  rewrite <- Hl, (assoc_L (++)).
  apply drop_app_length'. rewrite length_app. lia.
Qed.

Lemma slice_app pre bs rest :
  slice (pre ++ bs ++ rest) (Z.of_nat (length pre))
        (Z.of_nat (length pre) + Z.of_nat (length bs)) = bs.
Proof.
  unfold slice. rewrite Z.max_r by lia.
  replace (Z.of_nat (length pre) + Z.of_nat (length bs) - Z.of_nat (length pre))
    with (Z.of_nat (length bs)) by lia.
  rewrite !Nat2Z.id, drop_app_length. by rewrite take_app_length.
Qed.

Lemma readUInt16BE_app pre b0 b1 rest :
  readUInt16BE (pre ++ b0 :: b1 :: rest) (Z.of_nat (length pre))
  = Some (to_Z b0 * 256 + to_Z b1).
Proof.
  unfold readUInt16BE. rewrite readUInt8_app.
  replace (Z.of_nat (length pre) + 1) with (Z.of_nat (length (pre ++ [b0])))
    by (rewrite length_app; simpl; lia).
  replace (pre ++ b0 :: b1 :: rest) with ((pre ++ [b0]) ++ b1 :: rest)
    by (by rewrite <- app_assoc).
  by rewrite readUInt8_app.
Qed.

Lemma readUInt32BE_app pre b0 b1 b2 b3 rest :
  readUInt32BE (pre ++ b0 :: b1 :: b2 :: b3 :: rest) (Z.of_nat (length pre))
  = Some (((to_Z b0 * 256 + to_Z b1) * 256 + to_Z b2) * 256 + to_Z b3).
Proof.
  unfold readUInt32BE. rewrite readUInt8_app.
  replace (Z.of_nat (length pre) + 1) with (Z.of_nat (length (pre ++ [b0])))
    by (rewrite length_app; simpl; lia).
  replace (Z.of_nat (length pre) + 2) with (Z.of_nat (length (pre ++ [b0; b1])))
    by (rewrite length_app; simpl; lia).
  replace (Z.of_nat (length pre) + 3)
    with (Z.of_nat (length (pre ++ [b0; b1; b2])))
    by (rewrite length_app; simpl; lia).
  replace (pre ++ b0 :: b1 :: b2 :: b3 :: rest)
    with ((pre ++ [b0]) ++ b1 :: b2 :: b3 :: rest) at 1
    by (by rewrite <- app_assoc).
  rewrite readUInt8_app.
  replace (pre ++ b0 :: b1 :: b2 :: b3 :: rest)
    with ((pre ++ [b0; b1]) ++ b2 :: b3 :: rest) at 1
    by (by rewrite <- app_assoc).
  rewrite readUInt8_app.
  replace (pre ++ b0 :: b1 :: b2 :: b3 :: rest)
    with ((pre ++ [b0; b1; b2]) ++ b3 :: rest)
    by (by rewrite <- app_assoc).
  by rewrite readUInt8_app.
Qed.

Lemma readUInt8_u8 pre v rest :
  0 <= v < 256 ->
  readUInt8 (pre ++ u8_bytes v ++ rest) (Z.of_nat (length pre)) = Some v.
Proof. intros H. cbn [u8_bytes app]. by rewrite readUInt8_app, to_of_Z. Qed.

Lemma readUInt16BE_u16 pre v rest :
  0 <= v < 65536 ->
  readUInt16BE (pre ++ u16_bytes v ++ rest) (Z.of_nat (length pre)) = Some v.
Proof.
  intros H. cbn [u16_bytes app]. rewrite readUInt16BE_app.
  rewrite to_of_Z by zlia. rewrite to_of_Z_mod. f_equal. zlia.
Qed.

Lemma readUInt32BE_u32 pre v rest :
  0 <= v < 4294967296 ->
  readUInt32BE (pre ++ u32_bytes v ++ rest) (Z.of_nat (length pre)) = Some v.
Proof.
  intros H. cbn [u32_bytes app]. rewrite readUInt32BE_app.
  rewrite to_of_Z by zlia. rewrite !to_of_Z_mod. f_equal. zlia.
Qed.

End Buf.
(* ===================================================================== *)
(** * Strings and UTF-8                                                   *)
(* ===================================================================== *)

(** [buf.toString('utf8', start, end)] (which [fastBufferToString] calls
    on every Node version, through [utf8Slice] on 0.10) and
    [Buffer.byteLength] / [buf.write] with the ['utf8'] encoding.  A string
    is the sequence of its code points.  The decoder never throws: each
    maximal ill-formed subsequence is replaced by U+FFFD. *)
Module Utf8.

Definition jsstr := list Z.

Definition REPLACEMENT : Z := 0xFFFD.

Definition between (lo hi c : Z) : bool := (lo <=? c) && (c <=? hi).

Fixpoint utf8ToString (bs : list byte) : jsstr :=
  match bs with
  | [] => []
  | b0 :: r0 =>
    let c0 := Buf.to_Z b0 in
    if c0 <? 0x80 then c0 :: utf8ToString r0
    else if between 0xC2 0xDF c0 then
      match r0 with
      | [] => [REPLACEMENT]
      | b1 :: r1 =>
        let c1 := Buf.to_Z b1 in
        if between 0x80 0xBF c1
        then ((c0 - 0xC0) * 64 + (c1 - 0x80)) :: utf8ToString r1
        else REPLACEMENT :: utf8ToString r0
      end
    else if between 0xE0 0xEF c0 then
      let lo := if c0 =? 0xE0 then 0xA0 else 0x80 in
      let hi := if c0 =? 0xED then 0x9F else 0xBF in
      match r0 with
      | [] => [REPLACEMENT]
      | b1 :: r1 =>
        let c1 := Buf.to_Z b1 in
        if between lo hi c1 then
          match r1 with
          | [] => [REPLACEMENT]
          | b2 :: r2 =>
            let c2 := Buf.to_Z b2 in
            if between 0x80 0xBF c2
            then (((c0 - 0xE0) * 64 + (c1 - 0x80)) * 64 + (c2 - 0x80))
                 :: utf8ToString r2
            else REPLACEMENT :: utf8ToString r1
          end
        else REPLACEMENT :: utf8ToString r0
      end
    else if between 0xF0 0xF4 c0 then
      let lo := if c0 =? 0xF0 then 0x90 else 0x80 in
      let hi := if c0 =? 0xF4 then 0x8F else 0xBF in
      match r0 with
      | [] => [REPLACEMENT]
      | b1 :: r1 =>
        let c1 := Buf.to_Z b1 in
        if between lo hi c1 then
          match r1 with
          | [] => [REPLACEMENT]
          | b2 :: r2 =>
            let c2 := Buf.to_Z b2 in
            if between 0x80 0xBF c2 then
              match r2 with
              | [] => [REPLACEMENT]
              | b3 :: r3 =>
                let c3 := Buf.to_Z b3 in
                if between 0x80 0xBF c3
                then ((((c0 - 0xF0) * 64 + (c1 - 0x80)) * 64 + (c2 - 0x80)) * 64
                      + (c3 - 0x80)) :: utf8ToString r3
                else REPLACEMENT :: utf8ToString r2
              end
            else REPLACEMENT :: utf8ToString r1
          end
        else REPLACEMENT :: utf8ToString r0
      end
    else REPLACEMENT :: utf8ToString r0
  end.

(** A Unicode scalar value: a code point that is not a surrogate. *)
Definition scalar (c : Z) : Prop :=
  0 <= c < 0xD800 \/ 0xE000 <= c <= 0x10FFFF.

Definition is_scalar (c : Z) : bool :=
  between 0 0xD7FF c || between 0xE000 0x10FFFF c.

(** The octets of one code point; a lone surrogate is written as U+FFFD. *)
Definition encode1 (c : Z) : list byte :=
  if negb (is_scalar c) then [Buf.of_Z 0xEF; Buf.of_Z 0xBF; Buf.of_Z 0xBD]
  else if c <? 0x80 then [Buf.of_Z c]
  else if c <? 0x800 then
    [Buf.of_Z (0xC0 + c / 64); Buf.of_Z (0x80 + c mod 64)]
  else if c <? 0x10000 then
    [Buf.of_Z (0xE0 + c / 4096); Buf.of_Z (0x80 + (c / 64) mod 64);
     Buf.of_Z (0x80 + c mod 64)]
  else
    [Buf.of_Z (0xF0 + c / 262144); Buf.of_Z (0x80 + (c / 4096) mod 64);
     Buf.of_Z (0x80 + (c / 64) mod 64); Buf.of_Z (0x80 + c mod 64)].

(** The octets [buf.write(str, 'utf8')] stores. *)
Definition utf8Write (s : jsstr) : list byte := concat (map encode1 s).

(** [Buffer.byteLength(str, 'utf8')] *)
Definition byteLength (s : jsstr) : Z := Z.of_nat (length (utf8Write s)).

(** [fastBufferToString(buf, start, end)] *)
Definition fastBufferToString (buf : list byte) (start end_ : Z) : jsstr :=
  utf8ToString (Buf.slice buf start end_).

Lemma is_scalar_spec c : is_scalar c = true <-> scalar c.
Proof. unfold is_scalar, scalar, between. lia. Qed.

Lemma utf8ToString_cons_nonempty b bs : utf8ToString (b :: bs) <> [].
Proof.
  simpl.
  repeat match goal with
         | |- context [if ?c then _ else _] => destruct c
         | |- context [match ?l with [] => _ | _ :: _ => _ end] => destruct l
         end; discriminate.
Qed.

Lemma utf8ToString_nil_inv bs : utf8ToString bs = [] -> bs = [].
Proof. destruct bs as [|b bs]; [done|]. intros H. by apply utf8ToString_cons_nonempty in H. Qed.

(** A first octet outside ASCII never decodes to an ASCII code point. *)
Lemma utf8ToString_head_high b bs :
  0x80 <= Buf.to_Z b ->
  exists c s, utf8ToString (b :: bs) = c :: s /\ 0x80 <= c.
Proof.
  intros Hb. simpl.
  destruct (Buf.to_Z b <? 128) eqn:E0; [lia|].
  unfold REPLACEMENT, between.
  repeat match goal with
         | |- context [match ?l with [] => _ | _ :: _ => _ end] => destruct l
         | |- context [if ?c then _ else _] => destruct c eqn:?
         end;
    eexists _, _; (split; [reflexivity|]); try lia;
    repeat match goal with
           | H : context [if ?c then _ else _] |- _ => destruct c eqn:?
           end; lia.
Qed.

Lemma utf8ToString_head_ascii b bs :
  Buf.to_Z b < 0x80 ->
  utf8ToString (b :: bs) = Buf.to_Z b :: utf8ToString bs.
Proof. intros Hb. simpl. destruct (Buf.to_Z b <? 128) eqn:E; [done|lia]. Qed.

(** A string of ASCII code points is the decoding of exactly one octet
    sequence. *)
Lemma utf8ToString_ascii_inv s bs :
  Forall (fun c => c < 0x80) s ->
  utf8ToString bs = s -> bs = map Buf.of_Z s.
Proof.
  intros Hs. revert bs. induction Hs as [|c s Hc Hs IH]; intros bs H.
  - by apply utf8ToString_nil_inv in H.
  - destruct bs as [|b bs]; [discriminate|].
    destruct (Z_lt_ge_dec (Buf.to_Z b) 0x80) as [Hb|Hb].
    + rewrite utf8ToString_head_ascii in H by exact Hb.
      injection H as H1 H2. cbn [map]. f_equal.
      * by rewrite <- H1, Buf.of_to_Z.
      * by apply IH.
    + destruct (utf8ToString_head_high b bs) as (c' & s' & E & Hc'); [lia|].
      rewrite E in H. injection H as H1 H2. lia.
Qed.

Lemma utf8ToString_ascii bs :
  Forall (fun b => Buf.to_Z b < 0x80) bs ->
  utf8ToString bs = map Buf.to_Z bs.
Proof.
  induction 1 as [|b bs Hb _ IH]; [done|].
  rewrite utf8ToString_head_ascii by exact Hb. cbn [map]. by rewrite IH.
Qed.

Lemma utf8ToString_two b0 b1 r :
  0xC2 <= Buf.to_Z b0 <= 0xDF -> 0x80 <= Buf.to_Z b1 <= 0xBF ->
  utf8ToString (b0 :: b1 :: r)
  = ((Buf.to_Z b0 - 0xC0) * 64 + (Buf.to_Z b1 - 0x80)) :: utf8ToString r.
Proof.
  intros H0 H1. cbn [utf8ToString]. unfold between.
  destruct (Buf.to_Z b0 <? 128) eqn:?; [lia|].
  destruct ((194 <=? Buf.to_Z b0) && (Buf.to_Z b0 <=? 223)) eqn:?; [|lia].
  destruct ((128 <=? Buf.to_Z b1) && (Buf.to_Z b1 <=? 191)) eqn:?; [done|lia].
Qed.

Lemma utf8ToString_three b0 b1 b2 r :
  0xE0 <= Buf.to_Z b0 <= 0xEF ->
  (if Buf.to_Z b0 =? 0xE0 then 0xA0 else 0x80) <= Buf.to_Z b1
    <= (if Buf.to_Z b0 =? 0xED then 0x9F else 0xBF) ->
  0x80 <= Buf.to_Z b2 <= 0xBF ->
  utf8ToString (b0 :: b1 :: b2 :: r)
  = (((Buf.to_Z b0 - 0xE0) * 64 + (Buf.to_Z b1 - 0x80)) * 64
     + (Buf.to_Z b2 - 0x80)) :: utf8ToString r.
Proof.
  intros H0 H1 H2. cbn [utf8ToString]. unfold between.
  destruct (Buf.to_Z b0 <? 128) eqn:?; [lia|].
  destruct ((194 <=? Buf.to_Z b0) && (Buf.to_Z b0 <=? 223)) eqn:?; [lia|].
  destruct ((224 <=? Buf.to_Z b0) && (Buf.to_Z b0 <=? 239)) eqn:?; [|lia].
  match goal with |- context [if ?c && ?d then _ else _] =>
    replace (c && d) with true by (symmetry; apply andb_true_iff; lia) end.
  destruct ((128 <=? Buf.to_Z b2) && (Buf.to_Z b2 <=? 191)) eqn:?; [done|lia].
Qed.

Lemma utf8ToString_four b0 b1 b2 b3 r :
  0xF0 <= Buf.to_Z b0 <= 0xF4 ->
  (if Buf.to_Z b0 =? 0xF0 then 0x90 else 0x80) <= Buf.to_Z b1
    <= (if Buf.to_Z b0 =? 0xF4 then 0x8F else 0xBF) ->
  0x80 <= Buf.to_Z b2 <= 0xBF -> 0x80 <= Buf.to_Z b3 <= 0xBF ->
  utf8ToString (b0 :: b1 :: b2 :: b3 :: r)
  = ((((Buf.to_Z b0 - 0xF0) * 64 + (Buf.to_Z b1 - 0x80)) * 64
      + (Buf.to_Z b2 - 0x80)) * 64 + (Buf.to_Z b3 - 0x80)) :: utf8ToString r.
Proof.
  intros H0 H1 H2 H3. cbn [utf8ToString]. unfold between.
  destruct (Buf.to_Z b0 <? 128) eqn:?; [lia|].
  destruct ((194 <=? Buf.to_Z b0) && (Buf.to_Z b0 <=? 223)) eqn:?; [lia|].
  destruct ((224 <=? Buf.to_Z b0) && (Buf.to_Z b0 <=? 239)) eqn:?; [lia|].
  destruct ((240 <=? Buf.to_Z b0) && (Buf.to_Z b0 <=? 244)) eqn:?; [|lia].
  match goal with |- context [if ?c && ?d then _ else _] =>
    replace (c && d) with true by (symmetry; apply andb_true_iff; lia) end.
  destruct ((128 <=? Buf.to_Z b2) && (Buf.to_Z b2 <=? 191)) eqn:?; [|lia].
  destruct ((128 <=? Buf.to_Z b3) && (Buf.to_Z b3 <=? 191)) eqn:?; [done|lia].
Qed.

Lemma utf8ToString_encode1 c rest :
  scalar c -> utf8ToString (encode1 c ++ rest) = c :: utf8ToString rest.
Proof.
  intros Hc. unfold encode1.
  rewrite (proj2 (is_scalar_spec c) Hc). cbn [negb].
  unfold scalar in Hc.
  destruct (Z.ltb_spec c 0x80); [|destruct (Z.ltb_spec c 0x800);
    [|destruct (Z.ltb_spec c 0x10000)]]; cbn [app].
  - rewrite utf8ToString_head_ascii; rewrite Buf.to_of_Z by lia; [done|lia].
  - rewrite utf8ToString_two; rewrite ?Buf.to_of_Z by zlia; [f_equal|..]; zlia.
  - rewrite utf8ToString_three; rewrite ?Buf.to_of_Z by zlia;
      [f_equal; zlia|zlia| |zlia].
    destruct (Z.eqb_spec (224 + c `div` 4096) 224);
      destruct (Z.eqb_spec (224 + c `div` 4096) 237); zlia.
  - rewrite utf8ToString_four; rewrite ?Buf.to_of_Z by zlia;
      [f_equal; zlia|zlia| |zlia|zlia].
    destruct (Z.eqb_spec (240 + c `div` 262144) 240);
      destruct (Z.eqb_spec (240 + c `div` 262144) 244); zlia.
Qed.

(** Decoding what was written gives the string back, as long as the string
    holds no lone surrogate. *)
Lemma utf8ToString_utf8Write s :
  Forall scalar s -> utf8ToString (utf8Write s) = s.
Proof.
  unfold utf8Write. induction 1 as [|c s Hc _ IH]; [done|].
  cbn [map concat]. by rewrite utf8ToString_encode1, IH.
Qed.

End Utf8.

(** Code points of an ASCII literal, for writing JavaScript string
    constants such as ['cn']. *)
Fixpoint str (s : string) : Utf8.jsstr :=
  match s with
  | EmptyString => []
  | String a s' => Z.of_nat (Ascii.nat_of_ascii a) :: str s'
  end.


(* ===================================================================== *)
(** * Errors and the primitive readers and writers                        *)
(* ===================================================================== *)

(** The error kinds of the codec.  [InvalidTTL] carries the offending
    value, as [errors.InvalidTTL({ttl: ...})] does. *)
Inductive Error : Type :=
| BufferTooShort
| InvalidTTL (ttl : Z)
| LengthOverflow
| InvalidChecksumType (type : Z)
| TrailingBytes.

(** The [bufrw] library: result objects, the reader/writer interface
    [bufrw.Base(byteLength, readFrom, writeInto)], and the fixed-width and
    length-prefixed primitives. *)
Module Bufrw.

(** [ReadResult]: an error with the offset it occurred at, or the offset
    after the value and the value.  The partly filled value [bufrw] hangs
    on an error result for diagnostics is left out. *)
Inductive ReadResult (A : Type) : Type :=
| RError (err : Error) (offset : Z)
| RJust (offset : Z) (value : A).
Arguments RError {A} _ _.
Arguments RJust {A} _ _.

Inductive WriteResult : Type :=
| WError (err : Error) (offset : Z)
| WJust (offset : Z).

Inductive LengthResult : Type :=
| LError (err : Error)
| LJust (length : Z).

(** A writer mutates the buffer it is given; here it returns the buffer as
    it is left, also when it fails part of the way. *)
Record RW (A : Type) : Type := mkRW {
  byteLength : A -> LengthResult;
  readFrom : list byte -> Z -> ReadResult A;
  writeInto : A -> list byte -> Z -> WriteResult * list byte
}.
Arguments mkRW {A} _ _ _.
Arguments byteLength {A} _ _.
Arguments readFrom {A} _ _ _.
Arguments writeInto {A} _ _ _ _.

Definition bindR {A B} (r : ReadResult A) (k : Z -> A -> ReadResult B)
  : ReadResult B :=
  match r with
  | RError e o => RError e o
  | RJust o v => k o v
  end.

Definition bindW (r : WriteResult * list byte)
    (k : Z -> list byte -> WriteResult * list byte)
  : WriteResult * list byte :=
  match r with
  | (WError e o, buf) => (WError e o, buf)
  | (WJust o, buf) => k o buf
  end.

Definition bindL (r : LengthResult) (k : Z -> LengthResult) : LengthResult :=
  match r with
  | LError e => LError e
  | LJust n => k n
  end.

(** Modelled from the spec: the primitives of the [bufrw] package (section
    4.1).  A fixed-width read fails with [BufferTooShort] if fewer bytes
    remain than its width; a write fails with [BufferTooShort] if the
    destination lacks space. *)
Definition readBytes (n : Z) (buffer : list byte) (offset : Z)
  : ReadResult (list byte) :=
  if (offset <? 0) || (Z.of_nat (length buffer) - offset <? n)
  then RError BufferTooShort offset
  else RJust (offset + n) (Buf.slice buffer offset (offset + n)).

Definition writeBytes (bs : list byte) (buffer : list byte) (offset : Z)
  : WriteResult * list byte :=
  match Buf.write buffer offset bs with
  | Some buffer' => (WJust (offset + Z.of_nat (length bs)), buffer')
  | None => (WError BufferTooShort offset, buffer)
  end.

(** Modelled from the spec: [bufrw.UInt8] (section 4.1). *)
Definition UInt8 : RW Z :=
  mkRW (fun _ => LJust 1)
       (fun buffer offset =>
          match Buf.readUInt8 buffer offset with
          | Some v => RJust (offset + 1) v
          | None => RError BufferTooShort offset
          end)
       (fun v buffer offset => writeBytes (Buf.u8_bytes v) buffer offset).

(** Modelled from the spec: [bufrw.UInt16BE] (section 4.1). *)
Definition UInt16BE : RW Z :=
  mkRW (fun _ => LJust 2)
       (fun buffer offset =>
          match Buf.readUInt16BE buffer offset with
          | Some v => RJust (offset + 2) v
          | None => RError BufferTooShort offset
          end)
       (fun v buffer offset => writeBytes (Buf.u16_bytes v) buffer offset).

(** Modelled from the spec: [bufrw.UInt32BE] (section 4.1). *)
Definition UInt32BE : RW Z :=
  mkRW (fun _ => LJust 4)
       (fun buffer offset =>
          match Buf.readUInt32BE buffer offset with
          | Some v => RJust (offset + 4) v
          | None => RError BufferTooShort offset
          end)
       (fun v buffer offset => writeBytes (Buf.u32_bytes v) buffer offset).

(** [bufrw.UInt8.width] *)
Definition UInt8_width : Z := 1.
(** [bufrw.UInt32BE.width] *)
Definition UInt32BE_width : Z := 4.

(** A byte string behind a length prefix read and written by [sizerw],
    whose largest value is [maxLength]. *)
Definition varReadFrom (sizerw : RW Z) (buffer : list byte) (offset : Z)
  : ReadResult (list byte) :=
  bindR (readFrom sizerw buffer offset) (fun offset length =>
  readBytes length buffer offset).

Definition varWriteInto (sizerw : RW Z) (maxLength : Z) (bs : list byte)
    (buffer : list byte) (offset : Z) : WriteResult * list byte :=
  let length := Z.of_nat (length bs) in
  if maxLength <? length then (WError LengthOverflow offset, buffer)
  else
    bindW (writeInto sizerw length buffer offset) (fun offset buffer =>
    writeBytes bs buffer offset).

Definition varByteLength (width maxLength : Z) (bs : list byte)
  : LengthResult :=
  let length := Z.of_nat (length bs) in
  if maxLength <? length then LError LengthOverflow
  else LJust (width + length).

(** Modelled from the spec: [bufrw.str1] (section 4.1), a 1-byte length
    [L] and then [L] bytes decoded as UTF-8; the writer fails with
    [LengthOverflow] if the encoded string is longer than 255 bytes. *)
Definition str1 : RW Utf8.jsstr :=
  mkRW (fun s => varByteLength 1 255 (Utf8.utf8Write s))
       (fun buffer offset =>
          bindR (varReadFrom UInt8 buffer offset) (fun offset bs =>
          RJust offset (Utf8.utf8ToString bs)))
       (fun s buffer offset =>
          varWriteInto UInt8 255 (Utf8.utf8Write s) buffer offset).

(** Modelled from the spec: the [arg~2] codec (section 4.1), the same with
    a 2-byte big-endian length and the bytes kept as they are. *)
Definition arg2 : RW (list byte) :=
  mkRW (fun bs => varByteLength 2 65535 bs)
       (fun buffer offset => varReadFrom UInt16BE buffer offset)
       (fun bs buffer offset => varWriteInto UInt16BE 65535 bs buffer offset).

End Bufrw.

(* ===================================================================== *)
(** * The collaborating codecs: tracing, headers, checksum, arguments     *)
(* ===================================================================== *)

Module Tracing.

(** Modelled from the spec: the value [v2/tracing.js] reads and writes
    (section 4.2): three identifiers, each a pair of 32-bit halves with the
    high half first, and a flags byte. *)
Record t : Type := mk {
  spanid : Z * Z;
  parentid : Z * Z;
  traceid : Z * Z;
  flags : Z
}.

(** Modelled from the spec: [Tracing.emptyTracing], the zero-filled value
    of an unset tracing field (section 3). *)
Definition emptyTracing : t := mk (0, 0) (0, 0) (0, 0) 0.

(** Modelled from the spec: [Tracing.RW] (section 4.2), a fixed layout of
    25 bytes; [readFrom] fails only on buffer underflow. *)
Definition bytes (v : t) : list byte :=
  Buf.u32_bytes (spanid v).1 ++ Buf.u32_bytes (spanid v).2
  ++ Buf.u32_bytes (parentid v).1 ++ Buf.u32_bytes (parentid v).2
  ++ Buf.u32_bytes (traceid v).1 ++ Buf.u32_bytes (traceid v).2
  ++ Buf.u8_bytes (flags v).

Definition readFrom (buffer : list byte) (offset : Z) : Bufrw.ReadResult t :=
  let u32 := Bufrw.readFrom Bufrw.UInt32BE buffer in
  Bufrw.bindR (u32 offset) (fun offset s1 =>
  Bufrw.bindR (u32 offset) (fun offset s2 =>
  Bufrw.bindR (u32 offset) (fun offset p1 =>
  Bufrw.bindR (u32 offset) (fun offset p2 =>
  Bufrw.bindR (u32 offset) (fun offset t1 =>
  Bufrw.bindR (u32 offset) (fun offset t2 =>
  Bufrw.bindR (Bufrw.readFrom Bufrw.UInt8 buffer offset) (fun offset fl =>
  Bufrw.RJust offset (mk (s1, s2) (p1, p2) (t1, t2) fl)))))))).

Definition RW : Bufrw.RW t :=
  Bufrw.mkRW (fun _ => Bufrw.LJust 25)
             readFrom
             (fun v buffer offset => Bufrw.writeBytes (bytes v) buffer offset).

End Tracing.

Module Header.

(** Modelled from the spec: the header list of [v2/header.js] (section 3),
    an ordered mapping in which duplicate keys are permitted and kept. *)
Definition t : Type := list (Utf8.jsstr * Utf8.jsstr).

Fixpoint readPairs (n : nat) (buffer : list byte) (offset : Z)
  : Bufrw.ReadResult t :=
  match n with
  | O => Bufrw.RJust offset []
  | S n' =>
    Bufrw.bindR (Bufrw.readFrom Bufrw.str1 buffer offset) (fun offset key =>
    Bufrw.bindR (Bufrw.readFrom Bufrw.str1 buffer offset) (fun offset val =>
    Bufrw.bindR (readPairs n' buffer offset) (fun offset rest =>
    Bufrw.RJust offset ((key, val) :: rest))))
  end.

Fixpoint writePairs (hs : t) (buffer : list byte) (offset : Z)
  : Bufrw.WriteResult * list byte :=
  match hs with
  | [] => (Bufrw.WJust offset, buffer)
  | (key, val) :: rest =>
    Bufrw.bindW (Bufrw.writeInto Bufrw.str1 key buffer offset)
      (fun offset buffer =>
    Bufrw.bindW (Bufrw.writeInto Bufrw.str1 val buffer offset)
      (fun offset buffer =>
    writePairs rest buffer offset))
  end.

Fixpoint pairsLength (hs : t) : Bufrw.LengthResult :=
  match hs with
  | [] => Bufrw.LJust 0
  | (key, val) :: rest =>
    Bufrw.bindL (Bufrw.byteLength Bufrw.str1 key) (fun lk =>
    Bufrw.bindL (Bufrw.byteLength Bufrw.str1 val) (fun lv =>
    Bufrw.bindL (pairsLength rest) (fun lr =>
    Bufrw.LJust (lk + lv + lr))))
  end.

(** Modelled from the spec: [header.header1] (section 4.3): [nh:1]
    followed by [nh] entries of [str1] key and [str1] value; a read fails
    on any inner underflow, and a list of more than 255 entries cannot be
    written. *)
Definition header1 : Bufrw.RW t :=
  Bufrw.mkRW
    (fun hs =>
       if 255 <? Z.of_nat (length hs) then Bufrw.LError LengthOverflow
       else Bufrw.bindL (pairsLength hs) (fun n => Bufrw.LJust (1 + n)))
    (fun buffer offset =>
       Bufrw.bindR (Bufrw.readFrom Bufrw.UInt8 buffer offset) (fun offset nh =>
       readPairs (Z.to_nat nh) buffer offset))
    (fun hs buffer offset =>
       if 255 <? Z.of_nat (length hs)
       then (Bufrw.WError LengthOverflow offset, buffer)
       else
         Bufrw.bindW
           (Bufrw.writeInto Bufrw.UInt8 (Z.of_nat (length hs)) buffer offset)
           (fun offset buffer => writePairs hs buffer offset)).

(** The value of the first entry whose key is [key]. *)
Fixpoint first (key : Utf8.jsstr) (hs : t) : option Utf8.jsstr :=
  match hs with
  | [] => None
  | (k, v) :: rest => if decide (k = key) then Some v else first key rest
  end.

End Header.

Module Checksum.

(** Modelled from the spec: a checksum as [v2/checksum.js] carries it
    (section 3), its type tag and the digest that follows the tag. *)
Record t : Type := mk {
  type : Z;
  digest : list byte
}.

Section Table.

(** The tag of the type [None], the digest width of each type and the set
    of defined tags form a closed enumeration owned by [v2/checksum.js];
    they are parameters here. *)
Variable None_ : Z.
Variable offsetWidth : Z -> Z.
Variable known : Z -> bool.

(** Modelled from the spec: [Checksum.RW] (section 4.4): [type:1], and if
    the type is not [None] a digest of [offsetWidth(type)] bytes; an
    unknown type fails with [InvalidChecksumType]. *)
Definition readFrom (buffer : list byte) (offset : Z) : Bufrw.ReadResult t :=
  Bufrw.bindR (Bufrw.readFrom Bufrw.UInt8 buffer offset) (fun offset ty =>
  if negb (known ty) then Bufrw.RError (InvalidChecksumType ty) offset
  else if ty =? None_ then Bufrw.RJust offset (mk ty [])
  else
    Bufrw.bindR (Bufrw.readBytes (offsetWidth ty) buffer offset)
      (fun offset d => Bufrw.RJust offset (mk ty d))).

Definition writeInto (c : t) (buffer : list byte) (offset : Z)
  : Bufrw.WriteResult * list byte :=
  if negb (known (type c))
  then (Bufrw.WError (InvalidChecksumType (type c)) offset, buffer)
  else
    Bufrw.bindW (Bufrw.writeInto Bufrw.UInt8 (type c) buffer offset)
      (fun offset buffer =>
    if type c =? None_ then (Bufrw.WJust offset, buffer)
    else Bufrw.writeBytes (digest c) buffer offset).

Definition byteLength (c : t) : Bufrw.LengthResult :=
  if negb (known (type c)) then Bufrw.LError (InvalidChecksumType (type c))
  else Bufrw.LJust (1 + (if type c =? None_ then 0 else offsetWidth (type c))).

Definition RW : Bufrw.RW t := Bufrw.mkRW byteLength readFrom writeInto.

(** [Checksum.offsetWidth(type)] as [call.js] calls it: the width of a
    defined type, and a failed assertion for any other. *)
Definition offsetWidthOf (type : Z) : option Z :=
  if known type then Some (offsetWidth type) else None.

End Table.

End Checksum.

(** [CallFlags.Fragment], bit 0 of the flags byte. *)
Definition Fragment : Z := 1.

Module Args.

(** What [argsrw] reaches of a body, whichever of the two kinds it is. *)
Class ArgsBody (B : Type) : Type := {
  body_flags : B -> Z;
  body_csum : B -> Checksum.t;
  body_args : B -> list (list byte);
  set_body_flags : Z -> B -> B;
  set_body_csum_args : Checksum.t -> list (list byte) -> B -> B
}.

(** The interface of [argsrw = new ArgsRW()] as [call.js] uses it:
    [readFrom(body, buffer, offset)] fills the body in, and
    [writeInto(body, buffer, offset)] may mutate it; both return the body
    as they leave it. *)
Record ArgsRW (B : Type) : Type := mkArgsRW {
  byteLength : B -> Bufrw.LengthResult;
  readFrom : B -> list byte -> Z -> Bufrw.ReadResult B;
  writeInto : B -> list byte -> Z -> Bufrw.WriteResult * list byte * B
}.
Arguments mkArgsRW {B} _ _ _.
Arguments byteLength {B} _ _.
Arguments readFrom {B} _ _ _ _.
Arguments writeInto {B} _ _ _ _.

(** Reading [arg~2] entries until the end of the buffer.  Every entry
    takes two bytes or more, so fuel of the buffer's length is never used
    up. *)
Fixpoint readArgs (fuel : nat) (buffer : list byte) (offset : Z)
  : Bufrw.ReadResult (list (list byte)) :=
  if Z.of_nat (length buffer) <=? offset then Bufrw.RJust offset []
  else
    match fuel with
    | O => Bufrw.RError TrailingBytes offset
    | S fuel' =>
      Bufrw.bindR (Bufrw.readFrom Bufrw.arg2 buffer offset) (fun offset a =>
      Bufrw.bindR (readArgs fuel' buffer offset) (fun offset rest =>
      Bufrw.RJust offset (a :: rest)))
    end.

Fixpoint writeArgs (args : list (list byte)) (buffer : list byte)
    (offset : Z) : Bufrw.WriteResult * list byte :=
  match args with
  | [] => (Bufrw.WJust offset, buffer)
  | a :: rest =>
    Bufrw.bindW (Bufrw.writeInto Bufrw.arg2 a buffer offset)
      (fun offset buffer => writeArgs rest buffer offset)
  end.

Fixpoint argsLength (args : list (list byte)) : Bufrw.LengthResult :=
  match args with
  | [] => Bufrw.LJust 0
  | a :: rest =>
    Bufrw.bindL (Bufrw.byteLength Bufrw.arg2 a) (fun la =>
    Bufrw.bindL (argsLength rest) (fun lr => Bufrw.LJust (la + lr)))
  end.

Section Spec.

Variable None_ : Z.
Variable offsetWidth : Z -> Z.
Variable known : Z -> bool.

(** Whether the writer was told that more bodies follow this one. *)
Variable more : bool.

Context {B : Type} `{ArgsBody B}.

(** Modelled from the spec: the [ArgsRW] of [v2/args.js] (sections 4.4 and
    4.5 and property 3 of section 8).  It reads the checksum and then
    [arg~2] entries until the end of the frame; it writes the checksum and
    each argument, and sets the Fragment bit of the body's flags while
    writing when it was told that more bodies follow. *)
Definition rw : ArgsRW B :=
  mkArgsRW
    (fun body =>
       Bufrw.bindL (Checksum.byteLength None_ offsetWidth known (body_csum body))
         (fun lc =>
       Bufrw.bindL (argsLength (body_args body)) (fun la =>
       Bufrw.LJust (lc + la))))
    (fun body buffer offset =>
       Bufrw.bindR (Checksum.readFrom None_ offsetWidth known buffer offset)
         (fun offset csum =>
       Bufrw.bindR (readArgs (length buffer) buffer offset) (fun offset args =>
       Bufrw.RJust offset (set_body_csum_args csum args body))))
    (fun body buffer offset =>
       let body' :=
         if more then set_body_flags (Z.lor (body_flags body) Fragment) body
         else body in
       (Bufrw.bindW
          (Checksum.writeInto None_ known (body_csum body)
             buffer offset)
          (fun offset buffer => writeArgs (body_args body) buffer offset),
        body')).

End Spec.

End Args.

(* ===================================================================== *)
(** * The structured codec of [v2/call.js]                                *)
(* ===================================================================== *)

(** [flags:1 ttl:4 tracing:24 traceflags:1 service~1 nh:1 (hk~1 hv~1){nh}
    csumtype:1 (csum:4){0,1} (arg~2)*] *)
Module CallRequest.

Definition TypeCode : Z := 0x03.

(** A [CallRequest] body.  The constant [type] field and the [cont] slot,
    which this file never touches, are left out. *)
Record t : Type := mk {
  flags : Z;
  ttl : Z;
  tracing : Tracing.t;
  service : Utf8.jsstr;
  headers : Header.t;
  csum : Checksum.t;
  args : list (list byte)
}.

#[global] Instance argsBody : Args.ArgsBody t := {
  Args.body_flags := flags;
  Args.body_csum := csum;
  Args.body_args := args;
  Args.set_body_flags f b :=
    mk f (ttl b) (tracing b) (service b) (headers b) (csum b) (args b);
  Args.set_body_csum_args c a b :=
    mk (flags b) (ttl b) (tracing b) (service b) (headers b) c a
}.

Section RW.

(** [Tracing.RW], [header.header1] and [argsrw], which other files of the
    repository define, and the checksum [Checksum.objOrType(undefined)] a
    freshly constructed body carries. *)
Variable TracingRW : Bufrw.RW Tracing.t.
Variable header1 : Bufrw.RW Header.t.
Variable argsrw : Args.ArgsRW t.
Variable noCsum : Checksum.t.

Definition callReqLength (body : t) : Bufrw.LengthResult :=
  let length := 0 in
  (* flags:1 *)
  let length := length + Bufrw.UInt8_width in
  (* ttl:4 *)
  let length := length + Bufrw.UInt32BE_width in
  (* tracing:24 traceflags:1 *)
  Bufrw.bindL (Bufrw.byteLength TracingRW (tracing body)) (fun l =>
  let length := length + l in
  (* service~1 *)
  Bufrw.bindL (Bufrw.byteLength Bufrw.str1 (service body)) (fun l =>
  let length := length + l in
  (* nh:1 (hk~1 hv~1){nh} *)
  Bufrw.bindL (Bufrw.byteLength header1 (headers body)) (fun l =>
  let length := length + l in
  (* csumtype:1 (csum:4){0,1} (arg~2)* *)
  Bufrw.bindL (Args.byteLength argsrw body) (fun l =>
  Bufrw.LJust (l + length))))).

Definition readCallReqFrom (buffer : list byte) (offset : Z)
  : Bufrw.ReadResult t :=
  (* flags:1 *)
  Bufrw.bindR (Bufrw.readFrom Bufrw.UInt8 buffer offset) (fun offset flags =>
  (* ttl:4 *)
  Bufrw.bindR (Bufrw.readFrom Bufrw.UInt32BE buffer offset) (fun offset' ttl =>
  if ttl <=? 0 then Bufrw.RError (InvalidTTL ttl) offset
  else
    let offset := offset' in
    (* tracing:24 traceflags:1 *)
    Bufrw.bindR (Bufrw.readFrom TracingRW buffer offset) (fun offset tracing =>
    (* service~1 *)
    Bufrw.bindR (Bufrw.readFrom Bufrw.str1 buffer offset) (fun offset service =>
    (* nh:1 (hk~1 hv~1){nh} *)
    Bufrw.bindR (Bufrw.readFrom header1 buffer offset) (fun offset headers =>
    (* csumtype:1 (csum:4){0,1} (arg~2)* *)
    let body := mk flags ttl tracing service headers noCsum [] in
    Args.readFrom argsrw body buffer offset))))).

(** What a writer returns: its result, the buffer and the body as it
    leaves them. *)
Definition andThen (r : Bufrw.WriteResult * list byte) (body : t)
    (k : Z -> list byte -> Bufrw.WriteResult * list byte * t)
  : Bufrw.WriteResult * list byte * t :=
  match r with
  | (Bufrw.WError e o, buffer) => (Bufrw.WError e o, buffer, body)
  | (Bufrw.WJust o, buffer) => k o buffer
  end.

Definition writeCallReqInto (body : t) (buffer : list byte) (offset : Z)
  : Bufrw.WriteResult * list byte * t :=
  let start := offset in
  (* flags:1 -- filled in later after argsrw *)
  let offset := offset + Bufrw.UInt8_width in
  if ttl body <=? 0
  then (Bufrw.WError (InvalidTTL (ttl body)) offset, buffer, body)
  else
    (* ttl:4 *)
    andThen (Bufrw.writeInto Bufrw.UInt32BE (ttl body) buffer offset) body
      (fun offset buffer =>
    (* tracing:24 traceflags:1 *)
    andThen (Bufrw.writeInto TracingRW (tracing body) buffer offset) body
      (fun offset buffer =>
    (* service~1 *)
    andThen (Bufrw.writeInto Bufrw.str1 (service body) buffer offset) body
      (fun offset buffer =>
    (* nh:1 (hk~1 hv~1){nh} *)
    andThen (Bufrw.writeInto header1 (headers body) buffer offset) body
      (fun offset buffer =>
    (* csumtype:1 (csum:4){0,1} (arg~2)* -- (may mutate body.flags) *)
    let '(res, buffer, body) := Args.writeInto argsrw body buffer offset in
    andThen (res, buffer) body (fun offset buffer =>
    (* now we know the final flags, write them *)
    andThen (Bufrw.writeInto Bufrw.UInt8 (flags body) buffer start) body
      (fun _ buffer => (Bufrw.WJust offset, buffer, body))))))).

End RW.

End CallRequest.

(** [flags:1 code:1 tracing:24 traceflags:1 nh:1 (hk~1 hv~1){nh}
    csumtype:1 (csum:4){0,1} (arg~2)*] *)
Module CallResponse.

Definition TypeCode : Z := 0x04.

(** [ResponseCodes] *)
Definition OK : Z := 0x00.
Definition Error : Z := 0x01.

Record t : Type := mk {
  flags : Z;
  code : Z;
  tracing : Tracing.t;
  headers : Header.t;
  csum : Checksum.t;
  args : list (list byte)
}.

#[global] Instance argsBody : Args.ArgsBody t := {
  Args.body_flags := flags;
  Args.body_csum := csum;
  Args.body_args := args;
  Args.set_body_flags f b :=
    mk f (code b) (tracing b) (headers b) (csum b) (args b);
  Args.set_body_csum_args c a b :=
    mk (flags b) (code b) (tracing b) (headers b) c a
}.

Section RW.

Variable TracingRW : Bufrw.RW Tracing.t.
Variable header1 : Bufrw.RW Header.t.
Variable argsrw : Args.ArgsRW t.
Variable noCsum : Checksum.t.

Definition callResLength (body : t) : Bufrw.LengthResult :=
  let length := 0 in
  (* flags:1 *)
  let length := length + Bufrw.UInt8_width in
  (* code:1 *)
  let length := length + Bufrw.UInt8_width in
  (* tracing:24 traceflags:1 *)
  Bufrw.bindL (Bufrw.byteLength TracingRW (tracing body)) (fun l =>
  let length := length + l in
  (* nh:1 (hk~1 hv~1){nh} *)
  Bufrw.bindL (Bufrw.byteLength header1 (headers body)) (fun l =>
  let length := length + l in
  (* csumtype:1 (csum:4){0,1} (arg~2)* *)
  Bufrw.bindL (Args.byteLength argsrw body) (fun l =>
  Bufrw.LJust (l + length)))).

Definition readCallResFrom (buffer : list byte) (offset : Z)
  : Bufrw.ReadResult t :=
  (* flags:1 *)
  Bufrw.bindR (Bufrw.readFrom Bufrw.UInt8 buffer offset) (fun offset flags =>
  (* code:1 *)
  Bufrw.bindR (Bufrw.readFrom Bufrw.UInt8 buffer offset) (fun offset code =>
  (* tracing:24 traceflags:1 *)
  Bufrw.bindR (Bufrw.readFrom TracingRW buffer offset) (fun offset tracing =>
  (* nh:1 (hk~1 hv~1){nh} *)
  Bufrw.bindR (Bufrw.readFrom header1 buffer offset) (fun offset headers =>
  (* csumtype:1 (csum:4){0,1} (arg~2)* *)
  let body := mk flags code tracing headers noCsum [] in
  Args.readFrom argsrw body buffer offset)))).

Definition andThen (r : Bufrw.WriteResult * list byte) (body : t)
    (k : Z -> list byte -> Bufrw.WriteResult * list byte * t)
  : Bufrw.WriteResult * list byte * t :=
  match r with
  | (Bufrw.WError e o, buffer) => (Bufrw.WError e o, buffer, body)
  | (Bufrw.WJust o, buffer) => k o buffer
  end.

Definition writeCallResInto (body : t) (buffer : list byte) (offset : Z)
  : Bufrw.WriteResult * list byte * t :=
  let start := offset in
  (* flags:1 -- filled in later after argsrw *)
  let offset := offset + Bufrw.UInt8_width in
  (* code:1 *)
  andThen (Bufrw.writeInto Bufrw.UInt8 (code body) buffer offset) body
    (fun offset buffer =>
  (* tracing:24 traceflags:1 *)
  andThen (Bufrw.writeInto TracingRW (tracing body) buffer offset) body
    (fun offset buffer =>
  (* nh:1 (hk~1 hv~1){nh} *)
  andThen (Bufrw.writeInto header1 (headers body) buffer offset) body
    (fun offset buffer =>
  (* csumtype:1 (csum:4){0,1} (arg~2)* -- (may mutate body.flags) *)
  let '(res, buffer, body) := Args.writeInto argsrw body buffer offset in
  andThen (res, buffer) body (fun offset buffer =>
  (* now we know the final flags, write them *)
  andThen (Bufrw.writeInto Bufrw.UInt8 (flags body) buffer start) body
    (fun _ buffer => (Bufrw.WJust offset, buffer, body)))))).

End RW.

End CallResponse.

(* ===================================================================== *)
(** * Properties of the structured writer and reader                      *)
(* ===================================================================== *)

Module CallProofs.

Import Bufrw.

Lemma writeBytes_just bs buffer offset o buffer' :
  writeBytes bs buffer offset = (WJust o, buffer') ->
  Buf.write buffer offset bs = Some buffer'
  /\ o = offset + Z.of_nat (length bs).
Proof.
  unfold writeBytes. destruct (Buf.write buffer offset bs); [|done].
  by intros [= <- <-].
Qed.

Lemma UInt8_write_read v buffer offset o buffer' :
  writeInto UInt8 v buffer offset = (WJust o, buffer') ->
  Buf.write buffer offset [Buf.of_Z v] = Some buffer'
  /\ Buf.readUInt8 buffer' offset = Some (v mod 256).
Proof.
  cbn [writeInto UInt8]. intros H. apply writeBytes_just in H as [H _].
  split; [done|]. apply Buf.readUInt8_write in H.
  by rewrite Buf.to_of_Z_mod in H.
Qed.

(** C6. Encoding a CallRequest body whose ttl is 0 fails with InvalidTTL
    and writes nothing; decoding a frame whose four ttl bytes are zero
    fails with InvalidTTL; and whenever the writer or the reader succeeds,
    the ttl written or read is positive. *)
Theorem ttl_zero_is_rejected
    (TracingRW : RW Tracing.t) (header1 : RW Header.t)
    (argsrw : Args.ArgsRW CallRequest.t) (noCsum : Checksum.t) :
  (forall body buffer offset,
     CallRequest.ttl body = 0 ->
     CallRequest.writeCallReqInto TracingRW header1 argsrw body buffer offset
     = (WError (InvalidTTL 0) (offset + 1), buffer, body))
  /\ (forall pre fl rest,
     CallRequest.readCallReqFrom TracingRW header1 argsrw noCsum
       (pre ++ fl :: x00 :: x00 :: x00 :: x00 :: rest) (Z.of_nat (length pre))
     = RError (InvalidTTL 0) (Z.of_nat (length pre) + 1))
  /\ (forall body buffer offset o' buffer' body',
     CallRequest.writeCallReqInto TracingRW header1 argsrw body buffer offset
     = (WJust o', buffer', body') ->
     0 < CallRequest.ttl body)
  /\ (forall buffer offset o' body,
     CallRequest.readCallReqFrom TracingRW header1 argsrw noCsum buffer offset
     = RJust o' body ->
     exists ttl, Buf.readUInt32BE buffer (offset + 1) = Some ttl /\ 0 < ttl).
Proof.
  repeat split.
  - intros body buffer offset H. unfold CallRequest.writeCallReqInto.
    rewrite H. reflexivity.
  - intros pre fl rest. unfold CallRequest.readCallReqFrom.
    cbn [readFrom UInt8 UInt32BE bindR]. rewrite Buf.readUInt8_app.
    cbn [bindR].
    replace (Z.of_nat (length pre) + 1)
      with (Z.of_nat (length (pre ++ [fl])))
      by (rewrite length_app; simpl; lia).
    replace (pre ++ fl :: x00 :: x00 :: x00 :: x00 :: rest)
      with ((pre ++ [fl]) ++ x00 :: x00 :: x00 :: x00 :: rest)
      by (by rewrite <- app_assoc).
    rewrite Buf.readUInt32BE_app. reflexivity.
  - intros body buffer offset o' buffer' body'.
    unfold CallRequest.writeCallReqInto.
    destruct (Z.leb_spec (CallRequest.ttl body) 0); [done|lia].
  - intros buffer offset o' body. unfold CallRequest.readCallReqFrom.
    cbn [readFrom UInt8 UInt32BE].
    destruct (Buf.readUInt8 buffer offset); [|done]. cbn [bindR].
    destruct (Buf.readUInt32BE buffer (offset + 1)) as [ttl|]; [|done].
    cbn [bindR]. destruct (Z.leb_spec ttl 0); [done|].
    intros _. exists ttl. split; [done|lia].
Qed.

(** C8. When the CallRequest writer succeeds, it has written ttl, tracing,
    service and headers from the byte after the start position on, then
    let [argsrw] write checksum and arguments (which may change the
    body's flags), and only then stored the flags of the body as [argsrw]
    left it at the start position: the flags byte of the frame is that
    final value.  The same holds for the CallResponse writer, with the
    code in place of ttl and service. *)
Theorem flags_byte_is_written_last
    (TracingRW : RW Tracing.t) (header1 : RW Header.t) :
  (forall (argsrw : Args.ArgsRW CallRequest.t) body buffer offset
          o' buffer' body',
     CallRequest.writeCallReqInto TracingRW header1 argsrw body buffer offset
     = (WJust o', buffer', body') ->
     exists o1 b1 o2 b2 o3 b3 o4 b4 bA,
       writeInto UInt32BE (CallRequest.ttl body) buffer (offset + 1)
       = (WJust o1, b1)
       /\ writeInto TracingRW (CallRequest.tracing body) b1 o1 = (WJust o2, b2)
       /\ writeInto str1 (CallRequest.service body) b2 o2 = (WJust o3, b3)
       /\ writeInto header1 (CallRequest.headers body) b3 o3 = (WJust o4, b4)
       /\ Args.writeInto argsrw body b4 o4 = (WJust o', bA, body')
       /\ Buf.write bA offset [Buf.of_Z (CallRequest.flags body')]
          = Some buffer'
       /\ Buf.readUInt8 buffer' offset
          = Some (CallRequest.flags body' mod 256))
  /\ (forall (argsrw : Args.ArgsRW CallResponse.t) body buffer offset
          o' buffer' body',
     CallResponse.writeCallResInto TracingRW header1 argsrw body buffer offset
     = (WJust o', buffer', body') ->
     exists o1 b1 o2 b2 o3 b3 bA,
       writeInto UInt8 (CallResponse.code body) buffer (offset + 1)
       = (WJust o1, b1)
       /\ writeInto TracingRW (CallResponse.tracing body) b1 o1 = (WJust o2, b2)
       /\ writeInto header1 (CallResponse.headers body) b2 o2 = (WJust o3, b3)
       /\ Args.writeInto argsrw body b3 o3 = (WJust o', bA, body')
       /\ Buf.write bA offset [Buf.of_Z (CallResponse.flags body')]
          = Some buffer'
       /\ Buf.readUInt8 buffer' offset
          = Some (CallResponse.flags body' mod 256)).
Proof.
  split.
  - intros argsrw body buffer offset o' buffer' body'.
    unfold CallRequest.writeCallReqInto, CallRequest.andThen, UInt8_width.
    destruct (CallRequest.ttl body <=? 0); [done|].
    destruct (writeInto UInt32BE _ buffer _) as [[e o|o1] b1] eqn:E1; [done|].
    destruct (writeInto TracingRW _ b1 o1) as [[e o|o2] b2] eqn:E2; [done|].
    destruct (writeInto str1 _ b2 o2) as [[e o|o3] b3] eqn:E3; [done|].
    destruct (writeInto header1 _ b3 o3) as [[e o|o4] b4] eqn:E4; [done|].
    destruct (Args.writeInto argsrw body b4 o4) as [[[e o|oA] bA] bodyA] eqn:E8; [done|].
    destruct (writeInto UInt8 (CallRequest.flags bodyA) bA offset)
      as [[e o|oF] bF] eqn:EF; [done|].
    intros [= <- <- <-].
    apply UInt8_write_read in EF as [Hw Hr].
    by exists o1, b1, o2, b2, o3, b3, o4, b4, bA.
  - intros argsrw body buffer offset o' buffer' body'.
    unfold CallResponse.writeCallResInto, CallResponse.andThen, UInt8_width.
    destruct (writeInto UInt8 _ buffer _) as [[e o|o1] b1] eqn:E5; [done|].
    destruct (writeInto TracingRW _ b1 o1) as [[e o|o2] b2] eqn:E6; [done|].
    destruct (writeInto header1 _ b2 o2) as [[e o|o3] b3] eqn:E7; [done|].
    destruct (Args.writeInto argsrw body b3 o3) as [[[e o|oA] bA] bodyA] eqn:E9; [done|].
    destruct (writeInto UInt8 (CallResponse.flags bodyA) bA offset)
      as [[e o|oF] bF] eqn:EF; [done|].
    intros [= <- <- <-].
    apply UInt8_write_read in EF as [Hw Hr].
    by exists o1, b1, o2, b2, o3, b3, bA.
Qed.

End CallProofs.
(* ===================================================================== *)
(** * The lazy readers of [CallRequest.RW.lazy]                           *)
(* ===================================================================== *)

Module Lazy.

(** [TracingInfo], the record [readTracingValue] builds: each identifier is
    a pair of 32-bit halves, high half first. *)
Record TracingInfo := mkTracingInfo {
  ti_spanid : Z * Z;
  ti_parentid : Z * Z;
  ti_traceid : Z * Z;
  ti_flags : Z
}.

(** [frame.cache]: every slot starts out [null]. *)
Record OffsetCache := mkCache {
  ttlValue : option Z;
  tracingValue : option TracingInfo;
  serviceStr : option Utf8.jsstr;
  callerNameStr : option Utf8.jsstr;
  routingDelegateStr : option Utf8.jsstr;
  arg1Str : option Utf8.jsstr;
  headerStartOffset : option Z;
  csumStartOffset : option Z;
  cnValueOffset : option Z;
  rdValueOffset : option Z;
  lastError : option string
}.

Definition emptyCache : OffsetCache :=
  mkCache None None None None None None None None None None None.

Definition set_ttlValue v c :=
  mkCache v (tracingValue c) (serviceStr c) (callerNameStr c)
    (routingDelegateStr c) (arg1Str c) (headerStartOffset c)
    (csumStartOffset c) (cnValueOffset c) (rdValueOffset c) (lastError c).
Definition set_tracingValue v c :=
  mkCache (ttlValue c) v (serviceStr c) (callerNameStr c)
    (routingDelegateStr c) (arg1Str c) (headerStartOffset c)
    (csumStartOffset c) (cnValueOffset c) (rdValueOffset c) (lastError c).
Definition set_serviceStr v c :=
  mkCache (ttlValue c) (tracingValue c) v (callerNameStr c)
    (routingDelegateStr c) (arg1Str c) (headerStartOffset c)
    (csumStartOffset c) (cnValueOffset c) (rdValueOffset c) (lastError c).
Definition set_callerNameStr v c :=
  mkCache (ttlValue c) (tracingValue c) (serviceStr c) v
    (routingDelegateStr c) (arg1Str c) (headerStartOffset c)
    (csumStartOffset c) (cnValueOffset c) (rdValueOffset c) (lastError c).
Definition set_routingDelegateStr v c :=
  mkCache (ttlValue c) (tracingValue c) (serviceStr c) (callerNameStr c)
    v (arg1Str c) (headerStartOffset c)
    (csumStartOffset c) (cnValueOffset c) (rdValueOffset c) (lastError c).
Definition set_arg1Str v c :=
  mkCache (ttlValue c) (tracingValue c) (serviceStr c) (callerNameStr c)
    (routingDelegateStr c) v (headerStartOffset c)
    (csumStartOffset c) (cnValueOffset c) (rdValueOffset c) (lastError c).
Definition set_headerStartOffset v c :=
  mkCache (ttlValue c) (tracingValue c) (serviceStr c) (callerNameStr c)
    (routingDelegateStr c) (arg1Str c) v
    (csumStartOffset c) (cnValueOffset c) (rdValueOffset c) (lastError c).
Definition set_scanOffsets cn rd csum c :=
  mkCache (ttlValue c) (tracingValue c) (serviceStr c) (callerNameStr c)
    (routingDelegateStr c) (arg1Str c) (headerStartOffset c)
    csum cn rd (lastError c).
Definition set_lastError v c :=
  mkCache (ttlValue c) (tracingValue c) (serviceStr c) (callerNameStr c)
    (routingDelegateStr c) (arg1Str c) (headerStartOffset c)
    (csumStartOffset c) (cnValueOffset c) (rdValueOffset c) v.

(** A frame as the lazy readers see it: the buffer it arrived in and its
    declared size.  Its cache is the mutable part and is threaded below. *)
Record Frame := mkFrame {
  buffer : list byte;
  size : Z
}.

(** The state a lazy reader runs in: the frame's cache, and the number of
    reads made of the frame's buffer so far (a counting buffer). *)
Record St := mkSt {
  cache : OffsetCache;
  reads : nat
}.

(** A reader either throws (a [RangeError] out of a buffer read, or the
    failed assertion of a call it makes) or returns a value and leaves a
    state. *)
Inductive Outcome (A : Type) : Type :=
| Throw : Outcome A
| Done : A -> St -> Outcome A.
Arguments Throw {A}.
Arguments Done {A} _ _.

Definition M (A : Type) : Type := St -> Outcome A.

Definition ret {A} (a : A) : M A := fun s => Done a s.

Definition bind {A B} (m : M A) (k : A -> M B) : M B :=
  fun s => match m s with
           | Throw => Throw
           | Done a s' => k a s'
           end.

Notation "x <- m ;; k" := (bind m (fun x => k))
  (at level 65, m at next level, right associativity).
Notation "m ;;; k" := (bind m (fun _ => k))
  (at level 65, right associativity).

Definition getCache : M OffsetCache := fun s => Done (cache s) s.

Definition modifyCache (f : OffsetCache -> OffsetCache) : M unit :=
  fun s => Done tt (mkSt (f (cache s)) (reads s)).

(** One read of the buffer. *)
Definition bufferRead {A} (r : option A) : M A :=
  fun s => match r with
           | Some v => Done v (mkSt (cache s) (S (reads s)))
           | None => Throw
           end.

(** The result of a call that fails an assertion where it has none. *)
Definition asserted {A} (r : option A) : M A :=
  fun s => match r with
           | Some v => Done v s
           | None => Throw
           end.

Definition readUInt8 (frame : Frame) (offset : Z) : M Z :=
  bufferRead (Buf.readUInt8 (buffer frame) offset).
Definition readUInt16BE (frame : Frame) (offset : Z) : M Z :=
  bufferRead (Buf.readUInt16BE (buffer frame) offset).
Definition readUInt32BE (frame : Frame) (offset : Z) : M Z :=
  bufferRead (Buf.readUInt32BE (buffer frame) offset).
Definition fastBufferToString (frame : Frame) (start end_ : Z)
  : M Utf8.jsstr :=
  bufferRead (Some (Utf8.fastBufferToString (buffer frame) start end_)).

(** The value of a numeric slot when it is truthy: neither [null] nor 0. *)
Definition truthy (o : option Z) : option Z :=
  match o with
  | Some z => if z =? 0 then None else Some z
  | None => None
  end.

(** [new Buffer('cn').readUInt16BE(0, false)] and the same for ['rd']. *)
Definition CN_VALUE : Z :=
  default 0 (Buf.readUInt16BE (Utf8.utf8Write (str "cn")) 0).
Definition RD_VALUE : Z :=
  default 0 (Buf.readUInt16BE (Utf8.utf8Write (str "rd")) 0).

(** [res.value]: an error result of a fixed-width read carries no
    value. *)
Definition valueOf (res : Bufrw.ReadResult Z) : option Z :=
  match res with
  | Bufrw.RJust _ v => Some v
  | Bufrw.RError _ _ => None
  end.

(** [v & mask], where [v] is a number or [undefined], and [undefined]
    converts to 0. *)
Definition bitand (v : option Z) (mask : Z) : Z := Z.land (default 0 v) mask.

Section Readers.

(** [Frame.Overhead], [Checksum.Types.None] and [Checksum.offsetWidth]
    belong to modules outside this file and are parameters here.
    [Checksum.offsetWidth] fails its assertion on a type that is not
    defined: it has no result there. *)
Variable Overhead : Z.
Variable ChecksumNone : Z.
Variable offsetWidth : Z -> option Z.

Definition flagsOffset : Z := Overhead.
Definition ttlOffset : Z := flagsOffset + 1.
Definition tracingOffset : Z := ttlOffset + 4.
Definition serviceOffset : Z := tracingOffset + 25.

(** These three return what [bufrw] reads from [frame.buffer]; they
    leave the cache alone. *)
Definition readFlags (frame : Frame) : Bufrw.ReadResult Z :=
  (* flags:1 *)
  Bufrw.readFrom Bufrw.UInt8 (buffer frame) flagsOffset.

Definition readTracing (frame : Frame) : Bufrw.ReadResult Tracing.t :=
  (* tracing:24 traceflags:1 *)
  Bufrw.readFrom Tracing.RW (buffer frame) tracingOffset.

Definition readService (frame : Frame) : Bufrw.ReadResult Utf8.jsstr :=
  (* service~1 *)
  Bufrw.readFrom Bufrw.str1 (buffer frame) serviceOffset.

Definition isFrameTerminal (frame : Frame) : bool :=
  let flags := readFlags frame in
  let frag := bitand (valueOf flags) Fragment in
  (* !frag *)
  frag =? 0.

Definition readTTL (frame : Frame) : M Z :=
  c <- getCache ;;
  match ttlValue c with
  | Some v => ret v
  | None =>
    let offset := ttlOffset in
    if size frame <? offset + 4 then ret 0
    else
      ttl <- readUInt32BE frame offset ;;
      modifyCache (set_ttlValue (Some ttl)) ;;;
      ret ttl
  end.

Definition readTracingValue (frame : Frame) : M (option TracingInfo) :=
  c <- getCache ;;
  match tracingValue c with
  | Some t => ret (Some t)
  | None =>
    let offset := tracingOffset in
    if size frame <? offset + 25 then ret None
    else
      spanid1 <- readUInt32BE frame offset ;;
      let offset := offset + 4 in
      spanid2 <- readUInt32BE frame offset ;;
      let offset := offset + 4 in
      parentid1 <- readUInt32BE frame offset ;;
      let offset := offset + 4 in
      parentid2 <- readUInt32BE frame offset ;;
      let offset := offset + 4 in
      traceid1 <- readUInt32BE frame offset ;;
      let offset := offset + 4 in
      traceid2 <- readUInt32BE frame offset ;;
      let offset := offset + 4 in
      flags <- readUInt8 frame offset ;;
      let tracing :=
        mkTracingInfo (spanid1, spanid2) (parentid1, parentid2)
          (traceid1, traceid2) flags in
      modifyCache (set_tracingValue (Some tracing)) ;;;
      ret (Some tracing)
  end.

(** Returns 0 when the service length cannot be read. *)
Definition findHeaderStartOffset (frame : Frame) : M Z :=
  c <- getCache ;;
  match truthy (headerStartOffset c) with
  | Some o => ret o
  | None =>
    let offset := serviceOffset in
    if size frame <? offset + 1 then ret 0
    else
      strLength <- readUInt8 frame offset ;;
      let offset := offset + (strLength + 1) in
      modifyCache (set_headerStartOffset (Some offset)) ;;;
      ret offset
  end.

Definition readServiceStr (frame : Frame) : M (option Utf8.jsstr) :=
  c <- getCache ;;
  match serviceStr c with
  | Some s => ret (Some s)
  | None =>
    headerStartOffset <- findHeaderStartOffset frame ;;
    if headerStartOffset =? 0 then ret None
    else if size frame <? headerStartOffset then ret None
    else
      serviceNameStr <-
        fastBufferToString frame (serviceOffset + 1) headerStartOffset ;;
      modifyCache (set_serviceStr (Some serviceNameStr)) ;;;
      ret (Some serviceNameStr)
  end.

(** The body of the [for] loop of [scanAndSkipHeaders], [n] iterations
    left; [None] is the early [return false]. *)
Fixpoint scanLoop (frame : Frame) (n : nat)
    (offset cnValueOffset rdValueOffset : Z) : M (option (Z * Z * Z)) :=
  match n with
  | O => ret (Some (offset, cnValueOffset, rdValueOffset))
  | S n' =>
    if size frame <? offset + 1 then ret None
    else
      keyLength <- readUInt8 frame offset ;;
      let offset := offset + 1 in
      if size frame <? keyLength + offset then ret None
      else
        kc <- (if (cnValueOffset =? 0) && (keyLength =? 2) then
                 (* keyValue is still null here *)
                 keyValue <- readUInt16BE frame offset ;;
                 ret (Some keyValue,
                      if keyValue =? CN_VALUE then offset + keyLength
                      else cnValueOffset)
               else ret (None, cnValueOffset)) ;;
        let '(keyValue, cnValueOffset) := kc in
        kr <- (if (rdValueOffset =? 0) && (keyLength =? 2) then
                 keyValue <- match truthy keyValue with
                             | Some k => ret k
                             | None => readUInt16BE frame offset
                             end ;;
                 ret (if keyValue =? RD_VALUE then offset + keyLength
                      else rdValueOffset)
               else ret rdValueOffset) ;;
        let rdValueOffset := kr in
        let offset := offset + keyLength in
        if size frame <? offset + 1 then ret None
        else
          valueLength <- readUInt8 frame offset ;;
          let offset := offset + 1 in
          if size frame <? valueLength + offset then ret None
          else scanLoop frame n' (offset + valueLength)
                 cnValueOffset rdValueOffset
  end.

Definition scanAndSkipHeaders (frame : Frame) : M bool :=
  offset <- findHeaderStartOffset frame ;;
  if offset =? 0 then ret false
  else if size frame <? offset + 1 then ret false
  else
    nh <- readUInt8 frame offset ;;
    let offset := offset + 1 in
    r <- scanLoop frame (Z.to_nat nh) offset 0 0 ;;
    match r with
    | None => ret false
    | Some (offset, cnValueOffset, rdValueOffset) =>
      modifyCache (set_scanOffsets (Some cnValueOffset)
                     (Some rdValueOffset) (Some offset)) ;;;
      ret true
    end.

Definition readUInt8String (frame : Frame) (offset : Z)
  : M (option Utf8.jsstr) :=
  if size frame <? offset + 1 then ret None
  else
    valueLength <- readUInt8 frame offset ;;
    let offset := offset + 1 in
    let end_ := offset + valueLength in
    if size frame <? end_ then ret None
    else
      s <- fastBufferToString frame offset end_ ;;
      ret (Some s).

(** [!str] for a string-or-null: [null] and the empty string are falsy. *)
Definition falsyStr (s : option Utf8.jsstr) : bool :=
  match s with
  | None | Some [] => true
  | Some (_ :: _) => false
  end.

Definition readCallerNameStr (frame : Frame) : M (option Utf8.jsstr) :=
  c <- getCache ;;
  match callerNameStr c with
  | Some s => ret (Some s)
  | None =>
    success <- match cnValueOffset c with
               | None => scanAndSkipHeaders frame
               | Some _ => ret true
               end ;;
    if negb success then ret None
    else
      c <- getCache ;;
      match truthy (cnValueOffset c) with
      | None => ret None
      | Some offset =>
        callerNameStr <- readUInt8String frame offset ;;
        if falsyStr callerNameStr then ret None
        else
          modifyCache (set_callerNameStr callerNameStr) ;;;
          ret callerNameStr
      end
  end.

Definition readRoutingDelegateStr (frame : Frame) : M (option Utf8.jsstr) :=
  c <- getCache ;;
  match routingDelegateStr c with
  | Some s => ret (Some s)
  | None =>
    success <- match rdValueOffset c with
               | None => scanAndSkipHeaders frame
               | Some _ => ret true
               end ;;
    if negb success then ret None
    else
      c <- getCache ;;
      match truthy (rdValueOffset c) with
      | None => ret None
      | Some offset =>
        routingDelegateStr <- readUInt8String frame offset ;;
        if falsyStr routingDelegateStr then ret None
        else
          modifyCache (set_routingDelegateStr routingDelegateStr) ;;;
          ret routingDelegateStr
      end
  end.

Definition fail (msg : string) : M (option Utf8.jsstr) :=
  modifyCache (set_lastError (Some msg)) ;;; ret None.

Definition readArg1Str (frame : Frame) : M (option Utf8.jsstr) :=
  c <- getCache ;;
  match arg1Str c with
  | Some s => ret (Some s)
  | None =>
    success <- match truthy (csumStartOffset c) with
               | None => scanAndSkipHeaders frame
               | Some _ => ret true
               end ;;
    if negb success then fail "Could not scan & skip headers"
    else
      c <- getCache ;;
      (* a null slot would count as 0 in the arithmetic below *)
      let offset := default 0 (csumStartOffset c) in
      if size frame <? offset + 1 then fail "Could not read csum type"
      else
        csumType <- readUInt8 frame offset ;;
        let offset := offset + 1 in
        offset <- (if csumType =? ChecksumNone then ret offset
                   else
                     width <- asserted (offsetWidth csumType) ;;
                     ret (offset + width)) ;;
        if size frame <? offset + 2 then fail "Could not read arg1 size"
        else
          arg1Length <- readUInt16BE frame offset ;;
          let offset := offset + 2 in
          let end_ := offset + arg1Length in
          if size frame <? end_ then fail "Could not read arg1 itself"
          else
            arg1Str <- fastBufferToString frame offset end_ ;;
            modifyCache (set_arg1Str (Some arg1Str)) ;;;
            ret (Some arg1Str)
  end.

(** [bufrw.str1.sizerw.readFrom(frame.buffer, offset)]: a read of the
    buffer that reports an underflow as an error result. *)
Definition sizerwReadFrom (frame : Frame) (offset : Z)
  : M (Bufrw.ReadResult Z) :=
  fun s =>
    match Bufrw.readFrom Bufrw.UInt8 (buffer frame) offset with
    | Bufrw.RJust o v =>
      Done (Bufrw.RJust o v) (mkSt (cache s) (S (reads s)))
    | Bufrw.RError e o => Done (Bufrw.RError e o) s
    end.

(** [readHeaders], as far as this file goes: it ends by calling
    [header.header1.lazyRead(frame, offset)], which another file defines,
    and what is returned here is the error of skipping the service or the
    offset handed to [lazyRead]. *)
Definition readHeaders (frame : Frame) : M (Error + Z) :=
  (* last fixed offset *)
  let offset := serviceOffset in
  c <- getCache ;;
  match headerStartOffset c with
  | Some o => ret (inr o)
  | None =>
    (* SKIP service~1 *)
    res <- sizerwReadFrom frame offset ;;
    match res with
    | Bufrw.RError e _ => ret (inl e)
    | Bufrw.RJust res_offset res_value =>
      let offset := res_offset + res_value in
      modifyCache (set_headerStartOffset (Some offset)) ;;;
      ret (inr offset)
    end
  end.

End Readers.

End Lazy.

(* ===================================================================== *)
(** * Example frames                                                      *)
(* ===================================================================== *)

(** One setting of the parameters and a few frames, for the examples
    below: a frame header of 16 bytes, the checksum type [None] tagged 0,
    tags 0 to 3 defined, and digests of 4 bytes ([csum:4] in the layout
    comment of [call.js]). *)
Module Scenario.

Definition Overhead : Z := 16.
Definition ChecksumNone : Z := 0.
Definition offsetWidth (type : Z) : Z := if type =? 0 then 0 else 4.
Definition known (type : Z) : bool := (0 <=? type) && (type <=? 3).

(** [Checksum.offsetWidth] with its failure on the tags above 3. *)
Definition offsetWidthOf : Z -> option Z :=
  Checksum.offsetWidthOf offsetWidth known.

Definition noCsum : Checksum.t := Checksum.mk ChecksumNone [].

Definition argsrw {B} `{Args.ArgsBody B} (more : bool) : Args.ArgsRW B :=
  Args.rw ChecksumNone offsetWidth known more.

(** The two passes of a structured write: size the body, then write it
    into a buffer of that size. *)
Definition encodeRequest (more : bool) (body : CallRequest.t)
  : option (list byte) :=
  match CallRequest.callReqLength Tracing.RW Header.header1
          (argsrw more) body with
  | Bufrw.LJust n =>
    match CallRequest.writeCallReqInto Tracing.RW Header.header1
            (argsrw more) body (replicate (Z.to_nat n) x00) 0 with
    | (Bufrw.WJust _, buffer, _) => Some buffer
    | _ => None
    end
  | Bufrw.LError _ => None
  end.

Definition decodeRequest (buffer : list byte) (offset : Z)
  : Bufrw.ReadResult CallRequest.t :=
  CallRequest.readCallReqFrom Tracing.RW Header.header1 (argsrw false)
    noCsum buffer offset.

(** A frame: 16 bytes of frame header and then the body. *)
Definition frameOf (body : list byte) : Lazy.Frame :=
  let buffer := replicate 16 x00 ++ body in
  Lazy.mkFrame buffer (Z.of_nat (length buffer)).

Definition request (service : string) (headers : list (string * string))
    (args : list (list byte)) : CallRequest.t :=
  CallRequest.mk 0 1 Tracing.emptyTracing (str service)
    (map (fun kv => (str kv.1, str kv.2)) headers) noCsum args.

Definition bodyBytes (body : CallRequest.t) : list byte :=
  default [] (encodeRequest false body).

(** Scenario S1: service ["svc"], one header [cn = caller], one empty
    argument. *)
Definition minimal : CallRequest.t :=
  request "svc" [("cn", "caller")] [[]].

(** A caller name that is the empty string. *)
Definition emptyCaller : CallRequest.t :=
  request "svc" [("cn", "")] [[]].

(** Scenario S3: two [cn] headers. *)
Definition duplicate : CallRequest.t :=
  request "svc" [("cn", "first"); ("cn", "second")] [[]].

(** Two [cn] headers, the first with an empty value. *)
Definition emptyThenSecond : CallRequest.t :=
  request "svc" [("cn", ""); ("cn", "second")] [[]].

(** A complete body that carries no argument. *)
Definition noArgs : CallRequest.t :=
  request "svc" [("cn", "caller")] [].

(** A request with tracing set, a checksum of type 1 and three
    arguments. *)
Definition checksummed : CallRequest.t :=
  CallRequest.mk 0 1000 (Tracing.mk (0, 1) (0, 2) (0, 3) 1) (str "svc")
    [(str "cn", str "caller"); (str "as", str "raw")]
    (Checksum.mk 1 [x01; x02; x03; x04]) [[x68; x69]; []; [x21]].

(** A response that carries an application error. *)
Definition response : CallResponse.t :=
  CallResponse.mk 0 CallResponse.Error Tracing.emptyTracing
    [(str "as", str "raw")] noCsum [[]; [x6f; x6f; x70; x73]; []].

(** The frame of [minimal] cut right after the length byte of the
    service. *)
Definition cutInService : Lazy.Frame :=
  let buffer := take 47 (Lazy.buffer (frameOf (bodyBytes minimal))) in
  Lazy.mkFrame buffer 47.

(** A frame whose service, caller name, routing delegate and first
    argument are each the single byte 0xFF, which is not UTF-8. *)
Definition notUtf8 : Lazy.Frame :=
  frameOf (map Buf.of_Z
    ([0; 0; 0; 0; 1] ++ replicate 25 0
     ++ [1; 0xFF]
     ++ [2; 2; 0x63; 0x6E; 1; 0xFF; 2; 0x72; 0x64; 1; 0xFF]
     ++ [0]
     ++ [0; 1; 0xFF])).

(** Two [cn] headers, [cn = first] and [cn = second], in a frame whose ttl
    field is 0. *)
Definition duplicateNoTTL : Lazy.Frame :=
  frameOf (map Buf.of_Z
    ([0; 0; 0; 0; 0] ++ replicate 25 0
     ++ [3; 0x73; 0x76; 0x63]
     ++ [2; 2; 0x63; 0x6E; 5; 0x66; 0x69; 0x72; 0x73; 0x74;
            2; 0x63; 0x6E; 6; 0x73; 0x65; 0x63; 0x6F; 0x6E; 0x64]
     ++ [0]
     ++ [0; 0])).

(** Two [cn] headers, [cn] with an empty value and [cn = second]. *)
Definition emptyThenSecondRaw : Lazy.Frame :=
  frameOf (map Buf.of_Z
    ([0; 0; 0; 0; 1] ++ replicate 25 0
     ++ [3; 0x73; 0x76; 0x63]
     ++ [2; 2; 0x63; 0x6E; 0;
            2; 0x63; 0x6E; 6; 0x73; 0x65; 0x63; 0x6F; 0x6E; 0x64]
     ++ [0]
     ++ [0; 0])).

End Scenario.

(* ===================================================================== *)
(** * The structured writers on the example frames                        *)
(* ===================================================================== *)

Module CallExamples.

Import Bufrw.

(** A request whose ttl is 0. *)
Definition expired : CallRequest.t :=
  CallRequest.mk 0 0 Tracing.emptyTracing (str "svc") [] Scenario.noCsum [].

(** Witness for C6: the writer rejects [expired] and leaves the buffer as
    it was; the ttl of a body that is written, and the ttl field of a
    frame that is read, are positive. *)
Lemma ttl_zero_is_rejected_witness :
  CallRequest.writeCallReqInto Tracing.RW Header.header1
    (Scenario.argsrw false) expired (replicate 40 x00) 0
  = (WError (InvalidTTL 0) 1, replicate 40 x00, expired)
  /\ 0 < CallRequest.ttl Scenario.minimal
  /\ exists ttl,
       Buf.readUInt32BE (Scenario.bodyBytes Scenario.minimal) 1 = Some ttl
       /\ 0 < ttl.
Proof.
  destruct (CallProofs.ttl_zero_is_rejected Tracing.RW Header.header1
              (Scenario.argsrw false) Scenario.noCsum) as (H1 & _ & H3 & H4).
  split; [exact (H1 expired (replicate 40 x00) 0 eq_refl)|]. split.
  - eapply (H3 Scenario.minimal (replicate 48 x00) 0).
    vm_compute. reflexivity.
  - eapply (H4 (Scenario.bodyBytes Scenario.minimal) 0).
    vm_compute. reflexivity.
Defined.

(** Witness for C8: written with more bodies to follow, a request and a
    response whose flags are 0 leave with the Fragment bit set, and the
    flags byte of the frame is 1. *)
Lemma flags_byte_is_written_last_witness :
  (exists o' buffer' body',
     CallRequest.writeCallReqInto Tracing.RW Header.header1
       (Scenario.argsrw true) Scenario.minimal (replicate 48 x00) 0
     = (WJust o', buffer', body')
     /\ CallRequest.flags Scenario.minimal = 0
     /\ CallRequest.flags body' = 1
     /\ Buf.readUInt8 buffer' 0 = Some 1)
  /\ (exists o' buffer' body',
     CallResponse.writeCallResInto Tracing.RW Header.header1
       (Scenario.argsrw true) Scenario.response (replicate 46 x00) 0
     = (WJust o', buffer', body')
     /\ CallResponse.flags Scenario.response = 0
     /\ CallResponse.flags body' = 1
     /\ Buf.readUInt8 buffer' 0 = Some 1).
Proof.
  destruct (CallProofs.flags_byte_is_written_last Tracing.RW Header.header1)
    as [Hreq Hres].
  split.
  - eassert (Hw : CallRequest.writeCallReqInto Tracing.RW Header.header1
                    (Scenario.argsrw true) Scenario.minimal
                    (replicate 48 x00) 0
                  = (WJust _, _, _)) by (vm_compute; reflexivity).
    destruct (Hreq _ _ _ _ _ _ _ Hw)
      as (? & ? & ? & ? & ? & ? & ? & ? & ? & _ & _ & _ & _ & _ & _ & Hr).
    eexists _, _, _. split; [exact Hw|]. by split_and!.
  - eassert (Hw : CallResponse.writeCallResInto Tracing.RW Header.header1
                    (Scenario.argsrw true) Scenario.response
                    (replicate 46 x00) 0
                  = (WJust _, _, _)) by (vm_compute; reflexivity).
    destruct (Hres _ _ _ _ _ _ _ Hw)
      as (? & ? & ? & ? & ? & ? & ? & _ & _ & _ & _ & _ & Hr).
    eexists _, _, _. split; [exact Hw|]. by split_and!.
Defined.

End CallExamples.

(* ===================================================================== *)
(** * Properties of the lazy readers                                      *)
(* ===================================================================== *)

Module LazyProofs.

Import Lazy.

(** The state of a frame nothing has been read from. *)
Definition fresh : St := mkSt emptyCache 0.

(** The lazy accessors that go through the cache, and what they return. *)
Inductive accessor : Type :=
| ReadTTL
| ReadTracingValue
| ReadServiceStr
| ReadCallerNameStr
| ReadRoutingDelegateStr
| ReadArg1Str.

Inductive value : Type :=
| VNum (z : Z)
| VTracing (t : option TracingInfo)
| VStr (s : option Utf8.jsstr).

Definition call (Overhead ChecksumNone : Z) (offsetWidth : Z -> option Z)
    (a : accessor) (frame : Frame) : M value :=
  match a with
  | ReadTTL => v <- readTTL Overhead frame ;; ret (VNum v)
  | ReadTracingValue => v <- readTracingValue Overhead frame ;; ret (VTracing v)
  | ReadServiceStr => v <- readServiceStr Overhead frame ;; ret (VStr v)
  | ReadCallerNameStr => v <- readCallerNameStr Overhead frame ;; ret (VStr v)
  | ReadRoutingDelegateStr =>
      v <- readRoutingDelegateStr Overhead frame ;; ret (VStr v)
  | ReadArg1Str =>
      v <- readArg1Str Overhead ChecksumNone offsetWidth frame ;; ret (VStr v)
  end.

(** The sentinel an accessor returns for a field it could not read: 0 from
    [readTTL], [null] from the others. *)
Definition unavailable (v : value) : Prop :=
  v = VNum 0 \/ v = VTracing None \/ v = VStr None.

(** A reader that leaves the cache alone: its result does not depend on
    the state it starts in, and it only adds to the count of reads. *)
Definition pure {A} (m : M A) : Prop :=
  forall s, m s = match m fresh with
                  | Throw => Throw
                  | Done a s' => Done a (mkSt (cache s) (reads s' + reads s))
                  end.

Lemma pure_ret {A} (a : A) : pure (ret a).
Proof. intros [c n]. reflexivity. Qed.

Lemma pure_bufferRead {A} (r : option A) : pure (bufferRead r).
Proof. intros [c n]. destruct r; reflexivity. Qed.

Lemma pure_bind {A B} (m : M A) (k : A -> M B) :
  pure m -> (forall a, pure (k a)) -> pure (bind m k).
Proof.
  intros Hm Hk s. unfold bind. rewrite (Hm s).
  destruct (m fresh) as [|a s1]; [done|].
  rewrite (Hk a (mkSt _ _)), (Hk a s1).
  destruct (k a fresh) as [|b s2]; [done|]. cbn [cache reads].
  f_equal. f_equal. lia.
Qed.

Lemma pure_if {A} (b : bool) (m1 m2 : M A) :
  pure m1 -> pure m2 -> pure (if b then m1 else m2).
Proof. by destruct b. Qed.

Lemma pure_readUInt8 f o : pure (readUInt8 f o).
Proof. apply pure_bufferRead. Qed.
Lemma pure_readUInt16BE f o : pure (readUInt16BE f o).
Proof. apply pure_bufferRead. Qed.
Lemma pure_fastBufferToString f a b : pure (fastBufferToString f a b).
Proof. apply pure_bufferRead. Qed.

Lemma pure_readUInt8String f o : pure (readUInt8String f o).
Proof.
  unfold readUInt8String.
  repeat first [ apply pure_if | apply pure_ret | apply pure_bind; [|intros ?]
               | apply pure_readUInt8 | apply pure_fastBufferToString ].
Qed.

Lemma pure_scanLoop f n : forall o cn rd, pure (scanLoop f n o cn rd).
Proof.
  induction n as [|n IH]; intros o cn rd; cbn [scanLoop].
  - apply pure_ret.
  - apply pure_if; [apply pure_ret|].
    apply pure_bind; [apply pure_readUInt8|intros keyLength].
    apply pure_if; [apply pure_ret|].
    apply pure_bind.
    { apply pure_if; [|apply pure_ret].
      apply pure_bind; [apply pure_readUInt16BE|intros ?; apply pure_ret]. }
    intros [keyValue cn'].
    apply pure_bind.
    { apply pure_if; [|apply pure_ret].
      apply pure_bind; [|intros ?; apply pure_ret].
      destruct (truthy keyValue); [apply pure_ret|apply pure_readUInt16BE]. }
    intros rd'.
    apply pure_if; [apply pure_ret|].
    apply pure_bind; [apply pure_readUInt8|intros valueLength].
    apply pure_if; [apply pure_ret|]. apply IH.
Qed.

(** Running a pure reader a second time, in whatever state, gives the
    same value. *)
Lemma pure_again {A} (m : M A) s a s1 s' :
  pure m -> m s = Done a s1 ->
  exists s2, m s' = Done a s2 /\ cache s2 = cache s'.
Proof.
  intros Hm H. rewrite (Hm s) in H. rewrite (Hm s').
  destruct (m fresh) as [|a' s0]; [done|]. injection H as -> _.
  eexists. split; [reflexivity|done].
Qed.

Lemma pure_cache {A} (m : M A) s a s1 :
  pure m -> m s = Done a s1 -> cache s1 = cache s.
Proof.
  intros Hm H. rewrite (Hm s) in H.
  destruct (m fresh) as [|a' s0]; [done|]. by injection H as _ <-.
Qed.

(** Case analysis on the innermost scrutinee of a hypothesis or of the
    goal, for stepping through a reader. *)
Ltac case_in H :=
  match type of H with
  | context [match ?x with _ => _ end] =>
    lazymatch x with
    | context [match _ with _ => _ end] => fail
    | _ => destruct x eqn:?
    end
  end.

Ltac case_goal :=
  match goal with
  | |- context [match ?x with _ => _ end] =>
    lazymatch x with
    | context [match _ with _ => _ end] => fail
    | _ => destruct x eqn:?
    end
  end.

Ltac unfold_readers :=
  unfold readTTL, readTracingValue, readServiceStr, readCallerNameStr,
    readRoutingDelegateStr, readArg1Str, fail, scanAndSkipHeaders,
    findHeaderStartOffset, readUInt8String,
    readUInt8, readUInt16BE, readUInt32BE,
    fastBufferToString, bufferRead, asserted, bind, ret, getCache,
    modifyCache in *.

Ltac simpl_state :=
  cbn [cache reads ttlValue tracingValue serviceStr callerNameStr
       routingDelegateStr arg1Str headerStartOffset csumStartOffset
       cnValueOffset rdValueOffset lastError
       set_ttlValue set_tracingValue set_serviceStr set_callerNameStr
       set_routingDelegateStr set_arg1Str set_headerStartOffset
       set_scanOffsets set_lastError negb andb truthy] in *.

(** Stating a use of the header loop from the fresh state. *)
Ltac purify_in H :=
  repeat match type of H with
         | context [scanLoop ?f ?n ?o ?cn ?rd ?s] =>
           lazymatch s with
           | fresh => fail
           | _ => rewrite (pure_scanLoop f n o cn rd s) in H
           end
         end.

Ltac purify_goal :=
  repeat match goal with
         | |- context [scanLoop ?f ?n ?o ?cn ?rd ?s] =>
           lazymatch s with
           | fresh => fail
           | _ => rewrite (pure_scanLoop f n o cn rd s)
           end
         end.

(** Replaying in the goal the choices recorded as equations. *)
Ltac replay :=
  simpl_state; cbn [truthy]; purify_goal;
  repeat (progress (repeat match goal with
                           | E : _ = _ |- _ => rewrite E
                           end);
          simpl_state; cbn [truthy]; purify_goal).

Ltac offsets :=
  unfold serviceOffset, tracingOffset, ttlOffset, flagsOffset in *.

(** The header loop only moves forward. *)
Lemma scanLoop_ge f n :
  forall o cn rd s o' cn' rd' s',
    scanLoop f n o cn rd s = Done (Some (o', cn', rd')) s' -> o <= o'.
Proof.
  induction n as [|n IH]; intros o cn rd s o' cn' rd' s' H.
  - cbn [scanLoop] in H. unfold ret in H. injection H as <- _ _ _. lia.
  - cbn [scanLoop] in H. unfold_readers.
    repeat (case_in H; simpl_state; try discriminate).
    all: apply IH in H.
    all: repeat match goal with
           | E : Buf.readUInt8 _ _ = Some _ |- _ =>
             apply Buf.readUInt8_range in E
           end; lia.
Qed.

(** What the recorded reads say about the offsets they were made at. *)
Ltac read_facts :=
  repeat match goal with
         | E : scanLoop _ _ ?o _ _ _ = Done (Some (?o', _, _)) _ |- _ =>
           lazymatch goal with
           | _ : o <= o' |- _ => fail
           | _ => pose proof (scanLoop_ge _ _ _ _ _ _ _ _ _ _ E)
           end
         | E : Buf.readUInt8 _ ?o = Some ?v |- _ =>
           lazymatch goal with
           | _ : 0 <= v < 256 |- _ => fail
           | _ => pose proof (proj1 (Buf.readUInt8_Some _ _ _ E));
                  pose proof (Buf.readUInt8_range _ _ _ E)
           end
         end.

(** Settling a test against 0 that the recorded facts decide. *)
Ltac nonzero :=
  match goal with
  | |- context [?x =? 0] =>
    let E := fresh "E" in
    assert (E : (x =? 0) = false) by (apply Z.eqb_neq; lia);
    rewrite E
  end.

Section Idempotent.

Variable Overhead : Z.
Variable ChecksumNone : Z.
Variable offsetWidth : Z -> option Z.

Lemma readTTL_twice f s v s1 :
  readTTL Overhead f s = Done v s1 -> readTTL Overhead f s1 = Done v s1.
Proof.
  destruct s as [c n]. unfold_readers. simpl_state. intros H.
  repeat (case_in H; simpl_state; try discriminate);
    injection H as <- <-; simpl_state;
    repeat match goal with E : _ = _ |- _ => rewrite E end; reflexivity.
Qed.

Lemma readTracingValue_twice f s v s1 :
  readTracingValue Overhead f s = Done v s1 ->
  readTracingValue Overhead f s1 = Done v s1.
Proof.
  destruct s as [c n]. unfold_readers. simpl_state. intros H.
  repeat (case_in H; simpl_state; try discriminate);
    injection H as <- <-; simpl_state;
    repeat match goal with E : _ = _ |- _ => rewrite E end; reflexivity.
Qed.

Lemma readServiceStr_twice f s v s1 :
  readServiceStr Overhead f s = Done v s1 ->
  readServiceStr Overhead f s1 = Done v s1.
Proof.
  destruct s as [c n]. unfold_readers. simpl_state. intros H.
  repeat (case_in H; simpl_state; try discriminate);
    injection H as <- <-; read_facts; replay; try reflexivity.
  all: exfalso; lia.
Qed.

Lemma readCallerNameStr_twice f s v s1 :
  readCallerNameStr Overhead f s = Done v s1 ->
  exists s2, readCallerNameStr Overhead f s1 = Done v s2
             /\ cache s2 = cache s1 /\ (v <> None -> s2 = s1).
Proof.
  destruct s as [c n]. unfold_readers. simpl_state. intros H.
  repeat (purify_in H; case_in H; simpl_state; try discriminate);
    injection H as <- <-; replay;
    try (eexists; split; [reflexivity|split; [reflexivity|]];
         first [done | intros _; f_equal; lia]).
Qed.

Lemma readRoutingDelegateStr_twice f s v s1 :
  readRoutingDelegateStr Overhead f s = Done v s1 ->
  exists s2, readRoutingDelegateStr Overhead f s1 = Done v s2
             /\ cache s2 = cache s1 /\ (v <> None -> s2 = s1).
Proof.
  destruct s as [c n]. unfold_readers. simpl_state. intros H.
  repeat (purify_in H; case_in H; simpl_state; try discriminate);
    injection H as <- <-; replay;
    try (eexists; split; [reflexivity|split; [reflexivity|]];
         first [done | intros _; f_equal; lia]).
Qed.

Lemma readArg1Str_twice f s v s1 :
  readArg1Str Overhead ChecksumNone offsetWidth f s = Done v s1 ->
  exists s2, readArg1Str Overhead ChecksumNone offsetWidth f s1 = Done v s2
             /\ cache s2 = cache s1 /\ (v <> None -> s2 = s1).
Proof.
  destruct s as [c n]. unfold_readers. simpl_state. intros H.
  repeat (purify_in H; case_in H; simpl_state; try discriminate);
    injection H as <- <-; read_facts; replay; repeat (nonzero; replay);
    try (eexists; split; [reflexivity|split; [reflexivity|]];
         first [done | intros _; f_equal; lia]).
Qed.

End Idempotent.

End LazyProofs.

Module LazySafety.

Import Lazy LazyProofs.

(* --------------------------------------------------------------------- *)
(** ** Reads stay inside the frame                                        *)
(* --------------------------------------------------------------------- *)

(** A frame is well formed when its declared size does not exceed the
    buffer it arrived in. *)
Definition wf (f : Frame) : Prop := size f <= Z.of_nat (length (buffer f)).

Lemma readUInt8_None buf o :
  Buf.readUInt8 buf o = None -> 0 <= o -> o + 1 <= Z.of_nat (length buf) ->
  False.
Proof.
  intros E H1 H2. destruct (Buf.readUInt8_in_range buf o) as [v Hv]; [lia|].
  congruence.
Qed.

Lemma readUInt16BE_None buf o :
  Buf.readUInt16BE buf o = None -> 0 <= o -> o + 2 <= Z.of_nat (length buf) ->
  False.
Proof.
  unfold Buf.readUInt16BE. intros E H1 H2.
  destruct (Buf.readUInt8_in_range buf o) as [v0 Hv0]; [lia|].
  destruct (Buf.readUInt8_in_range buf (o + 1)) as [v1 Hv1]; [lia|].
  by rewrite Hv0, Hv1 in E.
Qed.

Lemma readUInt32BE_None buf o :
  Buf.readUInt32BE buf o = None -> 0 <= o -> o + 4 <= Z.of_nat (length buf) ->
  False.
Proof.
  unfold Buf.readUInt32BE. intros E H1 H2.
  destruct (Buf.readUInt8_in_range buf o) as [v0 Hv0]; [lia|].
  destruct (Buf.readUInt8_in_range buf (o + 1)) as [v1 Hv1]; [lia|].
  destruct (Buf.readUInt8_in_range buf (o + 2)) as [v2 Hv2]; [lia|].
  destruct (Buf.readUInt8_in_range buf (o + 3)) as [v3 Hv3]; [lia|].
  by rewrite Hv0, Hv1, Hv2, Hv3 in E.
Qed.

Lemma readUInt16BE_range buf o v :
  Buf.readUInt16BE buf o = Some v -> 0 <= v < 65536.
Proof.
  unfold Buf.readUInt16BE.
  destruct (Buf.readUInt8 buf o) as [a|] eqn:Ea; [|done].
  destruct (Buf.readUInt8 buf (o + 1)) as [b|] eqn:Eb; [|done].
  intros [= <-]. apply Buf.readUInt8_range in Ea, Eb. lia.
Qed.

(** Turning the recorded outcomes of the size tests into inequalities. *)
Ltac tests :=
  repeat match goal with
         | E : (_ <? _) = true |- _ => apply Z.ltb_lt in E
         | E : (_ <? _) = false |- _ => apply Z.ltb_ge in E
         | E : (_ =? _) = true |- _ => apply Z.eqb_eq in E
         | E : (_ =? _) = false |- _ => apply Z.eqb_neq in E
         | E : _ && _ = true |- _ => apply andb_true_iff in E; destruct E
         end.

(** A read that the tests before it keep inside the frame cannot throw. *)
Ltac in_frame :=
  exfalso; unfold wf in *; tests; read_facts;
  match goal with
  | E : Buf.readUInt8 _ _ = None |- _ =>
    apply readUInt8_None in E; [done|lia|lia]
  | E : Buf.readUInt16BE _ _ = None |- _ =>
    apply readUInt16BE_None in E; [done|lia|lia]
  | E : Buf.readUInt32BE _ _ = None |- _ =>
    apply readUInt32BE_None in E; [done|lia|lia]
  end.

Section Safety.

Variable Overhead : Z.
Variable ChecksumNone : Z.
Variable offsetWidth : Z -> option Z.
Hypothesis Overhead_nonneg : 0 <= Overhead.
Hypothesis offsetWidth_nonneg : forall t w, offsetWidth t = Some w -> 0 <= w.

Variable f : Frame.
Hypothesis f_wf : wf f.

Definition offset_in_frame (o : Z) : Prop := o = 0 \/ 0 < o < size f.

Lemma scanLoop_safe n :
  forall o cn rd s,
    0 <= o <= size f -> offset_in_frame cn -> offset_in_frame rd ->
    exists r s',
      scanLoop f n o cn rd s = Done r s'
      /\ cache s' = cache s
      /\ forall o' cn' rd', r = Some (o', cn', rd') ->
           o <= o' <= size f /\ offset_in_frame cn' /\ offset_in_frame rd'.
Proof.
  unfold offset_in_frame.
  induction n as [|n IH]; intros o cn rd s Ho Hcn Hrd.
  - cbn [scanLoop]. unfold ret. eexists _, _. split; [reflexivity|].
    split; [done|]. intros o' cn' rd' [= <- <- <-]. lia.
  - cbn [scanLoop]. unfold_readers.
    repeat (case_goal; simpl_state; try in_frame).
    all: try (eexists _, _; split; [reflexivity|]; split; [done|]; done).
    all: tests; read_facts.
    all: match goal with
         | |- context [scanLoop _ _ ?o' ?cn' ?rd' ?s'] =>
           destruct (IH o' cn' rd' s') as (r & s'' & -> & Hc & Hr);
             [lia|lia|lia|]
         end.
    all: eexists _, _; split; [reflexivity|]; split; [done|].
    all: intros o' cn' rd' ->; specialize (Hr _ _ _ eq_refl); lia.
Qed.

(** A string that is the decoding of a range of the frame's bytes, each
    ill-formed sequence replaced by U+FFFD. *)
Definition decoded (str : Utf8.jsstr) : Prop :=
  exists b e, str = Utf8.utf8ToString (Buf.slice (buffer f) b e).

(** The one way a lazy reader throws on a well-formed frame: the frame
    holds, where a scan of its headers ends, a checksum type other than
    [None] for which [Checksum.offsetWidth] fails. *)
Definition undefined_checksum : Prop :=
  exists o t,
    0 < o < size f
    /\ Buf.readUInt8 (buffer f) o = Some t
    /\ t <> ChecksumNone
    /\ offsetWidth t = None.

(** What holds of the offsets and strings in the cache of a well-formed
    frame. *)
Record Inv (c : OffsetCache) : Prop := mkInv {
  inv_header : forall o, headerStartOffset c = Some o ->
    exists b, Buf.readUInt8 (buffer f) (serviceOffset Overhead) = Some b
              /\ o = serviceOffset Overhead + (b + 1);
  inv_cn : forall o, cnValueOffset c = Some o -> offset_in_frame o;
  inv_rd : forall o, rdValueOffset c = Some o -> offset_in_frame o;
  inv_csum : forall o, csumStartOffset c = Some o -> 0 < o <= size f;
  inv_str : forall str,
    serviceStr c = Some str \/ callerNameStr c = Some str
    \/ routingDelegateStr c = Some str \/ arg1Str c = Some str ->
    decoded str
}.

Lemma Inv_empty : Inv emptyCache.
Proof. constructor; try done. by intros str [|[|[|]]]. Qed.

Lemma serviceOffset_nonneg : 0 <= serviceOffset Overhead.
Proof. offsets. lia. Qed.

Lemma truthy_Some o z : truthy o = Some z -> o = Some z /\ z <> 0.
Proof.
  destruct o as [y|]; [|done]. cbn [truthy].
  destruct (Z.eqb_spec y 0); [done|]. by intros [= <-].
Qed.

Lemma findHeaderStartOffset_safe s :
  Inv (cache s) ->
  exists o s',
    findHeaderStartOffset Overhead f s = Done o s'
    /\ Inv (cache s')
    /\ 0 <= o
    /\ cnValueOffset (cache s') = cnValueOffset (cache s)
    /\ rdValueOffset (cache s') = rdValueOffset (cache s)
    /\ csumStartOffset (cache s') = csumStartOffset (cache s)
    /\ lastError (cache s') = lastError (cache s).
Proof.
  pose proof serviceOffset_nonneg as Hso.
  destruct s as [c n]. intros Hinv. pose proof Hinv as [Hh Hcn Hrd Hcs Hst].
  simpl_state. unfold_readers. simpl_state.
  repeat (case_goal; simpl_state; try in_frame).
  - apply truthy_Some in Heqo as [E _].
    destruct (Hh _ E) as (b & Hb & ->). apply Buf.readUInt8_range in Hb.
    eexists _, _. split; [reflexivity|]. simpl_state.
    split_and!; try done. lia.
  - eexists _, _. split; [reflexivity|]. simpl_state. by split_and!.
  - eexists _, _. split; [reflexivity|]. simpl_state. read_facts.
    split_and!; try done; try lia.
    constructor; simpl_state; try done.
    intros o [= <-]. eauto.
Qed.

Lemma scanAndSkipHeaders_safe s :
  Inv (cache s) ->
  exists b s',
    scanAndSkipHeaders Overhead f s = Done b s'
    /\ Inv (cache s')
    /\ lastError (cache s') = lastError (cache s)
    /\ (b = true ->
        is_Some (cnValueOffset (cache s'))
        /\ is_Some (rdValueOffset (cache s'))
        /\ is_Some (csumStartOffset (cache s')))
    /\ (b = false ->
        cnValueOffset (cache s') = cnValueOffset (cache s)
        /\ rdValueOffset (cache s') = rdValueOffset (cache s)
        /\ csumStartOffset (cache s') = csumStartOffset (cache s)).
Proof.
  intros Hinv. unfold scanAndSkipHeaders, bind.
  destruct (findHeaderStartOffset_safe s Hinv)
    as (o & s1 & -> & Hinv1 & Ho & Hcn & Hrd & Hcs & Hle).
  destruct (Z.eqb_spec o 0).
  { unfold ret. eexists _, _. split; [reflexivity|]. by split_and!. }
  destruct (Z.ltb_spec (size f) (o + 1)).
  { unfold ret. eexists _, _. split; [reflexivity|]. by split_and!. }
  unfold readUInt8, bufferRead.
  destruct (Buf.readUInt8 (buffer f) o) as [nh|] eqn:Enh; [|in_frame].
  destruct (scanLoop_safe (Z.to_nat nh) (o + 1) 0 0
              (mkSt (cache s1) (S (reads s1))))
    as (r & s2 & -> & Hc & Hr); [lia|by left|by left|].
  destruct r as [[[o' cn'] rd']|].
  - destruct (Hr _ _ _ eq_refl) as (Ho' & Hcn' & Hrd').
    unfold modifyCache, ret. eexists _, _. split; [reflexivity|].
    simpl_state. rewrite Hc. simpl_state. destruct Hinv1 as [Hh1 _ _ _ Hst1].
    split_and!; try done; eauto.
    constructor; simpl_state; try done.
    + intros x [= <-]. done.
    + intros x [= <-]. done.
    + intros x [= <-]. lia.
  - unfold ret. eexists _, _. split; [reflexivity|].
    rewrite Hc. simpl_state. by split_and!.
Qed.

Ltac unfold_accessor :=
  unfold readTTL, readTracingValue, readServiceStr, readCallerNameStr,
    readRoutingDelegateStr, readArg1Str, fail, readUInt8String,
    readUInt8, readUInt16BE, readUInt32BE,
    fastBufferToString, bufferRead, asserted, bind, ret, getCache,
    modifyCache in *.

Ltac cached_offsets :=
  repeat match goal with
         | E : truthy _ = Some _ |- _ => apply truthy_Some in E as [E ?]
         end;
  repeat match goal with
         | H : forall o, ?g ?c = Some o -> _, E : ?g ?c = Some _ |- _ =>
           let F := fresh "F" in pose proof (H _ E) as F; clear H
         end;
  unfold offset_in_frame in *.

Lemma decoded_slice b e : decoded (Utf8.fastBufferToString (buffer f) b e).
Proof. by exists b, e. Qed.

Lemma readTTL_safe s :
  Inv (cache s) ->
  exists v s', readTTL Overhead f s = Done v s'
               /\ Inv (cache s')
               /\ lastError (cache s') = lastError (cache s).
Proof.
  destruct s as [c n]. intros Hinv. pose proof Hinv as [Hh Hcn Hrd Hcs Hst].
  simpl_state. unfold_accessor. simpl_state.
  repeat (case_goal; simpl_state; try (offsets; in_frame)).
  all: eexists _, _; split; [reflexivity|]; simpl_state.
  all: split; [|done]; try done.
  all: try by constructor.
Qed.

Lemma readTracingValue_safe s :
  Inv (cache s) ->
  exists v s', readTracingValue Overhead f s = Done v s'
               /\ Inv (cache s')
               /\ lastError (cache s') = lastError (cache s).
Proof.
  destruct s as [c n]. intros Hinv. pose proof Hinv as [Hh Hcn Hrd Hcs Hst].
  simpl_state. unfold_accessor. simpl_state.
  repeat (case_goal; simpl_state; try (offsets; in_frame)).
  all: eexists _, _; split; [reflexivity|]; simpl_state.
  all: split; [|done]; try done.
  all: try by constructor.
Qed.

Lemma readServiceStr_safe s :
  Inv (cache s) ->
  exists v s', readServiceStr Overhead f s = Done v s'
               /\ Inv (cache s')
               /\ lastError (cache s') = lastError (cache s)
               /\ forall str, v = Some str -> decoded str.
Proof.
  intros Hinv. pose proof Hinv as [Hh Hcn Hrd Hcs Hst].
  unfold readServiceStr, bind, getCache.
  destruct (serviceStr (cache s)) as [str|] eqn:Es.
  { unfold ret. eexists _, _. split; [reflexivity|]. split_and!; try done.
    intros ? [= <-]. apply Hst. by left. }
  destruct (findHeaderStartOffset_safe s Hinv)
    as (o & s1 & -> & Hinv1 & Ho & Hcn1 & Hrd1 & Hcs1 & Hle1).
  pose proof Hinv1 as [Hh1 Hcn1' Hrd1' Hcs1' Hst1].
  unfold_accessor.
  repeat (case_goal; simpl_state).
  all: eexists _, _; split; [reflexivity|]; simpl_state.
  all: split_and!; try done.
  - constructor; simpl_state; try done.
    intros str [[= <-]|H]; [apply decoded_slice|]. apply Hst1. by right.
  - intros str [= <-]. apply decoded_slice.
Qed.

Lemma readUInt8String_safe o s :
  0 < o < size f ->
  exists r s', readUInt8String f o s = Done r s'
               /\ cache s' = cache s
               /\ forall str, r = Some str -> decoded str.
Proof.
  intros Ho. unfold_accessor.
  repeat (case_goal; simpl_state; try in_frame).
  all: eexists _, _; split; [reflexivity|]; simpl_state.
  all: split; [done|]; try done.
  intros str [= <-]. apply decoded_slice.
Qed.

Lemma readCallerNameStr_safe s :
  Inv (cache s) ->
  exists v s', readCallerNameStr Overhead f s = Done v s'
               /\ Inv (cache s')
               /\ lastError (cache s') = lastError (cache s)
               /\ forall str, v = Some str -> decoded str.
Proof.
  intros Hinv. pose proof Hinv as [Hh Hcn Hrd Hcs Hst].
  unfold readCallerNameStr, bind, getCache.
  destruct (callerNameStr (cache s)) as [str|] eqn:Es.
  { unfold ret. eexists _, _. split; [reflexivity|]. split_and!; try done.
    intros ? [= <-]. apply Hst. by right; left. }
  assert (exists b s1,
    match cnValueOffset (cache s) with
    | Some _ => ret true
    | None => scanAndSkipHeaders Overhead f
    end s = Done b s1
    /\ Inv (cache s1) /\ lastError (cache s1) = lastError (cache s))
    as (b & s1 & -> & Hinv1 & Hle1).
  { destruct (cnValueOffset (cache s)).
    - unfold ret. by eexists _, _.
    - destruct (scanAndSkipHeaders_safe s Hinv)
        as (b & s1 & -> & Hinv1 & Hle1 & _). by eexists _, _. }
  pose proof Hinv1 as [Hh1 Hcn1 Hrd1 Hcs1 Hst1].
  destruct b; cbn [negb]; unfold ret;
    [|eexists _, _; split; [reflexivity|]; by split_and!].
  destruct (truthy (cnValueOffset (cache s1))) as [o|] eqn:Eo;
    [|eexists _, _; split; [reflexivity|]; by split_and!].
  apply truthy_Some in Eo as [Eo Hne].
  destruct (readUInt8String_safe o s1) as (r & s2 & -> & Hc & Hr).
  { destruct (Hcn1 _ Eo); [done|lia]. }
  destruct (falsyStr r) eqn:Ef.
  { eexists _, _; split; [reflexivity|]. rewrite Hc. by split_and!. }
  unfold modifyCache. eexists _, _; split; [reflexivity|]. simpl_state.
  rewrite Hc. split_and!; try done.
  constructor; simpl_state; try done.
  intros str [H|[H|H]]; [apply Hst1; by left|by apply Hr|].
  apply Hst1. by right; right.
Qed.

Lemma readRoutingDelegateStr_safe s :
  Inv (cache s) ->
  exists v s', readRoutingDelegateStr Overhead f s = Done v s'
               /\ Inv (cache s')
               /\ lastError (cache s') = lastError (cache s)
               /\ forall str, v = Some str -> decoded str.
Proof.
  intros Hinv. pose proof Hinv as [Hh Hcn Hrd Hcs Hst].
  unfold readRoutingDelegateStr, bind, getCache.
  destruct (routingDelegateStr (cache s)) as [str|] eqn:Es.
  { unfold ret. eexists _, _. split; [reflexivity|]. split_and!; try done.
    intros ? [= <-]. apply Hst. by right; right; left. }
  assert (exists b s1,
    match rdValueOffset (cache s) with
    | Some _ => ret true
    | None => scanAndSkipHeaders Overhead f
    end s = Done b s1
    /\ Inv (cache s1) /\ lastError (cache s1) = lastError (cache s))
    as (b & s1 & -> & Hinv1 & Hle1).
  { destruct (rdValueOffset (cache s)).
    - unfold ret. by eexists _, _.
    - destruct (scanAndSkipHeaders_safe s Hinv)
        as (b & s1 & -> & Hinv1 & Hle1 & _). by eexists _, _. }
  pose proof Hinv1 as [Hh1 Hcn1 Hrd1 Hcs1 Hst1].
  destruct b; cbn [negb]; unfold ret;
    [|eexists _, _; split; [reflexivity|]; by split_and!].
  destruct (truthy (rdValueOffset (cache s1))) as [o|] eqn:Eo;
    [|eexists _, _; split; [reflexivity|]; by split_and!].
  apply truthy_Some in Eo as [Eo Hne].
  destruct (readUInt8String_safe o s1) as (r & s2 & -> & Hc & Hr).
  { destruct (Hrd1 _ Eo); [done|lia]. }
  destruct (falsyStr r) eqn:Ef.
  { eexists _, _; split; [reflexivity|]. rewrite Hc. by split_and!. }
  unfold modifyCache. eexists _, _; split; [reflexivity|]. simpl_state.
  rewrite Hc. split_and!; try done.
  constructor; simpl_state; try done.
  intros str [H|[H|[H|H]]];
    [apply Hst1; by left|apply Hst1; by right; left|by apply Hr|].
  apply Hst1. by right; right; right.
Qed.

Lemma readArg1Str_safe s :
  Inv (cache s) ->
  match readArg1Str Overhead ChecksumNone offsetWidth f s with
  | Throw => undefined_checksum
  | Done v s' =>
    Inv (cache s')
    /\ (v = None -> is_Some (lastError (cache s')))
    /\ forall str, v = Some str -> decoded str
  end.
Proof.
  intros Hinv. pose proof Hinv as [Hh Hcn Hrd Hcs Hst].
  unfold readArg1Str, bind, getCache.
  destruct (arg1Str (cache s)) as [str|] eqn:Es.
  { unfold ret. split_and!; try done.
    intros ? [= <-]. apply Hst. by right; right; right. }
  assert (exists b s1,
    match truthy (csumStartOffset (cache s)) with
    | Some _ => ret true
    | None => scanAndSkipHeaders Overhead f
    end s = Done b s1
    /\ Inv (cache s1)
    /\ (b = true -> is_Some (csumStartOffset (cache s1))))
    as (b & s1 & -> & Hinv1 & Hb).
  { destruct (truthy (csumStartOffset (cache s))) as [o|] eqn:Eo.
    - apply truthy_Some in Eo as [Eo _]. unfold ret. eexists _, _.
      split; [reflexivity|]. by rewrite Eo.
    - destruct (scanAndSkipHeaders_safe s Hinv)
        as (b & s1 & -> & Hinv1 & _ & Ht & _). eexists _, _.
      split; [reflexivity|]. split; [done|]. intros ->. by apply Ht. }
  pose proof Hinv1 as [Hh1 Hcn1 Hrd1 Hcs1 Hst1].
  destruct b; cbn [negb].
  2:{ unfold fail, bind, modifyCache, ret. simpl_state.
      split_and!; [by constructor|by eauto|done]. }
  destruct (Hb eq_refl) as [o Eo]. rewrite Eo. cbn [default from_option id].
  pose proof (Hcs1 _ Eo) as Hrange.
  unfold_accessor. simpl_state.
  repeat (case_goal; simpl_state;
          try (repeat match goal with
                      | E : offsetWidth _ = Some ?w |- _ =>
                        lazymatch goal with
                        | _ : 0 <= w |- _ => fail
                        | _ => pose proof (offsetWidth_nonneg _ _ E)
                        end
                      end;
               in_frame)).
  all: try (split_and!; [by constructor|by eauto|done]).
  all: try (exists o; tests; eexists; split; [lia|]; by split_and!).
  all: split_and!; try done; try (intros str [= <-]; apply decoded_slice).
  all: constructor; simpl_state; try done.
  all: intros str [H|[H|[H|[= <-]]]];
    [apply Hst1; by left|apply Hst1; by right; left
    |apply Hst1; by right; right; left|apply decoded_slice].
Qed.

(** Every accessor returns, whatever the bytes of a well-formed frame are,
    and keeps the cache as [Inv] describes it, but for [readArg1Str] on a
    checksum type that is not defined. *)
Lemma call_safe a s :
  Inv (cache s) ->
  match call Overhead ChecksumNone offsetWidth a f s with
  | Throw => a = ReadArg1Str /\ undefined_checksum
  | Done v s' =>
    Inv (cache s')
    /\ (a <> ReadArg1Str -> lastError (cache s') = lastError (cache s))
    /\ (a = ReadArg1Str -> v = VStr None -> is_Some (lastError (cache s')))
    /\ (forall str, v = VStr (Some str) -> decoded str)
  end.
Proof.
  intros Hinv. destruct a; unfold call, bind, ret.
  - destruct (readTTL_safe s Hinv) as (v & s' & -> & Hi & Hl).
    by split_and!.
  - destruct (readTracingValue_safe s Hinv) as (v & s' & -> & Hi & Hl).
    by split_and!.
  - destruct (readServiceStr_safe s Hinv) as (v & s' & -> & Hi & Hl & Hd).
    split_and!; try done. intros str [= ->]. by apply Hd.
  - destruct (readCallerNameStr_safe s Hinv) as (v & s' & -> & Hi & Hl & Hd).
    split_and!; try done. intros str [= ->]. by apply Hd.
  - destruct (readRoutingDelegateStr_safe s Hinv)
      as (v & s' & -> & Hi & Hl & Hd).
    split_and!; try done. intros str [= ->]. by apply Hd.
  - pose proof (readArg1Str_safe s Hinv) as H.
    destruct (readArg1Str Overhead ChecksumNone offsetWidth f s)
      as [|v s']; [done|].
    destruct H as (Hi & Hl & Hd). split_and!; try done.
    + intros _ [= ->]. by apply Hl.
    + intros str [= ->]. by apply Hd.
Qed.

(** An accessor other than [readArg1Str] never throws. *)
Lemma call_returns a s :
  Inv (cache s) -> a <> ReadArg1Str ->
  exists v s', call Overhead ChecksumNone offsetWidth a f s = Done v s'.
Proof.
  intros Hinv Ha. pose proof (call_safe a s Hinv) as H.
  destruct (call Overhead ChecksumNone offsetWidth a f s) as [|v s'].
  - by destruct H.
  - by eexists _, _.
Qed.

Lemma readHeaders_safe s :
  Inv (cache s) ->
  exists v s', readHeaders Overhead f s = Done v s'
               /\ Inv (cache s')
               /\ lastError (cache s') = lastError (cache s).
Proof.
  destruct s as [c n]. intros Hinv. pose proof Hinv as [Hh Hcn Hrd Hcs Hst].
  unfold readHeaders, sizerwReadFrom, bind, getCache, ret, modifyCache.
  cbn [Bufrw.readFrom Bufrw.UInt8]. simpl_state.
  repeat (case_goal; simpl_state).
  all: eexists _, _; split; [reflexivity|]; simpl_state.
  all: split; [|done]; try done.
  constructor; simpl_state; try done.
  intros o [= <-]. eexists. split; [done|]. lia.
Qed.

(** A call of one of the readers that go through the cache. *)
Inductive op : Type :=
| Access (a : accessor)
| Headers.

Definition run_op (o : op) : M unit :=
  match o with
  | Access a =>
      call Overhead ChecksumNone offsetWidth a f ;;; ret tt
  | Headers => readHeaders Overhead f ;;; ret tt
  end.

Fixpoint run_ops (os : list op) : M unit :=
  match os with
  | [] => ret tt
  | o :: os' => run_op o ;;; run_ops os'
  end.

Lemma run_ops_safe os :
  forall s, Inv (cache s) ->
            match run_ops os s with
            | Throw => undefined_checksum
            | Done _ s' => Inv (cache s')
            end.
Proof.
  induction os as [|o os IH]; intros s Hinv; cbn [run_ops].
  - by unfold ret.
  - unfold bind at 1.
    assert (match run_op o s with
            | Throw => undefined_checksum
            | Done _ s1 => Inv (cache s1)
            end) as H1.
    { destruct o as [a|]; unfold run_op, bind, ret.
      - pose proof (call_safe a s Hinv) as H.
        destruct (call Overhead ChecksumNone offsetWidth a f s) as [|v s1];
          by destruct H.
      - by destruct (readHeaders_safe s Hinv) as (v & s1 & -> & Hi & _). }
    destruct (run_op o s) as [|[] s1]; [done|]. by apply IH.
Qed.

End Safety.

(** What a call that returns leaves in the cache of any frame, also one
    that declares more bytes than its buffer holds: the size tests alone
    keep the offsets of the header scan inside the frame. *)
Section Partial.

Variable Overhead : Z.
Variable ChecksumNone : Z.
Variable offsetWidth : Z -> option Z.
Variable f : Frame.

Local Abbreviation Inv' := (Inv Overhead f).
Local Abbreviation decoded' := (decoded f).

Lemma scanLoop_bounds n :
  forall o cn rd s r s',
    scanLoop f n o cn rd s = Done r s' ->
    0 <= o <= size f -> offset_in_frame f cn -> offset_in_frame f rd ->
    cache s' = cache s
    /\ forall o' cn' rd', r = Some (o', cn', rd') ->
         o <= o' <= size f
         /\ offset_in_frame f cn' /\ offset_in_frame f rd'.
Proof.
  unfold offset_in_frame.
  induction n as [|n IH]; intros o cn rd s r s' H Ho Hcn Hrd.
  - cbn [scanLoop] in H. unfold ret in H. injection H as <- <-.
    split; [done|]. intros o' cn' rd' [= <- <- <-]. lia.
  - cbn [scanLoop] in H. unfold_readers.
    repeat (case_in H; simpl_state; try discriminate).
    all: try (injection H as <- <-; split; [done|]; done).
    all: tests; read_facts.
    all: apply IH in H; [|lia..].
    all: destruct H as [Hc Hr]; split; [by rewrite Hc|].
    all: intros o' cn' rd' ->; specialize (Hr _ _ _ eq_refl); lia.
Qed.

(** The facts a finished case analysis of a reader leaves to be put
    together. *)
Ltac scan_bounds :=
  repeat match goal with
         | E : scanLoop f _ _ 0 0 _ = Done _ _ |- _ =>
           apply scanLoop_bounds in E;
             [destruct E as [? E]; try (specialize (E _ _ _ eq_refl))
             |tests; read_facts; lia
             |by left|by left]
         end.

Lemma call_keeps a s v s' :
  call Overhead ChecksumNone offsetWidth a f s = Done v s' ->
  Inv' (cache s) ->
  Inv' (cache s') /\ forall str, v = VStr (Some str) -> decoded' str.
Proof.
  destruct s as [c n]. intros H Hinv. simpl_state.
  destruct a; unfold call in H; unfold_readers; simpl_state.
  all: repeat (purify_in H; case_in H; simpl_state; try discriminate).
  all: injection H as <- <-; simpl_state.
  all: scan_bounds.
  all: repeat match goal with
              | E : cache _ = _ |- _ => cbn [cache] in E; subst
              end.
  all: destruct Hinv as [Hh Hcn Hrd Hcs Hst].
  all: split; [constructor; simpl_state|]; try done.
  all: try (intros str Hstr; repeat destruct Hstr as [Hstr|Hstr];
            first [ injection Hstr as <-; apply decoded_slice
                  | apply Hst; tauto ]).
  all: try (intros str [= <-];
            first [ apply decoded_slice | apply Hst; tauto ]).
  all: try (intros o [= <-]; eauto; tests; read_facts;
            unfold offset_in_frame in *; lia).
Qed.

Lemma readHeaders_keeps s v s' :
  readHeaders Overhead f s = Done v s' -> Inv' (cache s) -> Inv' (cache s').
Proof.
  destruct s as [c n]. intros H Hinv.
  unfold readHeaders, sizerwReadFrom, bind, getCache, ret, modifyCache in H.
  cbn [Bufrw.readFrom Bufrw.UInt8] in H. simpl_state.
  repeat (case_in H; simpl_state; try discriminate).
  all: injection H as <- <-; simpl_state; try done.
  destruct Hinv as [Hh Hcn Hrd Hcs Hst].
  constructor; simpl_state; try done.
  intros o [= <-]. eexists. split; [done|]. lia.
Qed.

Lemma run_ops_keeps ops :
  forall s s',
    run_ops Overhead ChecksumNone offsetWidth f ops s = Done tt s' ->
    Inv' (cache s) -> Inv' (cache s').
Proof.
  induction ops as [|o ops IH]; intros s s' H Hinv; cbn [run_ops] in H.
  - unfold ret in H. by injection H as <-.
  - unfold bind at 1 in H.
    destruct (run_op Overhead ChecksumNone offsetWidth f o s)
      as [|[] s1] eqn:E; [done|].
    apply (IH s1 s' H).
    destruct o as [a|]; unfold run_op, bind, ret in E.
    + destruct (call Overhead ChecksumNone offsetWidth a f s)
        as [|v s2] eqn:Ec; [done|].
      injection E as <-. by apply (call_keeps a s v s2).
    + destruct (readHeaders Overhead f s) as [|v s2] eqn:Eh; [done|].
      injection E as <-. by apply (readHeaders_keeps s v s2).
Qed.

End Partial.

End LazySafety.

(* --------------------------------------------------------------------- *)
(** ** Truncated frames                                                   *)
(* --------------------------------------------------------------------- *)

Module LazyPrefix.

Import Lazy LazyProofs LazySafety.

(** [f1] is a prefix of [f2]: it declares no more bytes, and its bytes are
    the first bytes of [f2]. *)
Definition prefix_frame (f1 f2 : Frame) : Prop :=
  size f1 <= size f2
  /\ take (Z.to_nat (size f1)) (buffer f1)
     = take (Z.to_nat (size f1)) (buffer f2).

Lemma prefix_lookup f1 f2 (i : nat) :
  prefix_frame f1 f2 -> Z.of_nat i < size f1 ->
  buffer f2 !! i = buffer f1 !! i.
Proof.
  intros [_ Ht] Hi.
  rewrite <- (lookup_take_lt (buffer f2) (Z.to_nat (size f1)) i) by lia.
  rewrite <- (lookup_take_lt (buffer f1) (Z.to_nat (size f1)) i) by lia.
  by rewrite Ht.
Qed.

Lemma prefix_read8 f1 f2 o v :
  prefix_frame f1 f2 ->
  Buf.readUInt8 (buffer f1) o = Some v -> o + 1 <= size f1 ->
  Buf.readUInt8 (buffer f2) o = Some v.
Proof.
  intros Hp E Ho. unfold Buf.readUInt8 in *.
  destruct (0 <=? o) eqn:E0; [|done]. apply Z.leb_le in E0.
  rewrite (prefix_lookup f1 f2) by (done || lia). done.
Qed.

Lemma prefix_read16 f1 f2 o v :
  prefix_frame f1 f2 ->
  Buf.readUInt16BE (buffer f1) o = Some v -> o + 2 <= size f1 ->
  Buf.readUInt16BE (buffer f2) o = Some v.
Proof.
  intros Hp E Ho. unfold Buf.readUInt16BE in *.
  destruct (Buf.readUInt8 (buffer f1) o) as [a|] eqn:Ea; [|done].
  destruct (Buf.readUInt8 (buffer f1) (o + 1)) as [b|] eqn:Eb; [|done].
  rewrite (prefix_read8 f1 f2 _ _ Hp Ea) by lia.
  rewrite (prefix_read8 f1 f2 _ _ Hp Eb) by lia. done.
Qed.

Lemma prefix_read32 f1 f2 o v :
  prefix_frame f1 f2 ->
  Buf.readUInt32BE (buffer f1) o = Some v -> o + 4 <= size f1 ->
  Buf.readUInt32BE (buffer f2) o = Some v.
Proof.
  intros Hp E Ho. unfold Buf.readUInt32BE in *.
  destruct (Buf.readUInt8 (buffer f1) o) as [a|] eqn:Ea; [|done].
  destruct (Buf.readUInt8 (buffer f1) (o + 1)) as [b|] eqn:Eb; [|done].
  destruct (Buf.readUInt8 (buffer f1) (o + 2)) as [c|] eqn:Ec; [|done].
  destruct (Buf.readUInt8 (buffer f1) (o + 3)) as [d|] eqn:Ed; [|done].
  rewrite (prefix_read8 f1 f2 _ _ Hp Ea) by lia.
  rewrite (prefix_read8 f1 f2 _ _ Hp Eb) by lia.
  rewrite (prefix_read8 f1 f2 _ _ Hp Ec) by lia.
  rewrite (prefix_read8 f1 f2 _ _ Hp Ed) by lia. done.
Qed.

Lemma slice_take buf b e (n : nat) :
  e <= Z.of_nat n -> Buf.slice (take n buf) b e = Buf.slice buf b e.
Proof.
  intros He. unfold Buf.slice.
  set (s := Z.to_nat (Z.max 0 b)). set (k := Z.to_nat (e - Z.max 0 b)).
  destruct (decide (k = 0%nat)) as [->|Hk]; [done|].
  rewrite !take_drop_commute. rewrite take_take.
  replace ((s + k) `min` n)%nat with (s + k)%nat by lia. done.
Qed.

Lemma prefix_slice f1 f2 b e :
  prefix_frame f1 f2 -> e <= size f1 ->
  Buf.slice (buffer f2) b e = Buf.slice (buffer f1) b e.
Proof.
  intros [_ Ht] He.
  destruct (Z.le_gt_cases e 0) as [H0|H0].
  { unfold Buf.slice.
    replace (Z.to_nat (e - Z.max 0 b)) with 0%nat by lia. done. }
  rewrite <- (slice_take (buffer f2) b e (Z.to_nat (size f1))) by lia.
  rewrite <- (slice_take (buffer f1) b e (Z.to_nat (size f1))) by lia.
  by rewrite Ht.
Qed.

Lemma prefix_string f1 f2 b e :
  prefix_frame f1 f2 -> e <= size f1 ->
  Utf8.fastBufferToString (buffer f2) b e
  = Utf8.fastBufferToString (buffer f1) b e.
Proof.
  intros Hp He. unfold Utf8.fastBufferToString. by rewrite (prefix_slice f1 f2).
Qed.

(** Inequalities for the recorded outcomes of the size tests. *)
Ltac ineqs :=
  repeat match goal with
         | E : (?a <? ?b) = false |- _ =>
           lazymatch goal with
           | _ : b <= a |- _ => fail
           | _ => pose proof (proj1 (Z.ltb_ge a b) E)
           end
         | E : (?a <? ?b) = true |- _ =>
           lazymatch goal with
           | _ : a < b |- _ => fail
           | _ => pose proof (proj1 (Z.ltb_lt a b) E)
           end
         | E : (?a =? ?b) = true |- _ =>
           lazymatch goal with
           | _ : a <= b <= a |- _ => fail
           | _ => assert (a <= b <= a)
                    by (apply Z.eqb_eq in E; rewrite E; lia)
           end
         | E : (?a =? ?a') && (?b =? ?b') = true |- _ =>
           lazymatch goal with
           | _ : a <= a' <= a /\ b <= b' <= b |- _ => fail
           | _ => assert (a <= a' <= a /\ b <= b' <= b)
                    by (apply andb_true_iff in E; destruct E as [E1 E2];
                        apply Z.eqb_eq in E1, E2; rewrite E1, E2; lia)
           end
         end.

(** Carrying what was recorded of a run on [f1] over to its extension
    [f2]: the tests that passed still pass, and the reads made inside [f1]
    return the same. *)
Ltac transfer f1 f2 Hp :=
  ineqs; read_facts;
  repeat match goal with
         | E : (size f1 <? ?e) = false |- _ =>
           lazymatch goal with
           | _ : (size f2 <? e) = false |- _ => fail
           | _ => assert ((size f2 <? e) = false)
                    by (apply Z.ltb_ge; destruct Hp; lia)
           end
         | E : Buf.readUInt8 (buffer f1) ?o = Some ?v |- _ =>
           lazymatch goal with
           | _ : Buf.readUInt8 (buffer f2) o = Some v |- _ => fail
           | _ => assert (Buf.readUInt8 (buffer f2) o = Some v)
                    by (apply (prefix_read8 f1 f2 _ _ Hp E); lia)
           end
         | E : Buf.readUInt16BE (buffer f1) ?o = Some ?v |- _ =>
           lazymatch goal with
           | _ : Buf.readUInt16BE (buffer f2) o = Some v |- _ => fail
           | _ => assert (Buf.readUInt16BE (buffer f2) o = Some v)
                    by (apply (prefix_read16 f1 f2 _ _ Hp E); lia)
           end
         | E : Buf.readUInt32BE (buffer f1) ?o = Some ?v |- _ =>
           lazymatch goal with
           | _ : Buf.readUInt32BE (buffer f2) o = Some v |- _ => fail
           | _ => assert (Buf.readUInt32BE (buffer f2) o = Some v)
                    by (apply (prefix_read32 f1 f2 _ _ Hp E); lia)
           end
         end.

(** Replaying the recorded choices, the header loop left as it is. *)
Ltac replay0 :=
  simpl_state;
  repeat (progress (repeat match goal with
                           | E : _ = _ |- _ => rewrite E
                           end);
          simpl_state).

Section Prefix.

Variable Overhead : Z.
Variable ChecksumNone : Z.
Variable offsetWidth : Z -> option Z.

Variables f1 f2 : Frame.
Hypothesis Hp : prefix_frame f1 f2.

Lemma readTTL_prefix s v s1 :
  size f1 = size f2 \/ v <> 0 ->
  readTTL Overhead f1 s = Done v s1 -> readTTL Overhead f2 s = Done v s1.
Proof.
  destruct s as [c n]. unfold_readers. simpl_state. intros Hav H.
  repeat (case_in H; simpl_state; try discriminate);
    injection H as <- <-.
  all: destruct Hav as [Hsz|Hav]; [symmetry in Hsz|try done].
  all: transfer f1 f2 Hp; replay; try reflexivity.
Qed.

Lemma readTracingValue_prefix s v s1 :
  size f1 = size f2 \/ v <> None ->
  readTracingValue Overhead f1 s = Done v s1 ->
  readTracingValue Overhead f2 s = Done v s1.
Proof.
  destruct s as [c n]. unfold_readers. simpl_state. intros Hav H.
  repeat (case_in H; simpl_state; try discriminate);
    injection H as <- <-.
  all: destruct Hav as [Hsz|Hav]; [symmetry in Hsz|try done].
  all: transfer f1 f2 Hp; replay; try reflexivity.
Qed.

Lemma scanLoop_prefix n :
  forall o cn rd s r s1,
    size f1 = size f2 \/ r <> None ->
    scanLoop f1 n o cn rd s = Done r s1 ->
    scanLoop f2 n o cn rd s = Done r s1.
Proof.
  induction n as [|n IH]; intros o cn rd s r s1 Hav H; [done|].
  cbn [scanLoop] in *. destruct s as [c k]. unfold_readers. simpl_state.
  repeat (case_in H; simpl_state; try discriminate).
  all: try (apply (IH _ _ _ _ _ _ Hav) in H).
  all: try (injection H as <- <-).
  all: destruct Hav as [Hsz|Hav]; [symmetry in Hsz|try done].
  all: transfer f1 f2 Hp; replay0; try done.
Qed.

Ltac transfer_scan :=
  repeat match goal with
         | E : scanLoop f1 ?n ?o ?cn ?rd ?s = Done ?r ?s' |- _ =>
           lazymatch goal with
           | _ : scanLoop f2 n o cn rd s = _ |- _ => fail
           | _ => assert (scanLoop f2 n o cn rd s = Done r s')
                    by (apply scanLoop_prefix;
                        [first [left; lia | right; discriminate]|exact E])
           end
         end.

Ltac transfer_strings :=
  repeat match goal with
         | |- context [Utf8.fastBufferToString (buffer f2) ?b ?e] =>
           rewrite (prefix_string f1 f2 b e Hp) by lia
         end.

Lemma readServiceStr_prefix s v s1 :
  size f1 = size f2 \/ v <> None ->
  readServiceStr Overhead f1 s = Done v s1 ->
  readServiceStr Overhead f2 s = Done v s1.
Proof.
  destruct s as [c n]. unfold_readers. simpl_state. intros Hav H.
  repeat (case_in H; simpl_state; try discriminate);
    injection H as <- <-.
  all: destruct Hav as [Hsz|Hav]; [symmetry in Hsz|try done].
  all: transfer f1 f2 Hp; transfer_scan; replay0; transfer_strings;
    try reflexivity.
Qed.

Lemma readCallerNameStr_prefix s v s1 :
  size f1 = size f2 \/ v <> None ->
  readCallerNameStr Overhead f1 s = Done v s1 ->
  readCallerNameStr Overhead f2 s = Done v s1.
Proof.
  destruct s as [c n]. unfold_readers. simpl_state. intros Hav H.
  repeat (case_in H; simpl_state; try discriminate);
    injection H as <- <-.
  all: destruct Hav as [Hsz|Hav]; [symmetry in Hsz|try done].
  all: transfer f1 f2 Hp; transfer_scan; replay0; transfer_strings;
    replay0; try reflexivity.
Qed.

Lemma readRoutingDelegateStr_prefix s v s1 :
  size f1 = size f2 \/ v <> None ->
  readRoutingDelegateStr Overhead f1 s = Done v s1 ->
  readRoutingDelegateStr Overhead f2 s = Done v s1.
Proof.
  destruct s as [c n]. unfold_readers. simpl_state. intros Hav H.
  repeat (case_in H; simpl_state; try discriminate);
    injection H as <- <-.
  all: destruct Hav as [Hsz|Hav]; [symmetry in Hsz|try done].
  all: transfer f1 f2 Hp; transfer_scan; replay0; transfer_strings;
    replay0; try reflexivity.
Qed.

Lemma readArg1Str_prefix s v s1 :
  size f1 = size f2 \/ v <> None ->
  readArg1Str Overhead ChecksumNone offsetWidth f1 s = Done v s1 ->
  readArg1Str Overhead ChecksumNone offsetWidth f2 s = Done v s1.
Proof.
  destruct s as [c n]. unfold_readers. simpl_state. intros Hav H.
  repeat (case_in H; simpl_state; try discriminate);
    injection H as <- <-.
  all: destruct Hav as [Hsz|Hav]; [symmetry in Hsz|try done].
  all: transfer f1 f2 Hp; transfer_scan; replay0; transfer_strings;
    replay0; try reflexivity.
Qed.

Lemma call_prefix a s v s1 :
  size f1 = size f2 \/ ~ unavailable v ->
  call Overhead ChecksumNone offsetWidth a f1 s = Done v s1 ->
  call Overhead ChecksumNone offsetWidth a f2 s = Done v s1.
Proof.
  intros Hav. unfold unavailable in Hav.
  destruct a; unfold call, bind, ret.
  - destruct (readTTL _ f1 s) as [|x s'] eqn:E; [done|]. intros [= <- <-].
    rewrite (readTTL_prefix s x s'); [done| |done].
    destruct Hav as [|Hav]; [by left|right]. intros ->. apply Hav. by left.
  - destruct (readTracingValue _ f1 s) as [|x s'] eqn:E; [done|].
    intros [= <- <-].
    rewrite (readTracingValue_prefix s x s'); [done| |done].
    destruct Hav as [|Hav]; [by left|right]. intros ->. apply Hav.
    by right; left.
  - destruct (readServiceStr _ f1 s) as [|x s'] eqn:E; [done|].
    intros [= <- <-].
    rewrite (readServiceStr_prefix s x s'); [done| |done].
    destruct Hav as [|Hav]; [by left|right]. intros ->. apply Hav.
    by right; right.
  - destruct (readCallerNameStr _ f1 s) as [|x s'] eqn:E; [done|].
    intros [= <- <-].
    rewrite (readCallerNameStr_prefix s x s'); [done| |done].
    destruct Hav as [|Hav]; [by left|right]. intros ->. apply Hav.
    by right; right.
  - destruct (readRoutingDelegateStr _ f1 s) as [|x s'] eqn:E; [done|].
    intros [= <- <-].
    rewrite (readRoutingDelegateStr_prefix s x s'); [done| |done].
    destruct Hav as [|Hav]; [by left|right]. intros ->. apply Hav.
    by right; right.
  - destruct (readArg1Str _ _ _ f1 s) as [|x s'] eqn:E; [done|].
    intros [= <- <-].
    rewrite (readArg1Str_prefix s x s'); [done| |done].
    destruct Hav as [|Hav]; [by left|right]. intros ->. apply Hav.
    by right; right.
Qed.

Hypothesis Overhead_nonneg : 0 <= Overhead.
Hypothesis offsetWidth_nonneg : forall t w, offsetWidth t = Some w -> 0 <= w.
Hypothesis f1_wf : wf f1.

(** On a well-formed frame with nothing cached, [readArg1Str] throws
    only out of [Checksum.offsetWidth], and then it throws on every frame
    that extends it. *)
Lemma readArg1Str_prefix_throws :
  readArg1Str Overhead ChecksumNone offsetWidth f1 fresh = Throw ->
  readArg1Str Overhead ChecksumNone offsetWidth f2 fresh = Throw.
Proof.
  unfold fresh, emptyCache. unfold_readers. simpl_state. intros H.
  repeat (case_in H; simpl_state; try discriminate).
  all: cbn [default from_option id] in *.
  all: repeat match goal with
              | E : offsetWidth _ = Some _ |- _ =>
                apply offsetWidth_nonneg in E
              end.
  all: try (offsets; in_frame).
  all: try match goal with
           | E : scanLoop f1 ?n ?o ?cn ?rd ?s = Throw |- _ =>
             exfalso;
             destruct (scanLoop_safe f1 f1_wf n o cn rd s)
               as (? & ? & E' & _);
             [offsets; tests; read_facts; lia|by left|by left|congruence]
           end.
  all: transfer f1 f2 Hp; transfer_scan; replay0;
    cbn [default from_option id]; replay0; reflexivity.
Qed.

(** No accessor but [readArg1Str] throws on a well-formed frame. *)
Lemma call_prefix_throws a :
  call Overhead ChecksumNone offsetWidth a f1 fresh = Throw ->
  call Overhead ChecksumNone offsetWidth a f2 fresh = Throw.
Proof.
  intros H.
  pose proof (call_safe Overhead ChecksumNone offsetWidth Overhead_nonneg
                offsetWidth_nonneg f1 f1_wf a fresh (Inv_empty Overhead f1))
    as Hs.
  rewrite H in Hs. destruct Hs as [-> _]. revert H. unfold call, bind.
  destruct (readArg1Str _ _ _ f1 fresh) eqn:E; [|done].
  by rewrite (readArg1Str_prefix_throws E).
Qed.

End Prefix.

(** A header scan that fails leaves the three offsets it computes as they
    were. *)
Lemma scan_failure_commits_nothing Overhead f s s' :
  scanAndSkipHeaders Overhead f s = Done false s' ->
  cnValueOffset (cache s') = cnValueOffset (cache s)
  /\ rdValueOffset (cache s') = rdValueOffset (cache s)
  /\ csumStartOffset (cache s') = csumStartOffset (cache s).
Proof.
  destruct s as [c n]. unfold_readers. simpl_state. intros H.
  repeat (purify_in H; case_in H; simpl_state; try discriminate);
    by injection H as <-.
Qed.

End LazyPrefix.

(* --------------------------------------------------------------------- *)
(** ** The lazy readers against the specification                         *)
(* --------------------------------------------------------------------- *)

Module LazyClaims.

Import Lazy LazyProofs LazySafety LazyPrefix.

(** Whether a returned value is one the accessor keeps: [readTTL],
    [readTracingValue] and [readServiceStr] never read again, the other
    three keep only a string they returned. *)
Definition settles (a : accessor) (v : value) : Prop :=
  match a with
  | ReadTTL | ReadTracingValue | ReadServiceStr => True
  | ReadCallerNameStr | ReadRoutingDelegateStr | ReadArg1Str =>
    v <> VStr None
  end.

(** C7, as the code has it.  Whatever state the cache is in, a second
    call of the same lazy accessor on the same frame returns the value the
    first one returned and leaves the cache as the first one left it.  It
    reads nothing from the buffer when the accessor is [readTTL],
    [readTracingValue] or [readServiceStr], and for [readCallerNameStr],
    [readRoutingDelegateStr] and [readArg1Str] when the first call
    returned a string. *)
Theorem repeated_call_returns_the_same
    (Overhead ChecksumNone : Z) (offsetWidth : Z -> option Z)
    (a : accessor) (f : Frame) (s : St) (v : value) (s1 : St) :
  call Overhead ChecksumNone offsetWidth a f s = Done v s1 ->
  exists s2,
    call Overhead ChecksumNone offsetWidth a f s1 = Done v s2
    /\ cache s2 = cache s1
    /\ (settles a v -> reads s2 = reads s1).
Proof.
  destruct a; unfold call, bind, ret, settles.
  - destruct (readTTL _ f s) as [|x s'] eqn:E; [done|]. intros [= <- <-].
    rewrite (readTTL_twice _ _ _ _ _ E). by eexists.
  - destruct (readTracingValue _ f s) as [|x s'] eqn:E; [done|].
    intros [= <- <-]. rewrite (readTracingValue_twice _ _ _ _ _ E).
    by eexists.
  - destruct (readServiceStr _ f s) as [|x s'] eqn:E; [done|].
    intros [= <- <-]. rewrite (readServiceStr_twice _ _ _ _ _ E).
    by eexists.
  - destruct (readCallerNameStr _ f s) as [|x s'] eqn:E; [done|].
    intros [= <- <-].
    destruct (readCallerNameStr_twice _ _ _ _ _ E) as (s2 & -> & Hc & Hs).
    eexists. split; [done|]. split; [done|]. intros Hx.
    rewrite Hs; [done|]. by intros ->.
  - destruct (readRoutingDelegateStr _ f s) as [|x s'] eqn:E; [done|].
    intros [= <- <-].
    destruct (readRoutingDelegateStr_twice _ _ _ _ _ E)
      as (s2 & -> & Hc & Hs).
    eexists. split; [done|]. split; [done|]. intros Hx.
    rewrite Hs; [done|]. by intros ->.
  - destruct (readArg1Str _ _ _ f s) as [|x s'] eqn:E; [done|].
    intros [= <- <-].
    destruct (readArg1Str_twice _ _ _ _ _ _ _ E) as (s2 & -> & Hc & Hs).
    eexists. split; [done|]. split; [done|]. intros Hx.
    rewrite Hs; [done|]. by intros ->.
Qed.

(** Witness for C7: [readCallerNameStr] twice on the frame of scenario
    S1. *)
Lemma repeated_call_returns_the_same_witness :
  exists s1 s2,
    call Scenario.Overhead Scenario.ChecksumNone Scenario.offsetWidthOf
      ReadCallerNameStr (Scenario.frameOf (Scenario.bodyBytes Scenario.minimal))
      fresh = Done (VStr (Some (str "caller"))) s1
    /\ call Scenario.Overhead Scenario.ChecksumNone Scenario.offsetWidthOf
         ReadCallerNameStr
         (Scenario.frameOf (Scenario.bodyBytes Scenario.minimal))
         s1 = Done (VStr (Some (str "caller"))) s2
    /\ reads s2 = reads s1.
Proof.
  eexists. 
  assert (H : call Scenario.Overhead Scenario.ChecksumNone
                 Scenario.offsetWidthOf ReadCallerNameStr
                 (Scenario.frameOf (Scenario.bodyBytes Scenario.minimal))
                 fresh = Done (VStr (Some (str "caller"))) _)
    by (vm_compute; reflexivity).
  destruct (repeated_call_returns_the_same _ _ _ _ _ _ _ _ H)
    as (s2 & H2 & _ & Hr).
  exists s2. split; [exact H|]. split; [exact H2|]. by apply Hr.
Defined.

(** Counterexample to C7 as stated: on a complete frame without
    arguments [readArg1Str] returns null twice, and the second call reads
    the checksum type from the buffer once more. *)
Lemma second_call_reads_the_buffer_again :
  exists s1 s2,
    call Scenario.Overhead Scenario.ChecksumNone Scenario.offsetWidthOf
      ReadArg1Str (Scenario.frameOf (Scenario.bodyBytes Scenario.noArgs))
      fresh = Done (VStr None) s1
    /\ call Scenario.Overhead Scenario.ChecksumNone Scenario.offsetWidthOf
         ReadArg1Str (Scenario.frameOf (Scenario.bodyBytes Scenario.noArgs))
         s1 = Done (VStr None) s2
    /\ reads s2 = S (reads s1).
Proof.
  eexists _, _. split; [vm_compute; reflexivity|].
  split; [vm_compute; reflexivity|]. reflexivity.
Qed.

Abbreviation example_call a f :=
  (call Scenario.Overhead Scenario.ChecksumNone Scenario.offsetWidthOf a f).

(** C4, as the code has it.  After any sequence of calls of the lazy
    readers on a frame, each of which returned, the cached
    [cnValueOffset] and [rdValueOffset], when not 0, point to a byte
    inside the frame, and [csumStartOffset] is at most the size of the
    frame.
    [headerStartOffset] is the service offset plus one plus the length
    byte of the service, stored without a look at the size of the
    frame. *)
Theorem cached_offsets_stay_in_frame
    (Overhead ChecksumNone : Z) (offsetWidth : Z -> option Z)
    (f : Frame) (ops : list op) (s' : St) :
  run_ops Overhead ChecksumNone offsetWidth f ops fresh = Done tt s' ->
  (forall o, cnValueOffset (cache s') = Some o -> o <> 0 -> 0 <= o < size f)
  /\ (forall o, rdValueOffset (cache s') = Some o -> o <> 0 ->
        0 <= o < size f)
  /\ (forall o, csumStartOffset (cache s') = Some o -> 0 <= o <= size f)
  /\ (forall o, headerStartOffset (cache s') = Some o ->
        exists b,
          Buf.readUInt8 (buffer f) (serviceOffset Overhead) = Some b
          /\ o = serviceOffset Overhead + 1 + b).
Proof.
  intros Hrun.
  destruct (run_ops_keeps Overhead ChecksumNone offsetWidth f ops fresh s'
              Hrun (Inv_empty Overhead f)) as [Hh Hcn Hrd Hcs _].
  split_and!.
  - intros o Ho Hne. destruct (Hcn o Ho); [done|lia].
  - intros o Ho Hne. destruct (Hrd o Ho); [done|lia].
  - intros o Ho. specialize (Hcs o Ho). lia.
  - intros o Ho. destruct (Hh o Ho) as (b & Hb & ->). exists b.
    split; [done|lia].
Qed.

(** Witness for C4: the frame of scenario S1, read by [readArg1Str] and
    then [readHeaders]. *)
Lemma cached_offsets_stay_in_frame_witness :
  exists s',
    run_ops Scenario.Overhead Scenario.ChecksumNone Scenario.offsetWidthOf
      (Scenario.frameOf (Scenario.bodyBytes Scenario.minimal))
      [Access ReadArg1Str; Headers] fresh = Done tt s'
    /\ csumStartOffset (cache s') = Some 61
    /\ 61 <= size (Scenario.frameOf (Scenario.bodyBytes Scenario.minimal)).
Proof.
  eexists.
  eassert (Hs : run_ops Scenario.Overhead Scenario.ChecksumNone
                  Scenario.offsetWidthOf
                  (Scenario.frameOf (Scenario.bodyBytes Scenario.minimal))
                  [Access ReadArg1Str; Headers] fresh = Done tt _)
    by (vm_compute; reflexivity).
  split; [exact Hs|]. split; [reflexivity|].
  exact (proj2 (proj1 (proj2 (proj2
    (cached_offsets_stay_in_frame
       Scenario.Overhead Scenario.ChecksumNone Scenario.offsetWidthOf
       (Scenario.frameOf (Scenario.bodyBytes Scenario.minimal))
       [Access ReadArg1Str; Headers] _ Hs)))
    61 eq_refl)).
Defined.

(** Counterexample to C4 as stated: on the frame of scenario S1 cut after
    the length byte of its service, which makes it 47 bytes long,
    [readServiceStr] leaves 50 in [headerStartOffset]. *)
Lemma header_offset_beyond_the_frame :
  wf Scenario.cutInService
  /\ size Scenario.cutInService = 47
  /\ exists s',
       example_call ReadServiceStr Scenario.cutInService fresh
       = Done (VStr None) s'
       /\ headerStartOffset (cache s') = Some 50.
Proof.
  split; [unfold wf; vm_compute; discriminate|]. split; [reflexivity|].
  eexists. split; [vm_compute; reflexivity|]. reflexivity.
Qed.

(** The four lazy accessors that return a string. *)
Definition string_accessor (a : accessor) : Prop :=
  a = ReadServiceStr \/ a = ReadCallerNameStr
  \/ a = ReadRoutingDelegateStr \/ a = ReadArg1Str.




End LazyClaims.

(* ===================================================================== *)
(** * The lazy readers return the same in whatever order they are called  *)
(* ===================================================================== *)

Module LazyOrder.

Import Lazy LazyProofs LazySafety.

(** [m] returns [a] when nothing is cached. *)
Definition returns {A : Type} (m : M A) (a : A) : Prop :=
  exists s, m fresh = Done a s.

(** A cache that holds nothing but what the readers would compute from
    the frame with nothing cached: each value is the one its reader
    returns, and the three offsets of the header scan are those a scan
    leaves. *)
Record agrees (Overhead ChecksumNone : Z) (offsetWidth : Z -> option Z)
    (f : Frame) (c : OffsetCache) : Prop := {
  ag_ttl : forall v,
    ttlValue c = Some v -> returns (readTTL Overhead f) v;
  ag_tracing : forall v,
    tracingValue c = Some v -> returns (readTracingValue Overhead f) (Some v);
  ag_service : forall v,
    serviceStr c = Some v -> returns (readServiceStr Overhead f) (Some v);
  ag_cn : forall v,
    callerNameStr c = Some v ->
    returns (readCallerNameStr Overhead f) (Some v);
  ag_rd : forall v,
    routingDelegateStr c = Some v ->
    returns (readRoutingDelegateStr Overhead f) (Some v);
  ag_arg1 : forall v,
    arg1Str c = Some v ->
    returns (readArg1Str Overhead ChecksumNone offsetWidth f) (Some v);
  ag_scan :
    is_Some (cnValueOffset c) \/ is_Some (rdValueOffset c)
    \/ is_Some (csumStartOffset c) ->
    exists s0,
      scanAndSkipHeaders Overhead f fresh = Done true s0
      /\ cnValueOffset (cache s0) = cnValueOffset c
      /\ rdValueOffset (cache s0) = rdValueOffset c
      /\ csumStartOffset (cache s0) = csumStartOffset c
}.

(** Two caches with the same values and the same offsets of the header
    scan. *)
Definition same_but_header (c c' : OffsetCache) : Prop :=
  c' = set_headerStartOffset (headerStartOffset c') c.

Section Order.

Variable Overhead : Z.
Variable ChecksumNone : Z.
Variable offsetWidth : Z -> option Z.

Variable f : Frame.

Local Abbreviation agrees' := (agrees Overhead ChecksumNone offsetWidth f).
Local Abbreviation Inv' := (Inv Overhead f).

Lemma agrees_empty : agrees' emptyCache.
Proof.
  constructor; try done. cbn. intros [[? ?]|[[? ?]|[? ?]]]; done.
Qed.

Lemma agrees_header c c' :
  same_but_header c c' -> agrees' c -> agrees' c'.
Proof. intros -> [? ? ? ? ? ? ?]. by constructor. Qed.

(** With the offset of the headers cached or not, [findHeaderStartOffset]
    returns the same, unless the frame ends before the length of the
    service: then it returns 0 with nothing cached, and with the offset
    cached an offset beyond the frame. *)
Lemma findHeaderStartOffset_order s o s' :
  Inv' (cache s) ->
  findHeaderStartOffset Overhead f s = Done o s' ->
  same_but_header (cache s) (cache s')
  /\ exists o0 s0,
       findHeaderStartOffset Overhead f fresh = Done o0 s0
       /\ same_but_header emptyCache (cache s0)
       /\ (o0 = o \/ (o0 = 0 /\ size f < o)).
Proof.
  destruct s as [c n]. intros [Hh _ _ _ _]. simpl_state.
  unfold fresh, emptyCache. unfold_readers. simpl_state. intros H.
  repeat (case_in H; simpl_state; try discriminate);
    injection H as <- <-; simpl_state.
  - apply truthy_Some in Heqo0 as [E _].
    destruct (Hh _ E) as (b & Hb & ->). rewrite Hb.
    split; [by destruct c|].
    destruct (Z.ltb_spec (size f) (serviceOffset Overhead + 1)).
    + eexists _, _. split; [reflexivity|]. split; [done|].
      apply Buf.readUInt8_range in Hb. right. lia.
    + eexists _, _. split; [reflexivity|]. split; [done|]. by left.
  - split; [by destruct c|]. eexists _, _.
    split; [reflexivity|]. split; [done|]. by left.
  - split; [done|]. eexists _, _.
    split; [reflexivity|]. split; [done|]. by left.
Qed.

(** A header scan returns the same, and leaves the same three offsets
    when it succeeds, whatever was cached before it. *)
Lemma scanAndSkipHeaders_order s b s' :
  Inv' (cache s) -> agrees' (cache s) ->
  scanAndSkipHeaders Overhead f s = Done b s' ->
  agrees' (cache s')
  /\ exists s0,
       scanAndSkipHeaders Overhead f fresh = Done b s0
       /\ (b = true ->
           cnValueOffset (cache s0) = cnValueOffset (cache s')
           /\ rdValueOffset (cache s0) = rdValueOffset (cache s')
           /\ csumStartOffset (cache s0) = csumStartOffset (cache s'))
       /\ (b = false ->
           cnValueOffset (cache s') = cnValueOffset (cache s)
           /\ rdValueOffset (cache s') = rdValueOffset (cache s)
           /\ csumStartOffset (cache s') = csumStartOffset (cache s)).
Proof.
  intros Hinv Hag H.
  assert (Hsnd : exists s0,
    scanAndSkipHeaders Overhead f fresh = Done b s0
    /\ same_but_header (cache s)
         (if b then set_scanOffsets (cnValueOffset (cache s))
                      (rdValueOffset (cache s)) (csumStartOffset (cache s))
                      (cache s')
          else cache s')
    /\ (b = true ->
        is_Some (cnValueOffset (cache s'))
        /\ cnValueOffset (cache s0) = cnValueOffset (cache s')
        /\ rdValueOffset (cache s0) = rdValueOffset (cache s')
        /\ csumStartOffset (cache s0) = csumStartOffset (cache s'))).
  { revert H. unfold scanAndSkipHeaders, bind.
    destruct (findHeaderStartOffset Overhead f s) as [|o s1] eqn:E1; [done|].
    destruct (findHeaderStartOffset_order _ _ _ Hinv E1)
      as (Hsame & o0 & s0 & -> & Hsame0 & Ho).
    destruct Ho as [->|[-> Ho]]; cycle 1.
    { cbn [Z.eqb]. unfold ret.
      destruct (Z.eqb_spec o 0); [intros [= <- <-]; by eexists|].
      destruct (Z.ltb_spec (size f) (o + 1)); [|lia].
      intros [= <- <-]. by eexists. }
    destruct (o =? 0); [unfold ret; intros [= <- <-]; by eexists|].
    destruct (size f <? o + 1); [unfold ret; intros [= <- <-]; by eexists|].
    unfold readUInt8, bufferRead.
    destruct (Buf.readUInt8 (buffer f) o) as [nh|]; [|done].
    intros H. purify_in H. purify_goal.
    destruct (scanLoop f (Z.to_nat nh) (o + 1) 0 0 fresh) as [|r sx]; [done|].
    destruct r as [[[o' cn'] rd']|]; unfold modifyCache, ret in *;
      injection H as <- <-; simpl_state; eexists; (split; [reflexivity|]);
      simpl_state; [|done].
    split; [|intros _; split; [by eexists|done]].
    unfold same_but_header in *. destruct (cache s), (cache s1). cbn in *.
    injection Hsame. intros. by subst. }
  destruct Hsnd as (s0 & Hs0 & Hsame & Hb). split.
  - destruct b.
    + destruct (Hb eq_refl) as (Hsome & Hcn & Hrd & Hcs).
      destruct Hag as [? ? ? ? ? ? _]. unfold same_but_header in Hsame.
      assert (Hv : ttlValue (cache s') = ttlValue (cache s)
                   /\ tracingValue (cache s') = tracingValue (cache s)
                   /\ serviceStr (cache s') = serviceStr (cache s)
                   /\ callerNameStr (cache s') = callerNameStr (cache s)
                   /\ routingDelegateStr (cache s')
                      = routingDelegateStr (cache s)
                   /\ arg1Str (cache s') = arg1Str (cache s)).
      { destruct (cache s), (cache s'). cbn in Hsame. by injection Hsame. }
      destruct Hv as (E1 & E2 & E3 & E4 & E5 & E6).
      constructor; rewrite ?E1, ?E2, ?E3, ?E4, ?E5, ?E6; try done.
      intros _. by exists s0.
    + by apply (agrees_header _ _ Hsame).
  - exists s0. split; [done|]. split.
    + intros ->. by destruct (Hb eq_refl) as (_ & ? & ? & ?).
    + intros ->. unfold same_but_header in Hsame.
      destruct (cache s), (cache s'). cbn in Hsame.
      injection Hsame. intros. by subst.
Qed.

Lemma bind_getCache_fresh {A} (k : OffsetCache -> M A) :
  bind getCache k fresh = k emptyCache fresh.
Proof. reflexivity. Qed.

Lemma agrees_ttl v c :
  agrees' c -> returns (readTTL Overhead f) v ->
  agrees' (set_ttlValue (Some v) c).
Proof.
  intros [? ? ? ? ? ? ?] Hr. constructor; simpl_state; try done.
  by intros ? [= <-].
Qed.

Lemma agrees_tracing v c :
  agrees' c -> returns (readTracingValue Overhead f) (Some v) ->
  agrees' (set_tracingValue (Some v) c).
Proof.
  intros [? ? ? ? ? ? ?] Hr. constructor; simpl_state; try done.
  by intros ? [= <-].
Qed.

Lemma agrees_service v c :
  agrees' c -> returns (readServiceStr Overhead f) (Some v) ->
  agrees' (set_serviceStr (Some v) c).
Proof.
  intros [? ? ? ? ? ? ?] Hr. constructor; simpl_state; try done.
  by intros ? [= <-].
Qed.

Lemma agrees_cn v c :
  agrees' c -> returns (readCallerNameStr Overhead f) (Some v) ->
  agrees' (set_callerNameStr (Some v) c).
Proof.
  intros [? ? ? ? ? ? ?] Hr. constructor; simpl_state; try done.
  by intros ? [= <-].
Qed.

Lemma agrees_rd v c :
  agrees' c -> returns (readRoutingDelegateStr Overhead f) (Some v) ->
  agrees' (set_routingDelegateStr (Some v) c).
Proof.
  intros [? ? ? ? ? ? ?] Hr. constructor; simpl_state; try done.
  by intros ? [= <-].
Qed.

Lemma agrees_arg1 v c :
  agrees' c ->
  returns (readArg1Str Overhead ChecksumNone offsetWidth f) (Some v) ->
  agrees' (set_arg1Str (Some v) c).
Proof.
  intros [? ? ? ? ? ? ?] Hr. constructor; simpl_state; try done.
  by intros ? [= <-].
Qed.

Lemma agrees_lastError msg c : agrees' c -> agrees' (set_lastError msg c).
Proof. intros [? ? ? ? ? ? ?]. by constructor. Qed.

Lemma bind_getCache {A} (k : OffsetCache -> M A) s :
  bind getCache k s = k (cache s) s.
Proof. reflexivity. Qed.

Lemma bind_run {A B} (m : M A) (k : A -> M B) s :
  bind m k s = match m s with
               | Throw => Throw
               | Done a s' => k a s'
               end.
Proof. reflexivity. Qed.

Lemma readTTL_order s v s' :
  agrees' (cache s) ->
  readTTL Overhead f s = Done v s' ->
  returns (readTTL Overhead f) v /\ agrees' (cache s').
Proof.
  intros Hag H.
  assert (Hr : returns (readTTL Overhead f) v
               /\ (cache s' = cache s
                   \/ cache s' = set_ttlValue (Some v) (cache s))).
  { revert H. destruct (ttlValue (cache s)) as [v0|] eqn:E.
    { unfold readTTL. rewrite bind_getCache, E. intros [= <- <-].
      split; [by apply (ag_ttl _ _ _ _ _ Hag)|by left]. }
    unfold returns, readTTL. rewrite bind_getCache_fresh, bind_getCache, E.
    cbn [ttlValue emptyCache]. unfold_readers. simpl_state. intros H.
    repeat (case_in H; simpl_state; try discriminate);
      injection H as <- <-; simpl_state.
    - split; [by eexists|by left].
    - split; [by eexists|by right]. }
  destruct Hr as [Hr [->| ->]]; [done|]. split; [done|by apply agrees_ttl].
Qed.

Lemma readTracingValue_order s v s' :
  agrees' (cache s) ->
  readTracingValue Overhead f s = Done v s' ->
  returns (readTracingValue Overhead f) v /\ agrees' (cache s').
Proof.
  intros Hag H.
  assert (Hr : returns (readTracingValue Overhead f) v
               /\ (cache s' = cache s
                   \/ exists t,
                        v = Some t
                        /\ cache s' = set_tracingValue (Some t) (cache s))).
  { revert H. destruct (tracingValue (cache s)) as [v0|] eqn:E.
    { unfold readTracingValue. rewrite bind_getCache, E. intros [= <- <-].
      split; [by apply (ag_tracing _ _ _ _ _ Hag)|by left]. }
    unfold returns, readTracingValue.
    rewrite bind_getCache_fresh, bind_getCache, E.
    cbn [tracingValue emptyCache]. unfold_readers. simpl_state. intros H.
    repeat (case_in H; simpl_state; try discriminate);
      injection H as <- <-; simpl_state.
    - split; [by eexists|by left].
    - split; [by eexists|right; by eexists]. }
  destruct Hr as [Hr [->|(t & -> & ->)]]; [done|].
  split; [done|by apply agrees_tracing].
Qed.

Lemma readServiceStr_order s v s' :
  Inv' (cache s) -> agrees' (cache s) ->
  readServiceStr Overhead f s = Done v s' ->
  returns (readServiceStr Overhead f) v /\ agrees' (cache s').
Proof.
  intros Hinv Hag H.
  assert (Hr : returns (readServiceStr Overhead f) v
               /\ exists c1, agrees' c1
                  /\ (cache s' = c1
                      \/ exists t, v = Some t
                                   /\ cache s' = set_serviceStr (Some t) c1)).
  { revert H. destruct (serviceStr (cache s)) as [v0|] eqn:E.
    { unfold readServiceStr. rewrite bind_getCache, E. intros [= <- <-].
      split; [by apply (ag_service _ _ _ _ _ Hag)|].
      exists (cache s). split; [done|by left]. }
    unfold returns, readServiceStr.
    rewrite bind_getCache_fresh, bind_getCache, E.
    cbn [serviceStr emptyCache]. rewrite (bind_run _ _ s), (bind_run _ _ fresh).
    destruct (findHeaderStartOffset Overhead f s) as [|o s1] eqn:E1; [done|].
    destruct (findHeaderStartOffset_order _ _ _ Hinv E1)
      as (Hsame & o0 & s0 & -> & Hsame0 & Ho).
    pose proof (agrees_header _ _ Hsame Hag) as Hag1.
    destruct Ho as [->|[-> Ho]]; cycle 1.
    { cbn [Z.eqb]. unfold ret.
      destruct (Z.eqb_spec o 0).
      { intros [= <- <-]. split; [by eexists|]. exists (cache s1).
        split; [done|by left]. }
      destruct (Z.ltb_spec (size f) o); [|lia].
      intros [= <- <-]. split; [by eexists|]. exists (cache s1).
      split; [done|by left]. }
    unfold_readers. simpl_state. intros H.
    repeat (case_in H; simpl_state; try discriminate);
      injection H as <- <-; simpl_state.
    all: split; [by eexists|]; exists (cache s1); split; [done|].
    all: first [by left | right; by eexists]. }
  destruct Hr as (Hr & c1 & Hag1 & [->|(t & -> & ->)]); [done|].
  split; [done|by apply agrees_service].
Qed.

Lemma readCallerNameStr_order s v s' :
  Inv' (cache s) -> agrees' (cache s) ->
  readCallerNameStr Overhead f s = Done v s' ->
  returns (readCallerNameStr Overhead f) v /\ agrees' (cache s').
Proof.
  intros Hinv Hag H.
  assert (Hr : returns (readCallerNameStr Overhead f) v
               /\ exists c1, agrees' c1
                  /\ (cache s' = c1
                      \/ exists t, v = Some t
                                   /\ cache s' = set_callerNameStr (Some t) c1)).
  { revert H. destruct (callerNameStr (cache s)) as [v0|] eqn:E.
    { unfold readCallerNameStr. rewrite bind_getCache, E. intros [= <- <-].
      split; [by apply (ag_cn _ _ _ _ _ Hag)|].
      exists (cache s). split; [done|by left]. }
    unfold returns, readCallerNameStr.
    rewrite bind_getCache_fresh, bind_getCache, E.
    cbn [callerNameStr cnValueOffset emptyCache].
    rewrite (bind_run _ _ s), (bind_run _ _ fresh).
    assert (Hscan : forall b s1,
      match cnValueOffset (cache s) with
      | Some _ => ret true
      | None => scanAndSkipHeaders Overhead f
      end s = Done b s1 ->
      agrees' (cache s1)
      /\ exists s0,
           scanAndSkipHeaders Overhead f fresh = Done b s0
           /\ (b = true ->
               cnValueOffset (cache s0) = cnValueOffset (cache s1))).
    { intros b s1. destruct (cnValueOffset (cache s)) eqn:Eo.
      - intros [= <- <-]. split; [done|].
        destruct (ag_scan _ _ _ _ _ Hag) as (s0 & Hs0 & Hcn & Hrd & Hcs);
          [left; by eexists|].
        exists s0. split; [done|]. intros _. congruence.
      - intros Hs.
        destruct (scanAndSkipHeaders_order _ _ _ Hinv Hag Hs)
          as (Hag1 & s0 & Hs0 & Ht & _).
        split; [done|]. exists s0. split; [done|].
        intros ->. by destruct (Ht eq_refl) as (? & ? & ?). }
    match goal with
    | |- context [match ?m s with Throw => _ | Done _ _ => _ end] =>
      destruct (m s) as [|b s1] eqn:E1; [done|]
    end.
    destruct (Hscan _ _ eq_refl) as (Hag1 & s0 & -> & Ho).
    destruct b; cbn [negb]; cycle 1.
    { unfold ret. intros [= <- <-]. split; [by eexists|].
      exists (cache s1). split; [done|by left]. }
    rewrite !bind_getCache, (Ho eq_refl).
    destruct (truthy (cnValueOffset (cache s1))) as [o|].
    2:{ unfold ret. intros [= <- <-]. split; [by eexists|].
        exists (cache s1). split; [done|by left]. }
    rewrite (bind_run _ _ s1), (bind_run _ _ s0).
    destruct (readUInt8String f o s1) as [|r s2] eqn:E2; [done|].
    destruct (pure_again _ _ _ _ s0 (pure_readUInt8String f o) E2)
      as (s2' & -> & _).
    pose proof (pure_cache _ _ _ _ (pure_readUInt8String f o) E2) as Hc.
    destruct r as [[|ch str]|]; cbn [falsyStr]; unfold bind, modifyCache, ret;
      intros [= <- <-]; (split; [by eexists|]); exists (cache s1);
      (split; [done|]); simpl_state; rewrite ?Hc; [by left|right|by left].
    by eexists. }
  destruct Hr as (Hr & c1 & Hag1 & [->|(t & -> & ->)]); [done|].
  split; [done|by apply agrees_cn].
Qed.

Lemma readRoutingDelegateStr_order s v s' :
  Inv' (cache s) -> agrees' (cache s) ->
  readRoutingDelegateStr Overhead f s = Done v s' ->
  returns (readRoutingDelegateStr Overhead f) v /\ agrees' (cache s').
Proof.
  intros Hinv Hag H.
  assert (Hr : returns (readRoutingDelegateStr Overhead f) v
               /\ exists c1, agrees' c1
                  /\ (cache s' = c1
                      \/ exists t, v = Some t
                                   /\ cache s' = set_routingDelegateStr (Some t) c1)).
  { revert H. destruct (routingDelegateStr (cache s)) as [v0|] eqn:E.
    { unfold readRoutingDelegateStr. rewrite bind_getCache, E. intros [= <- <-].
      split; [by apply (ag_rd _ _ _ _ _ Hag)|].
      exists (cache s). split; [done|by left]. }
    unfold returns, readRoutingDelegateStr.
    rewrite bind_getCache_fresh, bind_getCache, E.
    cbn [routingDelegateStr rdValueOffset emptyCache].
    rewrite (bind_run _ _ s), (bind_run _ _ fresh).
    assert (Hscan : forall b s1,
      match rdValueOffset (cache s) with
      | Some _ => ret true
      | None => scanAndSkipHeaders Overhead f
      end s = Done b s1 ->
      agrees' (cache s1)
      /\ exists s0,
           scanAndSkipHeaders Overhead f fresh = Done b s0
           /\ (b = true ->
               rdValueOffset (cache s0) = rdValueOffset (cache s1))).
    { intros b s1. destruct (rdValueOffset (cache s)) eqn:Eo.
      - intros [= <- <-]. split; [done|].
        destruct (ag_scan _ _ _ _ _ Hag) as (s0 & Hs0 & Hcn & Hrd & Hcs);
          [right; left; by eexists|].
        exists s0. split; [done|]. intros _. congruence.
      - intros Hs.
        destruct (scanAndSkipHeaders_order _ _ _ Hinv Hag Hs)
          as (Hag1 & s0 & Hs0 & Ht & _).
        split; [done|]. exists s0. split; [done|].
        intros ->. by destruct (Ht eq_refl) as (? & ? & ?). }
    match goal with
    | |- context [match ?m s with Throw => _ | Done _ _ => _ end] =>
      destruct (m s) as [|b s1] eqn:E1; [done|]
    end.
    destruct (Hscan _ _ eq_refl) as (Hag1 & s0 & -> & Ho).
    destruct b; cbn [negb]; cycle 1.
    { unfold ret. intros [= <- <-]. split; [by eexists|].
      exists (cache s1). split; [done|by left]. }
    rewrite !bind_getCache, (Ho eq_refl).
    destruct (truthy (rdValueOffset (cache s1))) as [o|].
    2:{ unfold ret. intros [= <- <-]. split; [by eexists|].
        exists (cache s1). split; [done|by left]. }
    rewrite (bind_run _ _ s1), (bind_run _ _ s0).
    destruct (readUInt8String f o s1) as [|r s2] eqn:E2; [done|].
    destruct (pure_again _ _ _ _ s0 (pure_readUInt8String f o) E2)
      as (s2' & -> & _).
    pose proof (pure_cache _ _ _ _ (pure_readUInt8String f o) E2) as Hc.
    destruct r as [[|ch str]|]; cbn [falsyStr]; unfold bind, modifyCache, ret;
      intros [= <- <-]; (split; [by eexists|]); exists (cache s1);
      (split; [done|]); simpl_state; rewrite ?Hc; [by left|right|by left].
    by eexists. }
  destruct Hr as (Hr & c1 & Hag1 & [->|(t & -> & ->)]); [done|].
  split; [done|by apply agrees_rd].
Qed.

Lemma readArg1Str_order s v s' :
  Inv' (cache s) -> agrees' (cache s) ->
  readArg1Str Overhead ChecksumNone offsetWidth f s = Done v s' ->
  returns (readArg1Str Overhead ChecksumNone offsetWidth f) v
  /\ agrees' (cache s').
Proof.
  intros Hinv Hag H.
  assert (Hr : returns (readArg1Str Overhead ChecksumNone offsetWidth f) v
               /\ exists c1, agrees' c1
                  /\ (cache s' = c1
                      \/ exists t, v = Some t
                                   /\ cache s' = set_arg1Str (Some t) c1)).
  { revert H. destruct (arg1Str (cache s)) as [v0|] eqn:E.
    { unfold readArg1Str. rewrite bind_getCache, E. intros [= <- <-].
      split; [by apply (ag_arg1 _ _ _ _ _ Hag)|].
      exists (cache s). split; [done|by left]. }
    unfold returns, readArg1Str.
    rewrite bind_getCache_fresh, bind_getCache, E.
    cbn [arg1Str csumStartOffset emptyCache truthy].
    rewrite (bind_run _ _ s), (bind_run _ _ fresh).
    assert (Hscan : forall b s1,
      match truthy (csumStartOffset (cache s)) with
      | Some _ => ret true
      | None => scanAndSkipHeaders Overhead f
      end s = Done b s1 ->
      agrees' (cache s1)
      /\ exists s0,
           scanAndSkipHeaders Overhead f fresh = Done b s0
           /\ (b = true ->
               csumStartOffset (cache s0) = csumStartOffset (cache s1))).
    { intros b s1. destruct (truthy (csumStartOffset (cache s))) eqn:Eo.
      - apply truthy_Some in Eo as [Eo _]. intros [= <- <-]. split; [done|].
        destruct (ag_scan _ _ _ _ _ Hag) as (s0 & Hs0 & Hcn & Hrd & Hcs);
          [right; right; by eexists|].
        exists s0. split; [done|]. intros _. congruence.
      - intros Hs.
        destruct (scanAndSkipHeaders_order _ _ _ Hinv Hag Hs)
          as (Hag1 & s0 & Hs0 & Ht & _).
        split; [done|]. exists s0. split; [done|].
        intros ->. by destruct (Ht eq_refl) as (? & ? & ?). }
    match goal with
    | |- context [match ?m s with Throw => _ | Done _ _ => _ end] =>
      destruct (m s) as [|b s1] eqn:E1; [done|]
    end.
    destruct (Hscan _ _ eq_refl) as (Hag1 & s0 & -> & Ho).
    destruct b; cbn [negb]; cycle 1.
    { unfold fail, bind, modifyCache, ret. intros [= <- <-].
      split; [by eexists|]. eexists. split; [|by left]. simpl_state.
      by apply agrees_lastError. }
    rewrite !bind_getCache, (Ho eq_refl).
    generalize (default 0 (csumStartOffset (cache s1))). intros o.
    unfold_readers. simpl_state. intros H.
    repeat (case_in H; simpl_state; try discriminate);
      injection H as <- <-; simpl_state.
    all: split; [by eexists|].
    all: first
      [ exists (cache s1); split; [exact Hag1|]; right; by eexists
      | eexists; split; [apply agrees_lastError, Hag1|]; by left ]. }
  destruct Hr as (Hr & c1 & Hag1 & [->|(t & -> & ->)]); [done|].
  split; [done|by apply agrees_arg1].
Qed.

Lemma readHeaders_order s v s' :
  agrees' (cache s) ->
  readHeaders Overhead f s = Done v s' -> agrees' (cache s').
Proof.
  destruct s as [c n]. intros Hag.
  unfold readHeaders, sizerwReadFrom, bind, getCache, ret, modifyCache.
  cbn [Bufrw.readFrom Bufrw.UInt8]. simpl_state. intros H.
  repeat (case_in H; simpl_state; try discriminate);
    injection H as <- <-; simpl_state; try done.
  by apply (agrees_header c).
Qed.

(** A call of an accessor returns what it returns when nothing is
    cached. *)
Lemma call_order a s v s' :
  Inv' (cache s) -> agrees' (cache s) ->
  call Overhead ChecksumNone offsetWidth a f s = Done v s' ->
  returns (call Overhead ChecksumNone offsetWidth a f) v
  /\ agrees' (cache s').
Proof.
  intros Hinv Hag. unfold returns.
  destruct a; unfold call; rewrite (bind_run _ _ s);
    match goal with
    | |- context [match ?m s with Throw => _ | Done _ _ => _ end] =>
      destruct (m s) as [|x s1] eqn:E; [done|]
    end;
    unfold ret; intros [= <- <-].
  - destruct (readTTL_order _ _ _ Hag E) as [[s0 Hs0] ?].
    split; [|done]. exists s0. by rewrite bind_run, Hs0.
  - destruct (readTracingValue_order _ _ _ Hag E) as [[s0 Hs0] ?].
    split; [|done]. exists s0. by rewrite bind_run, Hs0.
  - destruct (readServiceStr_order _ _ _ Hinv Hag E) as [[s0 Hs0] ?].
    split; [|done]. exists s0. by rewrite bind_run, Hs0.
  - destruct (readCallerNameStr_order _ _ _ Hinv Hag E) as [[s0 Hs0] ?].
    split; [|done]. exists s0. by rewrite bind_run, Hs0.
  - destruct (readRoutingDelegateStr_order _ _ _ Hinv Hag E)
      as [[s0 Hs0] ?].
    split; [|done]. exists s0. by rewrite bind_run, Hs0.
  - destruct (readArg1Str_order _ _ _ Hinv Hag E) as [[s0 Hs0] ?].
    split; [|done]. exists s0. by rewrite bind_run, Hs0.
Qed.

Lemma run_ops_order ops :
  forall s s',
    run_ops Overhead ChecksumNone offsetWidth f ops s = Done tt s' ->
    Inv' (cache s) -> agrees' (cache s) ->
    Inv' (cache s') /\ agrees' (cache s').
Proof.
  induction ops as [|o ops IH]; intros s s' H Hinv Hag; cbn [run_ops] in H.
  - unfold ret in H. by injection H as <-.
  - rewrite bind_run in H.
    destruct (run_op Overhead ChecksumNone offsetWidth f o s)
      as [|[] s1] eqn:E; [done|].
    assert (Inv' (cache s1) /\ agrees' (cache s1)) as [Hinv1 Hag1].
    { destruct o as [a|]; unfold run_op in E; rewrite bind_run in E.
      - destruct (call Overhead ChecksumNone offsetWidth a f s)
          as [|v s2] eqn:Ec; [done|].
        unfold ret in E. injection E as <-. split.
        + by destruct (call_keeps Overhead ChecksumNone offsetWidth f
                         a s v s2 Ec Hinv).
        + by destruct (call_order _ _ _ _ Hinv Hag Ec).
      - destruct (readHeaders Overhead f s) as [|v s2] eqn:Eh; [done|].
        unfold ret in E. injection E as <-. split.
        + by apply (readHeaders_keeps Overhead f s v s2).
        + by apply (readHeaders_order _ _ _ Hag Eh). }
    by apply (IH s1 s').
Qed.

End Order.

(** The lazy accessors return the same in whatever order they are
    called: what an accessor returns after any sequence of calls of the
    lazy accessors and of [readHeaders] on a frame is what it returns on
    that frame when nothing has been cached. *)
Theorem lazy_accessors_ignore_call_order
    (Overhead ChecksumNone : Z) (offsetWidth : Z -> option Z)
    (f : Frame) (ops : list op) (a : accessor) (s1 : St) (v : value)
    (s2 : St) :
  run_ops Overhead ChecksumNone offsetWidth f ops fresh = Done tt s1 ->
  call Overhead ChecksumNone offsetWidth a f s1 = Done v s2 ->
  exists s0, call Overhead ChecksumNone offsetWidth a f fresh = Done v s0.
Proof.
  intros Hrun Hc.
  destruct (run_ops_order Overhead ChecksumNone offsetWidth f ops fresh s1
              Hrun (Inv_empty Overhead f)
              (agrees_empty Overhead ChecksumNone offsetWidth f))
    as [Hinv Hag].
  by destruct (call_order Overhead ChecksumNone offsetWidth f _ _ _ _
                 Hinv Hag Hc) as [Hr _].
Qed.

(** On the frame of scenario S1, [readServiceStr] after [readArg1Str],
    [readHeaders] and [readCallerNameStr]. *)
Lemma lazy_accessors_ignore_call_order_witness :
  exists s0,
    call Scenario.Overhead Scenario.ChecksumNone Scenario.offsetWidthOf
      ReadServiceStr (Scenario.frameOf (Scenario.bodyBytes Scenario.minimal))
      fresh
    = Done (VStr (Some (str "svc"))) s0.
Proof.
  eassert (H1 : run_ops Scenario.Overhead Scenario.ChecksumNone
                  Scenario.offsetWidthOf
                  (Scenario.frameOf (Scenario.bodyBytes Scenario.minimal))
                  [Access ReadArg1Str; Headers; Access ReadCallerNameStr]
                  fresh
                = Done tt _) by (vm_compute; reflexivity).
  match type of H1 with
  | _ = Done tt ?s1 =>
    eassert (H2 : call Scenario.Overhead Scenario.ChecksumNone
                    Scenario.offsetWidthOf ReadServiceStr
                    (Scenario.frameOf (Scenario.bodyBytes Scenario.minimal))
                    s1
                  = Done (VStr (Some (str "svc"))) _)
      by (vm_compute; reflexivity)
  end.
  exact (lazy_accessors_ignore_call_order _ _ _ _ _ _ _ _ _ H1 H2).
Defined.

End LazyOrder.

(* ===================================================================== *)
(** * The lazy readers against the structured reader                      *)
(* ===================================================================== *)

Module Equiv.

Import Bufrw Lazy LazyProofs LazySafety.

(** What a successful primitive read says about the buffer. *)
Lemma UInt8_readFrom_inv buf o o' v :
  readFrom UInt8 buf o = RJust o' v ->
  Buf.readUInt8 buf o = Some v /\ o' = o + 1.
Proof.
  cbn [readFrom UInt8]. destruct (Buf.readUInt8 buf o); [|done].
  by intros [= <- <-].
Qed.

Lemma UInt16BE_readFrom_inv buf o o' v :
  readFrom UInt16BE buf o = RJust o' v ->
  Buf.readUInt16BE buf o = Some v /\ o' = o + 2.
Proof.
  cbn [readFrom UInt16BE]. destruct (Buf.readUInt16BE buf o); [|done].
  by intros [= <- <-].
Qed.

Lemma UInt32BE_readFrom_inv buf o o' v :
  readFrom UInt32BE buf o = RJust o' v ->
  Buf.readUInt32BE buf o = Some v /\ o' = o + 4.
Proof.
  cbn [readFrom UInt32BE]. destruct (Buf.readUInt32BE buf o); [|done].
  by intros [= <- <-].
Qed.

Lemma readBytes_inv n buf o o' bs :
  readBytes n buf o = RJust o' bs ->
  0 <= o /\ o + n <= Z.of_nat (length buf) /\ o' = o + n
  /\ bs = Buf.slice buf o (o + n).
Proof.
  unfold readBytes.
  destruct (Z.ltb_spec o 0); [done|].
  destruct (Z.ltb_spec (Z.of_nat (length buf) - o) n); [done|].
  cbn [orb]. intros [= <- <-]. split_and!; try done. lia.
Qed.

Lemma str1_readFrom_inv buf o o' s :
  readFrom str1 buf o = RJust o' s ->
  exists L, Buf.readUInt8 buf o = Some L
            /\ o' = o + 1 + L
            /\ o' <= Z.of_nat (length buf)
            /\ s = Utf8.fastBufferToString buf (o + 1) o'.
Proof.
  cbn [readFrom str1]. unfold varReadFrom, bindR.
  destruct (readFrom UInt8 buf o) as [|o1 L] eqn:E1; [done|].
  apply UInt8_readFrom_inv in E1 as [E1 ->].
  destruct (readBytes L buf (o + 1)) as [|o2 bs] eqn:E2; [done|].
  apply readBytes_inv in E2 as (H0 & H1 & -> & ->).
  intros [= <- <-]. exists L. split_and!; try done.
Qed.

Lemma arg2_readFrom_inv buf o o' a :
  readFrom arg2 buf o = RJust o' a ->
  exists L, Buf.readUInt16BE buf o = Some L
            /\ o' = o + 2 + L
            /\ o' <= Z.of_nat (length buf)
            /\ a = Buf.slice buf (o + 2) o'.
Proof.
  cbn [readFrom arg2]. unfold varReadFrom, bindR.
  destruct (readFrom UInt16BE buf o) as [|o1 L] eqn:E1; [done|].
  apply UInt16BE_readFrom_inv in E1 as [E1 ->].
  destruct (readBytes L buf (o + 2)) as [|o2 bs] eqn:E2; [done|].
  apply readBytes_inv in E2 as (H0 & H1 & -> & ->).
  intros [= <- <-]. exists L. split_and!; try done.
Qed.

(** The [TracingInfo] with the fields of a decoded tracing. *)
Definition infoOf (t : Tracing.t) : TracingInfo :=
  mkTracingInfo (Tracing.spanid t) (Tracing.parentid t) (Tracing.traceid t)
    (Tracing.flags t).

Lemma Tracing_readFrom_inv buf o o' t :
  Tracing.readFrom buf o = RJust o' t ->
  exists s1 s2 p1 p2 t1 t2 fl,
    Buf.readUInt32BE buf o = Some s1
    /\ Buf.readUInt32BE buf (o + 4) = Some s2
    /\ Buf.readUInt32BE buf (o + 4 + 4) = Some p1
    /\ Buf.readUInt32BE buf (o + 4 + 4 + 4) = Some p2
    /\ Buf.readUInt32BE buf (o + 4 + 4 + 4 + 4) = Some t1
    /\ Buf.readUInt32BE buf (o + 4 + 4 + 4 + 4 + 4) = Some t2
    /\ Buf.readUInt8 buf (o + 4 + 4 + 4 + 4 + 4 + 4) = Some fl
    /\ o' = o + 25
    /\ t = Tracing.mk (s1, s2) (p1, p2) (t1, t2) fl.
Proof.
  unfold Tracing.readFrom, bindR.
  repeat match goal with
         | |- context [readFrom UInt32BE buf ?x] =>
           let E := fresh "E" in
           destruct (readFrom UInt32BE buf x) as [|? ?] eqn:E; [done|];
           apply UInt32BE_readFrom_inv in E as [E ->]
         end.
  match goal with
  | |- context [readFrom UInt8 buf ?x] =>
    let E := fresh "E" in
    destruct (readFrom UInt8 buf x) as [|? ?] eqn:E; [done|];
    apply UInt8_readFrom_inv in E as [E ->]
  end.
  intros [= <- <-]. eexists _, _, _, _, _, _, _. split_and!; try done. lia.
Qed.

(** Settling the size tests that the known bounds decide. *)
Ltac passes :=
  repeat match goal with
         | |- context [size ?f <? ?x] =>
           replace (size f <? x) with false
             by (symmetry; apply Z.ltb_ge; lia)
         end.

(** Whether the key of [keyLength] bytes that starts after the length
    byte at [o] is the two bytes whose big-endian value is [K]. *)
Definition keyIs (f : Frame) (o keyLength K : Z) : bool :=
  (keyLength =? 2)
  && (default 0 (Buf.readUInt16BE (buffer f) (o + 1)) =? K).

(** One turn of the header loop over an entry that lies inside the
    frame. *)
Lemma scanLoop_step f n o cn rd st Lk Lv :
  0 <= o ->
  Buf.readUInt8 (buffer f) o = Some Lk ->
  Buf.readUInt8 (buffer f) (o + 1 + Lk) = Some Lv ->
  o + 1 + Lk + 1 + Lv <= size f ->
  exists k,
    scanLoop f (S n) o cn rd st
    = scanLoop f n (o + 1 + Lk + 1 + Lv)
        (if (cn =? 0) && keyIs f o Lk CN_VALUE then o + 1 + Lk else cn)
        (if (rd =? 0) && keyIs f o Lk RD_VALUE then o + 1 + Lk else rd)
        (mkSt (cache st) (k + reads st)).
Proof.
  intros Ho Ek Ev Hsz. destruct st as [c m].
  pose proof (Buf.readUInt8_range _ _ _ Ek).
  pose proof (Buf.readUInt8_range _ _ _ Ev).
  pose proof (Buf.readUInt8_Some _ _ _ Ev) as [? _].
  cbn [scanLoop]. unfold_readers. simpl_state. unfold keyIs.
  rewrite Ek. simpl_state.
  destruct (Z.ltb_spec (size f) (o + 1)); [exfalso; lia|].
  destruct (Z.ltb_spec (size f) (Lk + (o + 1))); [exfalso; lia|].
  destruct (Z.ltb_spec (size f) (o + 1 + Lk + 1)); [exfalso; lia|].
  destruct (Z.ltb_spec (size f) (Lv + (o + 1 + Lk + 1))); [exfalso; lia|].
  destruct (Z.eqb_spec Lk 2) as [->|HLk].
  - destruct (Buf.readUInt16BE (buffer f) (o + 1)) as [kv|] eqn:E16;
      [|exfalso; apply readUInt16BE_None in E16; [done|lia|lia]].
    cbn [default from_option id]. rewrite !andb_true_r.
    destruct (cn =? 0), (rd =? 0); simpl_state; rewrite ?E16; simpl_state;
      try (destruct (kv =? 0); simpl_state); rewrite ?E16, ?Ev;
      simpl_state; passes;
      first [by exists 2%nat | by exists 3%nat | by exists 4%nat].
  - rewrite !andb_false_r. simpl_state. rewrite Ev. simpl_state. passes.
    by exists 2%nat.
Qed.

Lemma slice_length buf a e :
  0 <= a -> a <= e -> e <= Z.of_nat (length buf) ->
  length (Buf.slice buf a e) = Z.to_nat (e - a).
Proof.
  intros Ha Hae He. unfold Buf.slice. rewrite Z.max_r by done.
  rewrite length_take, length_drop. lia.
Qed.

Lemma slice_two buf a :
  0 <= a -> a + 2 <= Z.of_nat (length buf) ->
  exists b0 b1,
    Buf.slice buf a (a + 2) = [b0; b1]
    /\ Buf.readUInt16BE buf a = Some (Buf.to_Z b0 * 256 + Buf.to_Z b1).
Proof.
  intros Ha He.
  destruct (lookup_lt_is_Some_2 buf (Z.to_nat a)) as [b0 E0]; [lia|].
  destruct (lookup_lt_is_Some_2 buf (S (Z.to_nat a))) as [b1 E1]; [lia|].
  exists b0, b1. split.
  - unfold Buf.slice. rewrite Z.max_r by done.
    replace (Z.to_nat (a + 2 - a)) with 2%nat by lia.
    rewrite (drop_S _ _ _ E0), (drop_S _ _ _ E1). done.
  - unfold Buf.readUInt16BE.
    rewrite (Buf.readUInt8_lookup buf a b0) by done.
    rewrite (Buf.readUInt8_lookup buf (a + 1) b1); [done|lia|].
    by replace (Z.to_nat (a + 1)) with (S (Z.to_nat a)) by lia.
Qed.

(** The raw comparison the scan makes agrees with comparing the decoded
    key against a string of two ASCII characters. *)
Lemma keyIs_spec f o Lk K c0 c1 :
  0 <= o -> o + 1 + Lk <= Z.of_nat (length (buffer f)) -> 0 <= Lk ->
  0 <= c0 < 128 -> 0 <= c1 < 128 -> K = c0 * 256 + c1 ->
  keyIs f o Lk K = true
  <-> Utf8.fastBufferToString (buffer f) (o + 1) (o + 1 + Lk) = [c0; c1].
Proof.
  intros Ho He HL H0 H1 ->. unfold keyIs, Utf8.fastBufferToString. split.
  - intros H. apply andb_true_iff in H as [HLk Hkv].
    apply Z.eqb_eq in HLk. subst Lk.
    destruct (slice_two (buffer f) (o + 1)) as (b0 & b1 & Es & E16);
      [lia|lia|].
    replace (o + 1 + 2) with (o + 1 + 2) in * by lia.
    rewrite E16 in Hkv. cbn [default from_option id] in Hkv.
    apply Z.eqb_eq in Hkv. rewrite Es.
    pose proof (Buf.to_Z_range b0). pose proof (Buf.to_Z_range b1).
    rewrite Utf8.utf8ToString_ascii; [cbn [map]|repeat constructor; lia].
    f_equal; [|f_equal]; lia.
  - intros H. apply Utf8.utf8ToString_ascii_inv in H;
      [|repeat constructor; lia].
    assert (Lk = 2) as ->.
    { pose proof (slice_length (buffer f) (o + 1) (o + 1 + Lk)) as Hl.
      rewrite H in Hl. cbn [map length] in Hl. lia. }
    destruct (slice_two (buffer f) (o + 1)) as (b0 & b1 & Es & E16);
      [lia|lia|].
    rewrite Es in H. cbn [map] in H. injection H as -> ->.
    rewrite E16. cbn [default from_option id].
    rewrite !Buf.to_of_Z by lia. rewrite !Z.eqb_refl. done.
Qed.

(** Where the scan leaves the offset of a well-known header: as it was if
    it was set, and else at the value of the first entry under [key], or
    at 0 if there is none. *)
Definition found (f : Frame) (key : Utf8.jsstr) (cn cn' : Z)
    (hs : Header.t) : Prop :=
  if cn =? 0 then
    match Header.first key hs with
    | None => cn' = 0
    | Some v =>
      cn' <> 0 /\ exists e, readFrom str1 (buffer f) cn' = RJust e v
    end
  else cn' = cn.

Lemma CN_VALUE_eq : CN_VALUE = 99 * 256 + 110.
Proof. reflexivity. Qed.

Lemma RD_VALUE_eq : RD_VALUE = 114 * 256 + 100.
Proof. reflexivity. Qed.

Lemma found_step f key K c0 c1 o Lk k v rest cn cn' e :
  key = [c0; c1] -> K = c0 * 256 + c1 ->
  0 <= c0 < 128 -> 0 <= c1 < 128 ->
  0 <= o -> o + 1 + Lk <= Z.of_nat (length (buffer f)) -> 0 <= Lk ->
  k = Utf8.fastBufferToString (buffer f) (o + 1) (o + 1 + Lk) ->
  readFrom str1 (buffer f) (o + 1 + Lk) = RJust e v ->
  found f key (if (cn =? 0) && keyIs f o Lk K then o + 1 + Lk else cn)
    cn' rest ->
  found f key cn cn' ((k, v) :: rest).
Proof.
  intros -> -> H0 H1 Ho He HL -> Hv. unfold found. cbn [Header.first].
  pose proof (keyIs_spec f o Lk (c0 * 256 + c1) c0 c1 Ho He HL H0 H1 eq_refl)
    as Hk.
  destruct (Z.eqb_spec cn 0) as [->|Hne]; cbn [andb].
  - destruct (keyIs f o Lk (c0 * 256 + c1)) eqn:Ek.
    + rewrite decide_True by (by apply Hk).
      destruct (Z.eqb_spec (o + 1 + Lk) 0); [lia|].
      intros ->. split; [lia|eauto].
    + rewrite decide_False; [done|].
      intros Heq. apply Hk in Heq. congruence.
  - destruct (Z.eqb_spec cn 0); [done|]. done.
Qed.

Lemma scanLoop_readPairs f n :
  size f = Z.of_nat (length (buffer f)) ->
  forall o hs o' cn rd st,
    0 <= o <= size f ->
    Header.readPairs n (buffer f) o = RJust o' hs ->
    exists cn' rd' st',
      scanLoop f n o cn rd st = Done (Some (o', cn', rd')) st'
      /\ cache st' = cache st
      /\ o <= o' <= size f
      /\ found f (str "cn") cn cn' hs
      /\ found f (str "rd") rd rd' hs.
Proof.
  intros Hsize. induction n as [|n IH]; intros o hs o' cn rd st Ho H.
  - cbn [Header.readPairs] in H. injection H as <- <-.
    cbn [scanLoop]. unfold ret. eexists _, _, _. split; [reflexivity|].
    split; [done|]. split; [lia|]. unfold found. cbn [Header.first].
    split; [by destruct (Z.eqb_spec cn 0)|by destruct (Z.eqb_spec rd 0)].
  - cbn [Header.readPairs] in H. unfold bindR in H.
    destruct (readFrom str1 (buffer f) o) as [|o1 k] eqn:Ek; [done|].
    destruct (readFrom str1 (buffer f) o1) as [|o2 v] eqn:Ev; [done|].
    destruct (Header.readPairs n (buffer f) o2) as [|o3 rest] eqn:Er;
      [done|].
    injection H as <- <-.
    pose proof Ek as Ek'. pose proof Ev as Ev'.
    apply str1_readFrom_inv in Ek' as (Lk & Hk & -> & Hk1 & ->).
    apply str1_readFrom_inv in Ev' as (Lv & Hv & -> & Hv1 & ->).
    pose proof (Buf.readUInt8_range _ _ _ Hk).
    pose proof (Buf.readUInt8_range _ _ _ Hv).
    destruct (scanLoop_step f n o cn rd st Lk Lv) as [m ->];
      [lia|done|done|lia|].
    edestruct (IH (o + 1 + Lk + 1 + Lv) rest o3) as
      (cn' & rd' & st' & -> & Hc & Ho3 & Hcn & Hrd); [lia|exact Er|].
    eexists _, _, _. split; [reflexivity|]. split; [done|].
    split; [lia|]. split.
    + eapply (found_step f (str "cn") CN_VALUE 99 110 o Lk);
        [reflexivity|reflexivity|lia|lia|lia|lia|lia|reflexivity
        |exact Ev|exact Hcn].
    + eapply (found_step f (str "rd") RD_VALUE 114 100 o Lk);
        [reflexivity|reflexivity|lia|lia|lia|lia|lia|reflexivity
        |exact Ev|exact Hrd].
Qed.

Lemma readUInt16BE_Some buf o v :
  Buf.readUInt16BE buf o = Some v ->
  0 <= o /\ o + 2 <= Z.of_nat (length buf).
Proof.
  unfold Buf.readUInt16BE.
  destruct (Buf.readUInt8 buf o) as [a|] eqn:Ea; [|done].
  destruct (Buf.readUInt8 buf (o + 1)) as [b|] eqn:Eb; [|done].
  apply Buf.readUInt8_Some in Ea as [? _], Eb as [? _]. lia.
Qed.

Lemma readUInt32BE_Some buf o v :
  Buf.readUInt32BE buf o = Some v ->
  0 <= o /\ o + 4 <= Z.of_nat (length buf).
Proof.
  unfold Buf.readUInt32BE.
  destruct (Buf.readUInt8 buf o) as [a|] eqn:Ea; [|done].
  destruct (Buf.readUInt8 buf (o + 1)) as [b|] eqn:Eb; [|done].
  destruct (Buf.readUInt8 buf (o + 2)) as [c|] eqn:Ec; [|done].
  destruct (Buf.readUInt8 buf (o + 3)) as [d|] eqn:Ed; [|done].
  apply Buf.readUInt8_Some in Ea as [? _], Ed as [? _]. lia.
Qed.

(** What the claim of equivalence gives for a header that may be there
    with an empty value: the accessors return null for it. *)
Definition nonEmpty (v : option Utf8.jsstr) : option Utf8.jsstr :=
  match v with
  | Some [] => None
  | _ => v
  end.

Lemma readUInt8String_str1 f o e v st :
  size f = Z.of_nat (length (buffer f)) ->
  readFrom str1 (buffer f) o = RJust e v ->
  readUInt8String f o st = Done (Some v) (mkSt (cache st) (2 + reads st)).
Proof.
  intros Hsize H. apply str1_readFrom_inv in H as (L & HL & -> & He & ->).
  pose proof (Buf.readUInt8_Some _ _ _ HL) as [? _].
  unfold_readers. passes. rewrite HL. simpl_state. passes. done.
Qed.

Section Structured.

Variable Overhead : Z.
Variable ChecksumNone : Z.
Variable offsetWidth : Z -> Z.
Variable known : Z -> bool.
Variable more : bool.
Variable noCsum : Checksum.t.

(** The frame is the whole buffer; the body starts after the frame
    header. *)
Variable buf : list byte.
Let f : Frame := mkFrame buf (Z.of_nat (length buf)).

Variable body : CallRequest.t.
Variable off : Z.
Hypothesis decoded_body :
  CallRequest.readCallReqFrom Tracing.RW Header.header1
    (Args.rw ChecksumNone offsetWidth known more) noCsum buf Overhead
  = RJust off body.

Lemma readCallReqFrom_inv :
  exists o3 o4 o5,
    Buf.readUInt8 buf Overhead = Some (CallRequest.flags body)
    /\ Buf.readUInt32BE buf (Overhead + 1) = Some (CallRequest.ttl body)
    /\ 0 < CallRequest.ttl body
    /\ Tracing.readFrom buf (Overhead + 1 + 4)
       = RJust (Overhead + 1 + 4 + 25) (CallRequest.tracing body)
    /\ readFrom str1 buf (Overhead + 1 + 4 + 25)
       = RJust o3 (CallRequest.service body)
    /\ readFrom Header.header1 buf o3 = RJust o4 (CallRequest.headers body)
    /\ Checksum.readFrom ChecksumNone offsetWidth known buf o4
       = RJust o5 (CallRequest.csum body)
    /\ Args.readArgs (length buf) buf o5 = RJust off (CallRequest.args body).
Proof.
  pose proof decoded_body as H. unfold CallRequest.readCallReqFrom in H.
  unfold bindR at 1 in H.
  destruct (readFrom UInt8 buf Overhead) as [|o1 fl] eqn:E1; [done|].
  apply UInt8_readFrom_inv in E1 as [E1 ->].
  unfold bindR at 1 in H.
  destruct (readFrom UInt32BE buf (Overhead + 1)) as [|o2 ttl] eqn:E2;
    [done|].
  apply UInt32BE_readFrom_inv in E2 as [E2 ->].
  destruct (Z.leb_spec ttl 0); [done|].
  unfold bindR at 1 in H. cbn [readFrom Tracing.RW] in H.
  destruct (Tracing.readFrom buf (Overhead + 1 + 4)) as [|o3 tr] eqn:E3;
    [done|].
  pose proof E3 as E3'.
  apply Tracing_readFrom_inv in E3'
    as (? & ? & ? & ? & ? & ? & ? & _ & _ & _ & _ & _ & _ & _ & -> & _).
  unfold bindR at 1 in H.
  destruct (readFrom str1 buf (Overhead + 1 + 4 + 25)) as [|o4 sv] eqn:E4;
    [done|].
  unfold bindR at 1 in H.
  destruct (readFrom Header.header1 buf o4) as [|o5 hs] eqn:E5; [done|].
  cbn [Args.readFrom Args.rw] in H. unfold bindR at 1 in H.
  destruct (Checksum.readFrom ChecksumNone offsetWidth known buf o5)
    as [|o6 cs] eqn:E6; [done|].
  unfold bindR at 1 in H.
  destruct (Args.readArgs (length buf) buf o6) as [|o7 ar] eqn:E7; [done|].
  injection H as <- <-. cbn.
  exists o4, o5, o6. by split_and!.
Qed.

Lemma Checksum_readFrom_inv o4 o5 cs :
  Checksum.readFrom ChecksumNone offsetWidth known buf o4 = RJust o5 cs ->
  exists t,
    Buf.readUInt8 buf o4 = Some t
    /\ known t = true
    /\ o5 = (if t =? ChecksumNone then o4 + 1
             else o4 + 1 + offsetWidth t).
Proof.
  unfold Checksum.readFrom, bindR.
  destruct (readFrom UInt8 buf o4) as [|o t] eqn:E; [done|].
  apply UInt8_readFrom_inv in E as [E ->].
  destruct (known t) eqn:Ek; [|done]. cbn [negb].
  destruct (t =? ChecksumNone) eqn:Et.
  - intros [= <- <-]. exists t. rewrite Et. by split_and!.
  - destruct (readBytes (offsetWidth t) buf (o4 + 1)) as [|o d] eqn:Ed;
      [done|].
    apply readBytes_inv in Ed as (_ & _ & -> & _).
    intros [= <- <-]. exists t. rewrite Et. by split_and!.
Qed.

Lemma readArgs_inv o5 o6 args :
  Args.readArgs (length buf) buf o5 = RJust o6 args ->
  match args with
  | [] => Z.of_nat (length buf) <= o5
  | a :: _ =>
    exists L, Buf.readUInt16BE buf o5 = Some L
              /\ o5 + 2 + L <= Z.of_nat (length buf)
              /\ a = Buf.slice buf (o5 + 2) (o5 + 2 + L)
  end.
Proof.
  destruct (length buf) as [|fuel] eqn:El; cbn [Args.readArgs];
    rewrite <- El.
  - destruct (Z.leb_spec (Z.of_nat (length buf)) o5); [|done].
    by intros [= <- <-].
  - destruct (Z.leb_spec (Z.of_nat (length buf)) o5).
    { by intros [= <- <-]. }
    unfold bindR.
    destruct (readFrom arg2 buf o5) as [|o a] eqn:Ea; [done|].
    apply arg2_readFrom_inv in Ea as (L & HL & -> & He & ->).
    destruct (Args.readArgs fuel buf (o5 + 2 + L)); [done|].
    intros [= <- <-]. eauto.
Qed.

(** Settling the size tests that fail for lack of bytes. *)
Ltac short :=
  repeat match goal with
         | |- context [size ?f <? ?x] =>
           replace (size f <? x) with true
             by (symmetry; apply Z.ltb_lt; cbn [size f]; lia)
         end.

Lemma readTTL_decoded :
  exists s', readTTL Overhead f fresh = Done (CallRequest.ttl body) s'.
Proof.
  destruct readCallReqFrom_inv as (o3 & o4 & o5 & _ & Httl & _).
  pose proof (readUInt32BE_Some _ _ _ Httl).
  unfold_readers. simpl_state. offsets. cbn [size buffer f].
  destruct (Z.ltb_spec (Z.of_nat (length buf)) (Overhead + 1 + 4));
    [exfalso; lia|].
  rewrite Httl. eauto.
Qed.

Lemma readTracingValue_decoded :
  exists s',
    readTracingValue Overhead f fresh
    = Done (Some (infoOf (CallRequest.tracing body))) s'.
Proof.
  destruct readCallReqFrom_inv as (o3 & o4 & o5 & _ & _ & _ & Htr & _).
  apply Tracing_readFrom_inv in Htr
    as (s1 & s2 & p1 & p2 & t1 & t2 & fl
        & E1 & E2 & E3 & E4 & E5 & E6 & E7 & _ & ->).
  pose proof (readUInt32BE_Some _ _ _ E1).
  pose proof (Buf.readUInt8_Some _ _ _ E7) as [? _].
  unfold_readers. simpl_state. offsets. cbn [size buffer f].
  destruct (Z.ltb_spec (Z.of_nat (length buf)) (Overhead + 1 + 4 + 25));
    [exfalso; lia|].
  rewrite E1, E2, E3, E4, E5, E6, E7. eauto.
Qed.

Lemma findHeaderStartOffset_decoded o3 st :
  readFrom str1 buf (Overhead + 1 + 4 + 25)
  = RJust o3 (CallRequest.service body) ->
  headerStartOffset (cache st) = None ->
  findHeaderStartOffset Overhead f st
  = Done o3 (mkSt (set_headerStartOffset (Some o3) (cache st))
               (S (reads st))).
Proof.
  intros H Hc. apply str1_readFrom_inv in H as (L & HL & -> & He & _).
  pose proof (Buf.readUInt8_Some _ _ _ HL) as [? _].
  unfold_readers. rewrite Hc. simpl_state. offsets. cbn [size buffer f].
  destruct (Z.ltb_spec (Z.of_nat (length buf)) (Overhead + 1 + 4 + 25 + 1));
    [exfalso; lia|].
  rewrite HL. simpl_state.
  replace (Overhead + 1 + 4 + 25 + (L + 1))
    with (Overhead + 1 + 4 + 25 + 1 + L) by lia.
  done.
Qed.

Lemma readServiceStr_decoded :
  exists s',
    readServiceStr Overhead f fresh
    = Done (Some (CallRequest.service body)) s'.
Proof.
  destruct readCallReqFrom_inv as (o3 & o4 & o5 & _ & _ & _ & _ & Hs & _).
  unfold readServiceStr, bind, getCache. cbn [cache fresh serviceStr].
  cbn [emptyCache serviceStr].
  rewrite (findHeaderStartOffset_decoded o3 fresh Hs eq_refl).
  apply str1_readFrom_inv in Hs as (L & HL & -> & He & ->).
  pose proof (Buf.readUInt8_Some _ _ _ HL) as [? _].
  pose proof (Buf.readUInt8_range _ _ _ HL).
  destruct (Z.eqb_spec (Overhead + 1 + 4 + 25 + 1 + L) 0); [exfalso; lia|].
  cbn [size f].
  destruct (Z.ltb_spec (Z.of_nat (length buf)) (Overhead + 1 + 4 + 25 + 1 + L));
    [exfalso; lia|].
  unfold_readers. offsets. simpl_state. cbn [buffer f]. eauto.
Qed.

Lemma scanAndSkipHeaders_decoded :
  exists cn rd o4 s',
    scanAndSkipHeaders Overhead f fresh = Done true s'
    /\ cnValueOffset (cache s') = Some cn
    /\ rdValueOffset (cache s') = Some rd
    /\ csumStartOffset (cache s') = Some o4
    /\ callerNameStr (cache s') = None
    /\ routingDelegateStr (cache s') = None
    /\ arg1Str (cache s') = None
    /\ found f (str "cn") 0 cn (CallRequest.headers body)
    /\ found f (str "rd") 0 rd (CallRequest.headers body)
    /\ exists o5,
         Checksum.readFrom ChecksumNone offsetWidth known buf o4
         = RJust o5 (CallRequest.csum body)
         /\ Args.readArgs (length buf) buf o5
            = RJust off (CallRequest.args body).
Proof.
  destruct readCallReqFrom_inv
    as (o3 & o4 & o5 & _ & _ & _ & _ & Hs & Hh & Hc & Ha).
  unfold scanAndSkipHeaders, bind.
  rewrite (findHeaderStartOffset_decoded o3 fresh Hs eq_refl).
  pose proof Hs as Hs'.
  apply str1_readFrom_inv in Hs' as (L & HL & -> & He & _).
  pose proof (Buf.readUInt8_Some _ _ _ HL) as [? _].
  pose proof (Buf.readUInt8_range _ _ _ HL).
  cbn [readFrom Header.header1] in Hh. unfold bindR in Hh.
  destruct (readFrom UInt8 buf (Overhead + 1 + 4 + 25 + 1 + L))
    as [|o nh] eqn:Enh; [done|].
  apply UInt8_readFrom_inv in Enh as [Enh ->].
  pose proof (Buf.readUInt8_Some _ _ _ Enh) as [? _].
  destruct (Z.eqb_spec (Overhead + 1 + 4 + 25 + 1 + L) 0); [exfalso; lia|].
  cbn [size f].
  destruct (Z.ltb_spec (Z.of_nat (length buf))
              (Overhead + 1 + 4 + 25 + 1 + L + 1)); [exfalso; lia|].
  unfold readUInt8, bufferRead. cbn [buffer f]. rewrite Enh.
  edestruct (scanLoop_readPairs f (Z.to_nat nh) eq_refl
               (Overhead + 1 + 4 + 25 + 1 + L + 1)
               (CallRequest.headers body) o4 0 0)
    as (cn & rd & st' & -> & Hcache & Ho4 & Hcn & Hrd);
    [cbn [size f]; lia|exact Hh|].
  unfold modifyCache, ret. exists cn, rd, o4. eexists.
  split; [reflexivity|]. simpl_state. rewrite Hcache. simpl_state.
  split_and!; try done. eauto.
Qed.

Lemma readCallerNameStr_decoded :
  exists s',
    readCallerNameStr Overhead f fresh
    = Done (nonEmpty (Header.first (str "cn") (CallRequest.headers body))) s'.
Proof.
  destruct scanAndSkipHeaders_decoded
    as (cn & rd & o4 & s1 & Hscan & Hcn & Hrd & Hcs & _ & _ & _ & Hf & _).
  unfold readCallerNameStr, bind, getCache.
  cbn [cache fresh emptyCache callerNameStr cnValueOffset].
  rewrite Hscan. cbn [negb]. rewrite Hcn. unfold found in Hf.
  cbn [Z.eqb] in Hf.
  destruct (Header.first (str "cn") (CallRequest.headers body)) as [v|].
  - destruct Hf as (Hne & e & Hv). cbn [truthy].
    destruct (Z.eqb_spec cn 0); [done|].
    rewrite (readUInt8String_str1 f cn e v s1 eq_refl Hv).
    destruct v as [|c v]; cbn [falsyStr nonEmpty]; unfold ret, modifyCache;
      eauto.
  - subst cn. cbn [truthy Z.eqb nonEmpty]. unfold ret. eauto.
Qed.

Lemma readRoutingDelegateStr_decoded :
  exists s',
    readRoutingDelegateStr Overhead f fresh
    = Done (nonEmpty (Header.first (str "rd") (CallRequest.headers body))) s'.
Proof.
  destruct scanAndSkipHeaders_decoded
    as (cn & rd & o4 & s1 & Hscan & Hcn & Hrd & Hcs & _ & _ & _ & _ & Hf & _).
  unfold readRoutingDelegateStr, bind, getCache.
  cbn [cache fresh emptyCache routingDelegateStr rdValueOffset].
  rewrite Hscan. cbn [negb]. rewrite Hrd. unfold found in Hf.
  cbn [Z.eqb] in Hf.
  destruct (Header.first (str "rd") (CallRequest.headers body)) as [v|].
  - destruct Hf as (Hne & e & Hv). cbn [truthy].
    destruct (Z.eqb_spec rd 0); [done|].
    rewrite (readUInt8String_str1 f rd e v s1 eq_refl Hv).
    destruct v as [|c v]; cbn [falsyStr nonEmpty]; unfold ret, modifyCache;
      eauto.
  - subst rd. cbn [truthy Z.eqb nonEmpty]. unfold ret. eauto.
Qed.

Lemma readArg1Str_decoded :
  exists s',
    readArg1Str Overhead ChecksumNone
      (Checksum.offsetWidthOf offsetWidth known) f fresh
    = Done (Utf8.utf8ToString <$> head (CallRequest.args body)) s'.
Proof.
  destruct scanAndSkipHeaders_decoded
    as (cn & rd & o4 & s1 & Hscan & Hcn & Hrd & Hcs & _ & _ & _ & _ & _
        & o5 & Hc & Ha).
  unfold readArg1Str, bind, getCache.
  cbn [cache fresh emptyCache arg1Str csumStartOffset truthy].
  rewrite Hscan. cbn [negb]. rewrite Hcs. cbn [default from_option id].
  apply Checksum_readFrom_inv in Hc as (t & Ht & Hk & ->).
  pose proof (Buf.readUInt8_Some _ _ _ Ht) as [? _].
  apply readArgs_inv in Ha.
  cbn [size f].
  destruct (Z.ltb_spec (Z.of_nat (length buf)) (o4 + 1)); [exfalso; lia|].
  unfold readUInt8, bufferRead at 1. cbn [buffer f]. rewrite Ht.
  unfold asserted, Checksum.offsetWidthOf. rewrite Hk.
  set (o5 := if t =? ChecksumNone then o4 + 1
             else o4 + 1 + offsetWidth t) in *.
  assert (Ho5 : forall st : St,
             (if t =? ChecksumNone then ret (o4 + 1)
              else fun s => Done (o4 + 1 + offsetWidth t) s) st
             = Done o5 st).
  { intros st. subst o5. by destruct (t =? ChecksumNone). }
  unfold ret at 1. rewrite Ho5. clear Ho5.
  destruct (CallRequest.args body) as [|a rest].
  - cbn [head fmap option_fmap option_map].
    destruct (Z.ltb_spec (Z.of_nat (length buf)) (o5 + 2)); [|exfalso; lia].
    unfold fail, bind, modifyCache, ret. eauto.
  - destruct Ha as (L & HL & He & ->).
    pose proof (readUInt16BE_Some _ _ _ HL) as [? ?].
    pose proof (readUInt16BE_range _ _ _ HL).
    destruct (Z.ltb_spec (Z.of_nat (length buf)) (o5 + 2)); [exfalso; lia|].
    unfold readUInt16BE, bufferRead at 1. cbn [buffer f]. rewrite HL.
    destruct (Z.ltb_spec (Z.of_nat (length buf)) (o5 + 2 + L));
      [exfalso; lia|].
    unfold fastBufferToString, bufferRead, modifyCache, ret.
    cbn [head fmap option_fmap option_map buffer f]. eauto.
Qed.

End Structured.

(** C2, as the code has it.  Let the structured reader decode the body
    that starts after the frame header of a buffer, and let the frame be
    that whole buffer.  On a fresh cache, [readServiceStr] returns the
    decoded service; [readCallerNameStr] returns the value of the first
    header with key ["cn"] if there is one and its value is not empty, and
    null otherwise; [readRoutingDelegateStr] does the same for ["rd"];
    [readArg1Str] returns the UTF-8 decoding of the first argument, or
    null if there is no argument; [readTTL] returns the decoded ttl; and
    [readTracingValue] returns a record with the fields of the decoded
    tracing. *)
Theorem lazy_readers_agree_with_decode
    (Overhead ChecksumNone : Z) (offsetWidth : Z -> Z) (known : Z -> bool)
    (more : bool) (noCsum : Checksum.t)
    (buf : list byte) (body : CallRequest.t) (off : Z) :
  CallRequest.readCallReqFrom Tracing.RW Header.header1
    (Args.rw ChecksumNone offsetWidth known more) noCsum buf Overhead
  = RJust off body ->
  let f := mkFrame buf (Z.of_nat (length buf)) in
  (exists s, readServiceStr Overhead f fresh
             = Done (Some (CallRequest.service body)) s)
  /\ (exists s, readCallerNameStr Overhead f fresh
                = Done (nonEmpty (Header.first (str "cn")
                                    (CallRequest.headers body))) s)
  /\ (exists s, readRoutingDelegateStr Overhead f fresh
                = Done (nonEmpty (Header.first (str "rd")
                                    (CallRequest.headers body))) s)
  /\ (exists s, readArg1Str Overhead ChecksumNone
                  (Checksum.offsetWidthOf offsetWidth known) f fresh
                = Done (Utf8.utf8ToString <$> head (CallRequest.args body)) s)
  /\ (exists s, readTTL Overhead f fresh = Done (CallRequest.ttl body) s)
  /\ (exists s, readTracingValue Overhead f fresh
                = Done (Some (infoOf (CallRequest.tracing body))) s).
Proof.
  intros H f. split_and!.
  - exact (readServiceStr_decoded _ _ _ _ _ _ _ _ _ H).
  - exact (readCallerNameStr_decoded _ _ _ _ _ _ _ _ _ H).
  - exact (readRoutingDelegateStr_decoded _ _ _ _ _ _ _ _ _ H).
  - exact (readArg1Str_decoded _ _ _ _ _ _ _ _ _ H).
  - exact (readTTL_decoded _ _ _ _ _ _ _ _ _ H).
  - exact (readTracingValue_decoded _ _ _ _ _ _ _ _ _ H).
Qed.

(** Witness for C2: the frame of scenario S1. *)
Lemma lazy_readers_agree_with_decode_witness :
  let f := Scenario.frameOf (Scenario.bodyBytes Scenario.minimal) in
  Scenario.decodeRequest (buffer f) Scenario.Overhead
  = RJust 64 Scenario.minimal
  /\ (exists s, readServiceStr Scenario.Overhead f fresh
                = Done (Some (str "svc")) s)
  /\ (exists s, readCallerNameStr Scenario.Overhead f fresh
                = Done (Some (str "caller")) s).
Proof.
  intros f.
  assert (H : Scenario.decodeRequest (buffer f) Scenario.Overhead
              = RJust 64 Scenario.minimal) by (vm_compute; reflexivity).
  split; [exact H|].
  destruct (lazy_readers_agree_with_decode
              Scenario.Overhead Scenario.ChecksumNone Scenario.offsetWidth
              Scenario.known false Scenario.noCsum (buffer f)
              Scenario.minimal 64 H)
    as (Hs & Hcn & _).
  split; [exact Hs|exact Hcn].
Defined.

(** Counterexample to C2 as stated: the body with the one header
    [cn = ""] decodes with that header, whose value is the empty string,
    and [readCallerNameStr] returns null on its frame. *)
Lemma empty_caller_name_reads_as_null :
  let f := Scenario.frameOf (Scenario.bodyBytes Scenario.emptyCaller) in
  Scenario.decodeRequest (buffer f) Scenario.Overhead
  = RJust 58 Scenario.emptyCaller
  /\ Header.first (str "cn") (CallRequest.headers Scenario.emptyCaller)
     = Some []
  /\ exists s, readCallerNameStr Scenario.Overhead f fresh = Done None s.
Proof.
  split; [vm_compute; reflexivity|]. split; [reflexivity|].
  eexists. vm_compute. reflexivity.
Qed.

End Equiv.

(* --------------------------------------------------------------------- *)
(** ** The header scan on the bytes of a frame                            *)
(* --------------------------------------------------------------------- *)

Module FirstMatch.

Import Lazy LazyProofs LazySafety LazyOrder Equiv.

#[global] Instance byte_eq_dec : EqDecision byte := Byte.byte_eq_dec.

(** A header as it lies in a frame: the length of the key in one byte,
    the key, the length of the value in one byte, the value. *)
Definition entry (kv : list byte * list byte) : list byte :=
  Buf.u8_bytes (Z.of_nat (length kv.1)) ++ kv.1
  ++ Buf.u8_bytes (Z.of_nat (length kv.2)) ++ kv.2.

Definition entries (hs : list (list byte * list byte)) : list byte :=
  concat (map entry hs).

(** A key and a value that each fit their length byte. *)
Definition fits (kv : list byte * list byte) : Prop :=
  Z.of_nat (length kv.1) <= 255 /\ Z.of_nat (length kv.2) <= 255.

(** The frame holds the headers [hs] where the lazy readers look for
    them: the byte at the service offset is the length [L] of the
    service, and [L] bytes further on come the number of headers in one
    byte and then the headers, all of it inside the frame.  Nothing is
    asked of the rest of the frame. *)
Definition holds (Overhead : Z) (f : Frame)
    (hs : list (list byte * list byte)) : Prop :=
  exists L pre post,
    Buf.readUInt8 (buffer f) (serviceOffset Overhead) = Some L
    /\ buffer f
       = pre ++ Buf.u8_bytes (Z.of_nat (length hs)) ++ entries hs ++ post
    /\ Z.of_nat (length pre) = serviceOffset Overhead + 1 + L
    /\ Z.of_nat (length pre) + 1 + Z.of_nat (length (entries hs)) <= size f
    /\ Z.of_nat (length hs) <= 255
    /\ Forall fits hs.

(** Where a scan that starts at [o] with [cur] in hand leaves the offset
    of the value of [key]: at the first entry under [key] if [cur] is 0,
    and where it was otherwise. *)
Fixpoint valueOffset (key : list byte) (cur o : Z)
    (hs : list (list byte * list byte)) : Z :=
  match hs with
  | [] => cur
  | kv :: rest =>
    valueOffset key
      (if (cur =? 0) && bool_decide (kv.1 = key)
       then o + 1 + Z.of_nat (length kv.1) else cur)
      (o + Z.of_nat (length (entry kv))) rest
  end.

Lemma valueOffset_set key cur hs :
  cur <> 0 -> forall o, valueOffset key cur o hs = cur.
Proof.
  intros Hc. induction hs as [|kv rest IH]; intros o; cbn [valueOffset].
  - done.
  - destruct (Z.eqb_spec cur 0); [done|]. cbn [andb]. apply IH.
Qed.

Lemma valueOffset_first key v rest h1 :
  Forall (fun kv => kv.1 <> key) h1 ->
  forall o, 0 <= o ->
    valueOffset key 0 o (h1 ++ (key, v) :: rest)
    = o + Z.of_nat (length (entries h1)) + 1 + Z.of_nat (length key).
Proof.
  induction 1 as [|kv h1 Hk _ IH]; intros o Ho; cbn [app valueOffset].
  - cbn [fst Z.eqb andb]. rewrite bool_decide_eq_true_2 by done.
    rewrite valueOffset_set by lia. cbn [entries map concat length]. lia.
  - cbn [Z.eqb andb]. rewrite bool_decide_eq_false_2 by done.
    rewrite IH by lia. unfold entries. cbn [map concat].
    rewrite length_app. lia.
Qed.

(** The comparison the scan makes of a key of two bytes. *)
Lemma keyIs_entry f pre k rest K c0 c1 :
  buffer f = pre ++ Buf.u8_bytes (Z.of_nat (length k)) ++ k ++ rest ->
  0 <= c0 < 256 -> 0 <= c1 < 256 -> K = c0 * 256 + c1 ->
  keyIs f (Z.of_nat (length pre)) (Z.of_nat (length k)) K
  = bool_decide (k = [Buf.of_Z c0; Buf.of_Z c1]).
Proof.
  intros Hb H0 H1 ->. unfold keyIs.
  destruct k as [|b0 [|b1 [|b2 k]]]; cbn [length] in *.
  - by rewrite bool_decide_eq_false_2.
  - by rewrite bool_decide_eq_false_2.
  - replace (Z.of_nat 2 =? 2) with true by done. cbn [andb].
    replace (Z.of_nat (length pre) + 1)
      with (Z.of_nat (length (pre ++ Buf.u8_bytes (Z.of_nat 2))))
      by (rewrite length_app; cbn; lia).
    rewrite Hb.
    replace (pre ++ Buf.u8_bytes (Z.of_nat 2) ++ [b0; b1] ++ rest)
      with ((pre ++ Buf.u8_bytes (Z.of_nat 2)) ++ b0 :: b1 :: rest)
      by (by rewrite <- app_assoc).
    rewrite Buf.readUInt16BE_app. cbn [default from_option id].
    pose proof (Buf.to_Z_range b0). pose proof (Buf.to_Z_range b1).
    destruct (decide ([b0; b1] = [Buf.of_Z c0; Buf.of_Z c1])) as [E|E].
    + rewrite bool_decide_eq_true_2 by done. injection E as -> ->.
      rewrite !Buf.to_of_Z by done. apply Z.eqb_refl.
    + rewrite bool_decide_eq_false_2 by done. apply Z.eqb_neq.
      intros Heq. apply E.
      assert (Buf.to_Z b0 = c0 /\ Buf.to_Z b1 = c1) as [<- <-] by lia.
      by rewrite !Buf.of_to_Z.
  - rewrite bool_decide_eq_false_2 by done.
    destruct (Z.eqb_spec (Z.of_nat (S (S (S (length k))))) 2); [lia|done].
Qed.

Lemma entries_cons kv rest : entries (kv :: rest) = entry kv ++ entries rest.
Proof. done. Qed.

Lemma entries_app h1 h2 : entries (h1 ++ h2) = entries h1 ++ entries h2.
Proof. unfold entries. by rewrite map_app, concat_app. Qed.

Lemma entry_length kv :
  Z.of_nat (length (entry kv))
  = 1 + Z.of_nat (length kv.1) + 1 + Z.of_nat (length kv.2).
Proof. unfold entry. rewrite !length_app. cbn [Buf.u8_bytes length]. lia. Qed.

(** The header loop over headers that lie inside the frame: it goes
    through all of them and leaves the offsets of the first [cn] and the
    first [rd]. *)
Lemma scanLoop_entries f hs :
  forall pre post cn rd st,
    buffer f = pre ++ entries hs ++ post ->
    Z.of_nat (length pre) + Z.of_nat (length (entries hs)) <= size f ->
    Forall fits hs ->
    exists st',
      scanLoop f (length hs) (Z.of_nat (length pre)) cn rd st
      = Done (Some (Z.of_nat (length pre) + Z.of_nat (length (entries hs)),
                    valueOffset (Utf8.utf8Write (str "cn")) cn
                      (Z.of_nat (length pre)) hs,
                    valueOffset (Utf8.utf8Write (str "rd")) rd
                      (Z.of_nat (length pre)) hs)) st'
      /\ cache st' = cache st.
Proof.
  induction hs as [|[k v] rest IH]; intros pre post cn rd st Hb Hsz Hfit.
  - cbn [length scanLoop valueOffset entries map concat]. unfold ret.
    exists st. split; [|done]. by rewrite Z.add_0_r.
  - apply Forall_cons in Hfit as [[Hk Hv] Hfit]. cbn [fst snd] in Hk, Hv.
    rewrite entries_cons in Hb, Hsz. rewrite length_app in Hsz.
    pose proof (entry_length (k, v)) as Hl. cbn [fst snd] in Hl.
    assert (Ek : Buf.readUInt8 (buffer f) (Z.of_nat (length pre))
                 = Some (Z.of_nat (length k))).
    { rewrite Hb. unfold entry. cbn [fst snd]. rewrite <- !app_assoc.
      apply Buf.readUInt8_u8. lia. }
    assert (Ev : Buf.readUInt8 (buffer f)
                   (Z.of_nat (length pre) + 1 + Z.of_nat (length k))
                 = Some (Z.of_nat (length v))).
    { replace (Z.of_nat (length pre) + 1 + Z.of_nat (length k))
        with (Z.of_nat (length (pre ++ Buf.u8_bytes (Z.of_nat (length k))
                                  ++ k)))
        by (rewrite !length_app; cbn [Buf.u8_bytes length]; lia).
      rewrite Hb. unfold entry. cbn [fst snd]. rewrite <- !app_assoc.
      rewrite (app_assoc (Buf.u8_bytes (Z.of_nat (length k))) k).
      rewrite (app_assoc pre).
      apply Buf.readUInt8_u8. lia. }
    cbn [length].
    destruct (scanLoop_step f (length rest) (Z.of_nat (length pre)) cn rd st
                (Z.of_nat (length k)) (Z.of_nat (length v)))
      as [m ->]; [lia|done|done|lia|].
    assert (Hkey : forall K c0 c1,
               0 <= c0 < 256 -> 0 <= c1 < 256 -> K = c0 * 256 + c1 ->
               keyIs f (Z.of_nat (length pre)) (Z.of_nat (length k)) K
               = bool_decide (k = [Buf.of_Z c0; Buf.of_Z c1])).
    { intros K c0 c1 H0 H1 HK.
      apply (keyIs_entry f pre k
               (Buf.u8_bytes (Z.of_nat (length v)) ++ v
                ++ entries rest ++ post) K c0 c1); [|done..].
      rewrite Hb. unfold entry. cbn [fst snd]. by rewrite <- !app_assoc. }
    rewrite (Hkey CN_VALUE 99 110) by (done || lia).
    rewrite (Hkey RD_VALUE 114 100) by (done || lia).
    destruct (IH (pre ++ entry (k, v)) post
                (if (cn =? 0)
                    && bool_decide (k = [Buf.of_Z 99; Buf.of_Z 110])
                 then Z.of_nat (length pre) + 1 + Z.of_nat (length k)
                 else cn)
                (if (rd =? 0)
                    && bool_decide (k = [Buf.of_Z 114; Buf.of_Z 100])
                 then Z.of_nat (length pre) + 1 + Z.of_nat (length k)
                 else rd)
                (mkSt (cache st) (m + reads st)))
      as (st' & Hscan & Hc).
    { rewrite Hb. by rewrite <- !app_assoc. }
    { rewrite length_app. lia. }
    { done. }
    exists st'. split; [|done].
    replace (Z.of_nat (length pre) + 1 + Z.of_nat (length k) + 1
             + Z.of_nat (length v))
      with (Z.of_nat (length (pre ++ entry (k, v))))
      by (rewrite length_app; lia).
    rewrite Hscan. cbn [valueOffset fst]. rewrite entries_cons.
    rewrite !length_app.
    replace (Z.of_nat (length pre + length (entry (k, v)))
             + Z.of_nat (length (entries rest)))
      with (Z.of_nat (length pre)
            + Z.of_nat (length (entry (k, v)) + length (entries rest)))
      by lia.
    replace (Z.of_nat (length pre + length (entry (k, v))))
      with (Z.of_nat (length pre) + Z.of_nat (length (entry (k, v))))
      by lia.
    done.
Qed.

(** The string [readUInt8String] returns for a value that lies inside the
    frame. *)
Lemma readUInt8String_value f pre v post st :
  buffer f = pre ++ Buf.u8_bytes (Z.of_nat (length v)) ++ v ++ post ->
  Z.of_nat (length pre) + 1 + Z.of_nat (length v) <= size f ->
  Z.of_nat (length v) <= 255 ->
  readUInt8String f (Z.of_nat (length pre)) st
  = Done (Some (Utf8.utf8ToString v)) (mkSt (cache st) (S (S (reads st)))).
Proof.
  intros Hb Hsz Hv. unfold_readers. passes.
  rewrite Hb at 1. rewrite Buf.readUInt8_u8 by lia. simpl_state. passes.
  unfold Utf8.fastBufferToString. do 3 f_equal.
  replace (Z.of_nat (length pre) + 1)
    with (Z.of_nat (length (pre ++ Buf.u8_bytes (Z.of_nat (length v)))))
    by (rewrite length_app; cbn [Buf.u8_bytes length]; lia).
  rewrite Hb.
  replace (pre ++ Buf.u8_bytes (Z.of_nat (length v)) ++ v ++ post)
    with ((pre ++ Buf.u8_bytes (Z.of_nat (length v))) ++ v ++ post)
    by (by rewrite <- app_assoc).
  apply Buf.slice_app.
Qed.

(** The scan of a frame that holds [hs], from an empty cache. *)
Lemma scanAndSkipHeaders_holds Overhead f hs :
  holds Overhead f hs ->
  exists pre post st',
    buffer f
    = pre ++ Buf.u8_bytes (Z.of_nat (length hs)) ++ entries hs ++ post
    /\ Z.of_nat (length pre) + 1 + Z.of_nat (length (entries hs)) <= size f
    /\ scanAndSkipHeaders Overhead f fresh = Done true st'
    /\ cnValueOffset (cache st')
       = Some (valueOffset (Utf8.utf8Write (str "cn")) 0
                 (Z.of_nat (length pre) + 1) hs)
    /\ rdValueOffset (cache st')
       = Some (valueOffset (Utf8.utf8Write (str "rd")) 0
                 (Z.of_nat (length pre) + 1) hs)
    /\ callerNameStr (cache st') = None
    /\ routingDelegateStr (cache st') = None.
Proof.
  intros (L & pre & post & HL & Hb & Hpre & Hsz & Hn & Hfit).
  exists pre, post.
  pose proof (Buf.readUInt8_Some _ _ _ HL) as [? _].
  pose proof (Buf.readUInt8_range _ _ _ HL).
  assert (Hnh : Buf.readUInt8 (buffer f) (Z.of_nat (length pre))
                = Some (Z.of_nat (length hs))).
  { rewrite Hb. apply Buf.readUInt8_u8. lia. }
  destruct (scanLoop_entries f hs
              (pre ++ Buf.u8_bytes (Z.of_nat (length hs))) post 0 0
              (mkSt (set_headerStartOffset
                       (Some (serviceOffset Overhead + (L + 1))) emptyCache)
                 2))
    as (st' & Hscan & Hc).
  { rewrite Hb. by rewrite <- !app_assoc. }
  { rewrite length_app. cbn [Buf.u8_bytes length]. lia. }
  { done. }
  rewrite length_app in Hscan. cbn [Buf.u8_bytes length] in Hscan.
  replace (Z.of_nat (length pre + 1)) with (Z.of_nat (length pre) + 1)
    in Hscan by lia.
  eexists. split; [done|]. split; [done|].
  unfold scanAndSkipHeaders, findHeaderStartOffset, bind, getCache, fresh.
  cbn [cache emptyCache headerStartOffset truthy].
  passes. unfold readUInt8 at 1, bufferRead at 1. rewrite HL.
  unfold modifyCache at 1, ret at 1. simpl_state.
  replace (serviceOffset Overhead + (L + 1)) with (Z.of_nat (length pre))
    in * by lia.
  destruct (Z.eqb_spec (Z.of_nat (length pre)) 0); [exfalso; lia|].
  passes. unfold readUInt8 at 1, bufferRead at 1. rewrite Hnh.
  simpl_state. rewrite Nat2Z.id. rewrite Hscan.
  unfold modifyCache, ret. simpl_state. rewrite Hc. by split_and!.
Qed.

(** The value the accessors return for the first header under a key,
    whatever comes after it. *)
Lemma first_value_is_read Overhead f key h1 v1 rest :
  holds Overhead f (h1 ++ (key, v1) :: rest) ->
  Forall (fun kv => kv.1 <> key) h1 ->
  (key = Utf8.utf8Write (str "cn") ->
   exists s, readCallerNameStr Overhead f fresh
             = Done (if decide (v1 = []) then None
                     else Some (Utf8.utf8ToString v1)) s)
  /\ (key = Utf8.utf8Write (str "rd") ->
      exists s, readRoutingDelegateStr Overhead f fresh
                = Done (if decide (v1 = []) then None
                        else Some (Utf8.utf8ToString v1)) s).
Proof.
  intros Hh Hn.
  assert (Hfit : fits (key, v1)).
  { destruct Hh as (_ & _ & _ & _ & _ & _ & _ & _ & Hf).
    apply Forall_app in Hf as [_ Hf]. by apply Forall_cons in Hf as [Hf _]. }
  destruct Hfit as [Hk Hv]. cbn [fst snd] in Hk, Hv.
  destruct (scanAndSkipHeaders_holds Overhead f _ Hh)
    as (pre & post & st' & Hb & Hsz & Hscan & Hcn & Hrd & Hcs & Hrs).
  rewrite entries_app, entries_cons in Hb, Hsz.
  rewrite !length_app in Hsz.
  pose proof (entry_length (key, v1)) as Hl. cbn [fst snd] in Hl.
  set (A := pre ++ Buf.u8_bytes (Z.of_nat (length (h1 ++ (key, v1) :: rest)))
            ++ entries h1 ++ Buf.u8_bytes (Z.of_nat (length key)) ++ key).
  assert (HA : Z.of_nat (length A)
               = Z.of_nat (length pre) + 1 + Z.of_nat (length (entries h1))
                 + 1 + Z.of_nat (length key)).
  { subst A. rewrite !length_app. cbn [Buf.u8_bytes length]. lia. }
  assert (Hval : forall st,
             readUInt8String f (Z.of_nat (length A)) st
             = Done (Some (Utf8.utf8ToString v1))
                 (mkSt (cache st) (S (S (reads st))))).
  { intros st.
    apply (readUInt8String_value f A v1 (entries rest ++ post) st);
      [|lia|done].
    rewrite Hb. subst A. unfold entry. cbn [fst snd].
    by rewrite <- !app_assoc. }
  assert (Hoff : valueOffset key 0 (Z.of_nat (length pre) + 1)
                   (h1 ++ (key, v1) :: rest)
                 = Z.of_nat (length A)).
  { rewrite valueOffset_first by (done || lia). lia. }
  assert (Hne : (Z.of_nat (length A) =? 0) = false)
    by (apply Z.eqb_neq; lia).
  split; intros ->.
  - unfold readCallerNameStr, bind, getCache.
    cbn [cache fresh emptyCache callerNameStr cnValueOffset].
    fold fresh. rewrite Hscan. cbn [negb]. rewrite Hcn, Hoff.
    cbn [truthy]. rewrite Hne, Hval.
    destruct v1 as [|b v1].
    + cbn [Utf8.utf8ToString falsyStr]. rewrite decide_True by done.
      unfold ret. eauto.
    + rewrite decide_False by done.
      destruct (Utf8.utf8ToString (b :: v1)) as [|c str'] eqn:E;
        [by apply Utf8.utf8ToString_cons_nonempty in E|].
      cbn [falsyStr]. unfold bind, modifyCache, ret. eauto.
  - unfold readRoutingDelegateStr, bind, getCache.
    cbn [cache fresh emptyCache routingDelegateStr rdValueOffset].
    fold fresh. rewrite Hscan. cbn [negb]. rewrite Hrd, Hoff.
    cbn [truthy]. rewrite Hne, Hval.
    destruct v1 as [|b v1].
    + cbn [Utf8.utf8ToString falsyStr]. rewrite decide_True by done.
      unfold ret. eauto.
    + rewrite decide_False by done.
      destruct (Utf8.utf8ToString (b :: v1)) as [|c str'] eqn:E;
        [by apply Utf8.utf8ToString_cons_nonempty in E|].
      cbn [falsyStr]. unfold bind, modifyCache, ret. eauto.
Qed.

(** C5, as the code has it.  Let a frame hold, where the lazy readers
    look for them, headers among which two have the key ["cn"], none
    before the first of the two; nothing is asked of the rest of the
    frame.  [readCallerNameStr] returns the string of the value of the
    first if that value is not empty and null if it is, and in neither
    case the value of the second: that is what it returns from an empty
    cache, and whatever it returns after any calls of the lazy readers is
    that as well.  The same holds of [readRoutingDelegateStr] and
    ["rd"]. *)
Theorem first_match_wins
    (Overhead ChecksumNone : Z) (offsetWidth : Z -> option Z)
    (f : Frame) (key : list byte)
    (h1 h2 h3 : list (list byte * list byte)) (v1 v2 : list byte) :
  holds Overhead f (h1 ++ (key, v1) :: h2 ++ (key, v2) :: h3) ->
  Forall (fun kv => kv.1 <> key) h1 ->
  let first := if decide (v1 = []) then None
               else Some (Utf8.utf8ToString v1) in
  (key = Utf8.utf8Write (str "cn") ->
   (exists s, readCallerNameStr Overhead f fresh = Done first s)
   /\ forall ops s1 v s2,
        run_ops Overhead ChecksumNone offsetWidth f ops fresh = Done tt s1 ->
        readCallerNameStr Overhead f s1 = Done v s2 -> v = first)
  /\ (key = Utf8.utf8Write (str "rd") ->
   (exists s, readRoutingDelegateStr Overhead f fresh = Done first s)
   /\ forall ops s1 v s2,
        run_ops Overhead ChecksumNone offsetWidth f ops fresh = Done tt s1 ->
        readRoutingDelegateStr Overhead f s1 = Done v s2 -> v = first).
Proof.
  intros Hh Hn first.
  destruct (first_value_is_read Overhead f key h1 v1
              (h2 ++ (key, v2) :: h3) Hh Hn) as [Hcn Hrd].
  split; intros Hk.
  - destruct (Hcn Hk) as [s Hs]. split; [by exists s|].
    intros ops s1 v s2 Hrun Hv.
    destruct (run_ops_order Overhead ChecksumNone offsetWidth f ops fresh s1
                Hrun (Inv_empty Overhead f)
                (agrees_empty Overhead ChecksumNone offsetWidth f))
      as [Hinv Hag].
    destruct (readCallerNameStr_order Overhead ChecksumNone offsetWidth f
                _ _ _ Hinv Hag Hv) as [[s0 Hs0] _].
    rewrite Hs in Hs0. by injection Hs0 as <-.
  - destruct (Hrd Hk) as [s Hs]. split; [by exists s|].
    intros ops s1 v s2 Hrun Hv.
    destruct (run_ops_order Overhead ChecksumNone offsetWidth f ops fresh s1
                Hrun (Inv_empty Overhead f)
                (agrees_empty Overhead ChecksumNone offsetWidth f))
      as [Hinv Hag].
    destruct (readRoutingDelegateStr_order Overhead ChecksumNone offsetWidth
                f _ _ _ Hinv Hag Hv) as [[s0 Hs0] _].
    rewrite Hs in Hs0. by injection Hs0 as <-.
Qed.

(** The bytes of an ASCII literal. *)
Definition bytes (s : string) : list byte := Utf8.utf8Write (str s).

Lemma duplicateNoTTL_holds :
  holds Scenario.Overhead Scenario.duplicateNoTTL
    [(bytes "cn", bytes "first"); (bytes "cn", bytes "second")].
Proof.
  exists 3, (take 50 (buffer Scenario.duplicateNoTTL)),
    (drop 70 (buffer Scenario.duplicateNoTTL)).
  split; [reflexivity|]. split; [vm_compute; reflexivity|].
  split; [reflexivity|]. split; [vm_compute; discriminate|].
  split; [vm_compute; discriminate|].
  repeat constructor; vm_compute; discriminate.
Qed.

(** Witness for C5: the headers [cn = first] and [cn = second] in a frame
    whose ttl field is 0, which the structured reader rejects. *)
Lemma first_match_wins_witness :
  Buf.readUInt32BE (buffer Scenario.duplicateNoTTL) 17 = Some 0
  /\ exists s, readCallerNameStr Scenario.Overhead Scenario.duplicateNoTTL
                 fresh
               = Done (Some (str "first")) s.
Proof.
  split; [reflexivity|].
  exact (proj1 (proj1 (first_match_wins Scenario.Overhead
                         Scenario.ChecksumNone Scenario.offsetWidthOf
                         Scenario.duplicateNoTTL
                         (bytes "cn") [] [] [] (bytes "first")
                         (bytes "second")
                         duplicateNoTTL_holds (Forall_nil_2 _)) eq_refl)).
Defined.

(** Counterexample to C5 as stated: a frame that holds the headers [cn]
    with an empty value and [cn = second]; [readCallerNameStr] returns
    null, which is not the value of the first. *)
Lemma empty_first_match_reads_as_null :
  holds Scenario.Overhead Scenario.emptyThenSecondRaw
    [(bytes "cn", []); (bytes "cn", bytes "second")]
  /\ Buf.slice (buffer Scenario.emptyThenSecondRaw) 50 66
     = map Buf.of_Z [2; 2; 0x63; 0x6E; 0;
                     2; 0x63; 0x6E; 6; 0x73; 0x65; 0x63; 0x6F; 0x6E; 0x64;
                     0]
  /\ exists s, readCallerNameStr Scenario.Overhead
                 Scenario.emptyThenSecondRaw fresh = Done None s.
Proof.
  split.
  { exists 3, (take 50 (buffer Scenario.emptyThenSecondRaw)),
      (drop 65 (buffer Scenario.emptyThenSecondRaw)).
    split; [reflexivity|]. split; [vm_compute; reflexivity|].
    split; [reflexivity|]. split; [vm_compute; discriminate|].
    split; [vm_compute; discriminate|].
    repeat constructor; vm_compute; discriminate. }
  split; [vm_compute; reflexivity|].
  eexists. vm_compute. reflexivity.
Qed.

End FirstMatch.

(* --------------------------------------------------------------------- *)
(** ** Prefixes of a frame the structured reader decodes                  *)
(* --------------------------------------------------------------------- *)

Module Truncation.

Import Lazy LazyProofs LazySafety LazyPrefix Equiv.

(** The six accessors return on a frame the structured reader decodes. *)
Lemma call_decoded
    (Overhead ChecksumNone : Z) (offsetWidth : Z -> Z) (known : Z -> bool)
    (more : bool) (noCsum : Checksum.t)
    (buf : list byte) (body : CallRequest.t) (off : Z) (a : accessor) :
  CallRequest.readCallReqFrom Tracing.RW Header.header1
    (Args.rw ChecksumNone offsetWidth known more) noCsum buf Overhead
  = Bufrw.RJust off body ->
  exists v s,
    call Overhead ChecksumNone (Checksum.offsetWidthOf offsetWidth known) a
      (mkFrame buf (Z.of_nat (length buf))) fresh
    = Done v s.
Proof.
  intros H. destruct a; unfold call, bind, ret.
  - destruct (readTTL_decoded _ _ _ _ _ _ _ _ _ H) as [s ->]. eauto.
  - destruct (readTracingValue_decoded _ _ _ _ _ _ _ _ _ H) as [s ->]. eauto.
  - destruct (readServiceStr_decoded _ _ _ _ _ _ _ _ _ H) as [s ->]. eauto.
  - destruct (readCallerNameStr_decoded _ _ _ _ _ _ _ _ _ H) as [s ->].
    eauto.
  - destruct (readRoutingDelegateStr_decoded _ _ _ _ _ _ _ _ _ H) as [s ->].
    eauto.
  - destruct (readArg1Str_decoded _ _ _ _ _ _ _ _ _ H) as [s ->]. eauto.
Qed.

(** What [bufrw] reads from a buffer it reads from any buffer that
    continues it. *)
Lemma readUInt8_more buf rest o v :
  Buf.readUInt8 buf o = Some v -> Buf.readUInt8 (buf ++ rest) o = Some v.
Proof.
  intros H. apply Buf.readUInt8_Some in H as ([H0 H1] & b & Hb & ->).
  apply Buf.readUInt8_lookup; [done|]. by apply lookup_app_l_Some.
Qed.

Lemma UInt8_more buf rest o o' v :
  Bufrw.readFrom Bufrw.UInt8 buf o = Bufrw.RJust o' v ->
  Bufrw.readFrom Bufrw.UInt8 (buf ++ rest) o = Bufrw.RJust o' v.
Proof.
  cbn [Bufrw.readFrom Bufrw.UInt8].
  destruct (Buf.readUInt8 buf o) as [x|] eqn:E; [|done].
  by rewrite (readUInt8_more _ rest _ _ E).
Qed.

Lemma UInt32BE_more buf rest o o' v :
  Bufrw.readFrom Bufrw.UInt32BE buf o = Bufrw.RJust o' v ->
  Bufrw.readFrom Bufrw.UInt32BE (buf ++ rest) o = Bufrw.RJust o' v.
Proof.
  cbn [Bufrw.readFrom Bufrw.UInt32BE]. unfold Buf.readUInt32BE.
  destruct (Buf.readUInt8 buf o) as [b0|] eqn:E0; [|done].
  destruct (Buf.readUInt8 buf (o + 1)) as [b1|] eqn:E1; [|done].
  destruct (Buf.readUInt8 buf (o + 2)) as [b2|] eqn:E2; [|done].
  destruct (Buf.readUInt8 buf (o + 3)) as [b3|] eqn:E3; [|done].
  by rewrite (readUInt8_more _ rest _ _ E0), (readUInt8_more _ rest _ _ E1),
    (readUInt8_more _ rest _ _ E2), (readUInt8_more _ rest _ _ E3).
Qed.

Lemma Tracing_more buf rest o o' t :
  Tracing.readFrom buf o = Bufrw.RJust o' t ->
  Tracing.readFrom (buf ++ rest) o = Bufrw.RJust o' t.
Proof.
  unfold Tracing.readFrom, Bufrw.bindR. intros H.
  repeat match type of H with
         | context [Bufrw.readFrom Bufrw.UInt32BE buf ?x] =>
           let E := fresh "E" in
           destruct (Bufrw.readFrom Bufrw.UInt32BE buf x) eqn:E; [done|];
           rewrite (UInt32BE_more _ rest _ _ _ E)
         end.
  match type of H with
  | context [Bufrw.readFrom Bufrw.UInt8 buf ?x] =>
    let E := fresh "E" in
    destruct (Bufrw.readFrom Bufrw.UInt8 buf x) eqn:E; [done|];
    rewrite (UInt8_more _ rest _ _ _ E)
  end.
  done.
Qed.

Lemma str1_more buf rest o o' v :
  Bufrw.readFrom Bufrw.str1 buf o = Bufrw.RJust o' v ->
  Bufrw.readFrom Bufrw.str1 (buf ++ rest) o = Bufrw.RJust o' v.
Proof.
  cbn [Bufrw.readFrom Bufrw.str1]. unfold Bufrw.varReadFrom, Bufrw.bindR.
  destruct (Bufrw.readFrom Bufrw.UInt8 buf o) as [|o1 L] eqn:E; [done|].
  rewrite (UInt8_more _ rest _ _ _ E).
  apply UInt8_readFrom_inv in E as [E ->].
  pose proof (Buf.readUInt8_Some _ _ _ E) as [? _].
  pose proof (Buf.readUInt8_range _ _ _ E).
  unfold Bufrw.readBytes. rewrite length_app.
  destruct (Z.ltb_spec (o + 1) 0); [lia|]. cbn [orb].
  destruct (Z.ltb_spec (Z.of_nat (length buf) - (o + 1)) L); [done|].
  destruct (Z.ltb_spec (Z.of_nat (length buf + length rest) - (o + 1)) L);
    [lia|].
  intros [= <- <-]. do 2 f_equal. unfold Buf.slice.
  rewrite Z.max_r by lia. rewrite drop_app_le by lia.
  rewrite take_app_le; [done|]. rewrite length_drop. lia.
Qed.


Lemma cutInService_is_a_prefix :
  prefix_frame Scenario.cutInService
    (Scenario.frameOf (Scenario.bodyBytes Scenario.minimal)).
Proof. split; [vm_compute; discriminate|]. reflexivity. Qed.

Lemma example_width_nonneg t :
  Scenario.known t = true -> 0 <= Scenario.offsetWidth t.
Proof. intros _. unfold Scenario.offsetWidth. destruct (t =? 0); lia. Qed.



End Truncation.

(* ===================================================================== *)
(** * The structured codec reads back what it writes                      *)
(* ===================================================================== *)

Module RoundTrip.

Import Bufrw.

(** ** The layouts *)

(** [s~1]: the length of the encoded string in one byte, and the
    encoded string. *)
Definition str1_bytes (s : Utf8.jsstr) : list byte :=
  Buf.u8_bytes (Utf8.byteLength s) ++ Utf8.utf8Write s.

(** [arg~2] *)
Definition arg2_bytes (a : list byte) : list byte :=
  Buf.u16_bytes (Z.of_nat (length a)) ++ a.

(** [(hk~1 hv~1){nh}] *)
Fixpoint pairs_bytes (hs : Header.t) : list byte :=
  match hs with
  | [] => []
  | (key, val) :: rest => str1_bytes key ++ str1_bytes val ++ pairs_bytes rest
  end.

(** [nh:1 (hk~1 hv~1){nh}] *)
Definition header1_bytes (hs : Header.t) : list byte :=
  Buf.u8_bytes (Z.of_nat (length hs)) ++ pairs_bytes hs.

(** [(arg~2)*] *)
Fixpoint args_bytes (args : list (list byte)) : list byte :=
  match args with
  | [] => []
  | a :: rest => arg2_bytes a ++ args_bytes rest
  end.

(** [csumtype:1 (csum:4){0,1}] *)
Definition csum_bytes (None_ : Z) (c : Checksum.t) : list byte :=
  Buf.u8_bytes (Checksum.type c)
  ++ (if Checksum.type c =? None_ then [] else Checksum.digest c).

(** [flags:1 ttl:4 tracing:24 traceflags:1 service~1 nh:1 (hk~1 hv~1){nh}
    csumtype:1 (csum:4){0,1} (arg~2)*], the flags byte apart. *)
Definition request_tail (None_ : Z) (body : CallRequest.t) : list byte :=
  Buf.u32_bytes (CallRequest.ttl body)
  ++ Tracing.bytes (CallRequest.tracing body)
  ++ str1_bytes (CallRequest.service body)
  ++ header1_bytes (CallRequest.headers body)
  ++ csum_bytes None_ (CallRequest.csum body)
  ++ args_bytes (CallRequest.args body).

Definition request_bytes (None_ : Z) (body : CallRequest.t) : list byte :=
  Buf.u8_bytes (CallRequest.flags body) ++ request_tail None_ body.

(** [flags:1 code:1 tracing:24 traceflags:1 nh:1 (hk~1 hv~1){nh}
    csumtype:1 (csum:4){0,1} (arg~2)*], the flags byte apart. *)
Definition response_tail (None_ : Z) (body : CallResponse.t) : list byte :=
  Buf.u8_bytes (CallResponse.code body)
  ++ Tracing.bytes (CallResponse.tracing body)
  ++ header1_bytes (CallResponse.headers body)
  ++ csum_bytes None_ (CallResponse.csum body)
  ++ args_bytes (CallResponse.args body).

Definition response_bytes (None_ : Z) (body : CallResponse.t) : list byte :=
  Buf.u8_bytes (CallResponse.flags body) ++ response_tail None_ body.

(** ** Well-formed bodies *)

Definition uint8_ok (v : Z) : bool := (0 <=? v) && (v <? 256).
Definition uint32_ok (v : Z) : bool := (0 <=? v) && (v <? 4294967296).

(** A string that holds no lone surrogate and fits a 1-byte length
    prefix once encoded. *)
Definition str1_ok (s : Utf8.jsstr) : bool :=
  forallb Utf8.is_scalar s && (Utf8.byteLength s <=? 255).

Definition id_ok (v : Z * Z) : bool := uint32_ok v.1 && uint32_ok v.2.

Definition tracing_ok (v : Tracing.t) : bool :=
  id_ok (Tracing.spanid v) && id_ok (Tracing.parentid v)
  && id_ok (Tracing.traceid v) && uint8_ok (Tracing.flags v).

Definition headers_ok (hs : Header.t) : bool :=
  (Z.of_nat (length hs) <=? 255)
  && forallb (fun kv => str1_ok kv.1 && str1_ok kv.2) hs.

(** A checksum of a defined type whose digest has the width of the type,
    and is empty for the type [None]. *)
Definition csum_ok (None_ : Z) (offsetWidth : Z -> Z) (known : Z -> bool)
    (c : Checksum.t) : bool :=
  known (Checksum.type c) && uint8_ok (Checksum.type c)
  && (if Checksum.type c =? None_
      then match Checksum.digest c with [] => true | _ :: _ => false end
      else Z.of_nat (length (Checksum.digest c))
           =? offsetWidth (Checksum.type c)).

Definition args_ok (args : list (list byte)) : bool :=
  forallb (fun a => Z.of_nat (length a) <=? 65535) args.

(** A well-formed CallRequest body: a positive ttl, and every field
    within the width or the length prefix it is written with. *)
Definition request_ok (None_ : Z) (offsetWidth : Z -> Z) (known : Z -> bool)
    (body : CallRequest.t) : bool :=
  uint8_ok (CallRequest.flags body)
  && (0 <? CallRequest.ttl body) && uint32_ok (CallRequest.ttl body)
  && tracing_ok (CallRequest.tracing body)
  && str1_ok (CallRequest.service body)
  && headers_ok (CallRequest.headers body)
  && csum_ok None_ offsetWidth known (CallRequest.csum body)
  && args_ok (CallRequest.args body).

Definition response_ok (None_ : Z) (offsetWidth : Z -> Z) (known : Z -> bool)
    (body : CallResponse.t) : bool :=
  uint8_ok (CallResponse.flags body)
  && uint8_ok (CallResponse.code body)
  && tracing_ok (CallResponse.tracing body)
  && headers_ok (CallResponse.headers body)
  && csum_ok None_ offsetWidth known (CallResponse.csum body)
  && args_ok (CallResponse.args body).

(** The body as the [argsrw.writeInto] of [Args.rw] leaves it: with the
    Fragment bit set in its flags if [more] bodies follow. *)
Definition written {B : Type} `{Args.ArgsBody B} (more : bool) (body : B)
  : B :=
  if more
  then Args.set_body_flags (Z.lor (Args.body_flags body) Fragment) body
  else body.

(** ** Reading and writing at a position *)

(** From [offset] on, [buffer] holds exactly [rest]. *)
Definition holds (buffer : list byte) (offset : Z) (rest : list byte)
  : Prop :=
  exists pre, buffer = pre ++ rest /\ offset = Z.of_nat (length pre).

(** [rw] lays the value [v] out as the bytes [bs]: that is its length,
    what it writes wherever [bs] fits, and what it reads [v] back from. *)
Record lays_out {A : Type} (rw : RW A) (v : A) (bs : list byte) : Prop := {
  lo_length : byteLength rw v = LJust (Z.of_nat (length bs));
  lo_write : forall buffer offset buffer',
    Buf.write buffer offset bs = Some buffer' ->
    writeInto rw v buffer offset
    = (WJust (offset + Z.of_nat (length bs)), buffer');
  lo_read : forall buffer offset rest,
    holds buffer offset (bs ++ rest) ->
    readFrom rw buffer offset = RJust (offset + Z.of_nat (length bs)) v
}.
Arguments lo_length {A rw v bs} _.
Arguments lo_write {A rw v bs} _ _ _ _ _.
Arguments lo_read {A rw v bs} _ _ _ _ _.

Lemma holds_here pre rest : holds (pre ++ rest) (Z.of_nat (length pre)) rest.
Proof. by exists pre. Qed.

Lemma holds_app buffer offset bs rest :
  holds buffer offset (bs ++ rest) ->
  holds buffer (offset + Z.of_nat (length bs)) rest.
Proof.
  intros (pre & -> & ->). exists (pre ++ bs).
  rewrite length_app, (assoc_L (++)). split; [done|lia].
Qed.

Lemma write_inv buf off bs buf' :
  Buf.write buf off bs = Some buf' ->
  exists pre old post,
    buf = pre ++ old ++ post /\ off = Z.of_nat (length pre)
    /\ length old = length bs /\ buf' = pre ++ bs ++ post.
Proof.
  unfold Buf.write.
  destruct (Z.leb_spec 0 off); [|done].
  destruct (Z.leb_spec (off + Z.of_nat (length bs)) (Z.of_nat (length buf)));
    [|done].
  cbn [andb]. intros [= <-].
  exists (take (Z.to_nat off) buf),
         (take (length bs) (drop (Z.to_nat off) buf)),
         (drop (Z.to_nat off + length bs) buf).
  split_and!.
  - by rewrite <- drop_drop, !take_drop.
  - rewrite length_take. lia.
  - rewrite length_take, length_drop. lia.
  - done.
Qed.

(** A write of [bs1 ++ bs2] is a write of [bs1] and then one of [bs2]. *)
Lemma write_split buf off bs1 bs2 buf'' :
  Buf.write buf off (bs1 ++ bs2) = Some buf'' ->
  exists buf',
    Buf.write buf off bs1 = Some buf'
    /\ Buf.write buf' (off + Z.of_nat (length bs1)) bs2 = Some buf''.
Proof.
  intros H. apply write_inv in H as (pre & old & post & -> & -> & Hl & ->).
  rewrite length_app in Hl.
  exists (pre ++ bs1 ++ drop (length bs1) old ++ post). split.
  - rewrite <- (take_drop (length bs1) old) at 1.
    rewrite <- (assoc_L (++) (take _ _)).
    apply Buf.write_app. rewrite length_take. lia.
  - replace (Z.of_nat (length pre) + Z.of_nat (length bs1))
      with (Z.of_nat (length (pre ++ bs1))) by (rewrite length_app; lia).
    rewrite (assoc_L (++) pre bs1 (drop _ _ ++ post)).
    rewrite <- (assoc_L (++) bs1 bs2 post), (assoc_L (++) pre bs1 (bs2 ++ post)).
    apply Buf.write_app. rewrite length_drop. lia.
Qed.

Lemma writeBytes_write bs buffer offset buffer' :
  Buf.write buffer offset bs = Some buffer' ->
  writeBytes bs buffer offset
  = (WJust (offset + Z.of_nat (length bs)), buffer').
Proof. intros H. unfold writeBytes. by rewrite H. Qed.

Lemma readBytes_holds bs buffer offset rest :
  holds buffer offset (bs ++ rest) ->
  readBytes (Z.of_nat (length bs)) buffer offset
  = RJust (offset + Z.of_nat (length bs)) bs.
Proof.
  intros (pre & -> & ->). unfold readBytes. rewrite Buf.slice_app.
  destruct (Z.ltb_spec (Z.of_nat (length pre)) 0); [lia|].
  destruct (Z.ltb_spec (Z.of_nat (length (pre ++ bs ++ rest))
                        - Z.of_nat (length pre)) (Z.of_nat (length bs)));
    [|done].
  exfalso. rewrite !length_app in *. lia.
Qed.

(** ** The primitives *)

Lemma UInt8_lays_out v : 0 <= v < 256 -> lays_out UInt8 v (Buf.u8_bytes v).
Proof.
  intros Hv. split.
  - done.
  - intros buffer offset buffer' H. by apply writeBytes_write.
  - intros buffer offset rest (pre & -> & ->). cbn [readFrom UInt8].
    by rewrite Buf.readUInt8_u8.
Qed.

Lemma UInt16BE_lays_out v :
  0 <= v < 65536 -> lays_out UInt16BE v (Buf.u16_bytes v).
Proof.
  intros Hv. split.
  - done.
  - intros buffer offset buffer' H. by apply writeBytes_write.
  - intros buffer offset rest (pre & -> & ->). cbn [readFrom UInt16BE].
    by rewrite Buf.readUInt16BE_u16.
Qed.

Lemma UInt32BE_lays_out v :
  0 <= v < 4294967296 -> lays_out UInt32BE v (Buf.u32_bytes v).
Proof.
  intros Hv. split.
  - done.
  - intros buffer offset buffer' H. by apply writeBytes_write.
  - intros buffer offset rest (pre & -> & ->). cbn [readFrom UInt32BE].
    by rewrite Buf.readUInt32BE_u32.
Qed.

Lemma uint8_ok_spec v : uint8_ok v = true -> 0 <= v < 256.
Proof. unfold uint8_ok. intros [H1 H2]%andb_true_iff. lia. Qed.

Lemma uint32_ok_spec v : uint32_ok v = true -> 0 <= v < 4294967296.
Proof. unfold uint32_ok. intros [H1 H2]%andb_true_iff. lia. Qed.

Lemma str1_ok_spec s :
  str1_ok s = true ->
  Forall Utf8.scalar s /\ Z.of_nat (length (Utf8.utf8Write s)) <= 255.
Proof.
  unfold str1_ok, Utf8.byteLength. intros [H1 H2]%andb_true_iff. split; [|lia].
  apply List.Forall_forall. intros c Hc. apply Utf8.is_scalar_spec.
  by apply (proj1 (forallb_forall _ _) H1).
Qed.

Lemma write_nil buf off buf' : Buf.write buf off [] = Some buf' -> buf' = buf.
Proof.
  intros H. apply write_inv in H as (pre & old & post & -> & -> & Hl & ->).
  by destruct old.
Qed.

(** One step of a writer over the bytes it is to lay out. *)
Ltac write_step H law :=
  let mid := fresh "mid" in
  let H1 := fresh "Hw" in
  apply write_split in H as (mid & H1 & H);
  rewrite (lo_write law _ _ _ H1); cbn [bindW].

(** One step of a reader over the bytes it is to read back. *)
Ltac read_step H law :=
  rewrite (lo_read law _ _ _ H); cbn [bindR]; apply holds_app in H.

Ltac lengths :=
  rewrite ?length_app;
  cbn [length Buf.u8_bytes Buf.u16_bytes Buf.u32_bytes];
  lazymatch goal with
  | |- LJust _ = LJust _ => f_equal; lia
  | |- (WJust _, _) = (WJust _, _) => do 2 f_equal; lia
  | |- RJust _ _ = RJust _ _ => f_equal; lia
  end.

(** ** Length-prefixed strings and arguments *)

Lemma str1_lays_out s : str1_ok s = true -> lays_out str1 s (str1_bytes s).
Proof.
  intros [Hs Hl]%str1_ok_spec.
  assert (L8 := UInt8_lays_out (Z.of_nat (length (Utf8.utf8Write s)))
                  ltac:(lia)).
  unfold str1_bytes, Utf8.byteLength. split.
  - cbn [byteLength str1]. unfold varByteLength. cbv zeta.
    destruct (Z.ltb_spec 255 (Z.of_nat (length (Utf8.utf8Write s)))); [lia|].
    lengths.
  - intros buffer offset buffer' H. cbn [writeInto str1].
    unfold varWriteInto. cbv zeta.
    destruct (Z.ltb_spec 255 (Z.of_nat (length (Utf8.utf8Write s)))); [lia|].
    write_step H L8. rewrite (writeBytes_write _ _ _ _ H). lengths.
  - intros buffer offset rest H. cbn [readFrom str1]. unfold varReadFrom.
    rewrite <- (assoc_L (++)) in H. read_step H L8.
    rewrite (readBytes_holds _ _ _ _ H). cbn [bindR].
    rewrite Utf8.utf8ToString_utf8Write by done. lengths.
Qed.

Lemma arg2_lays_out a :
  Z.of_nat (length a) <= 65535 -> lays_out arg2 a (arg2_bytes a).
Proof.
  intros Hl.
  assert (L16 := UInt16BE_lays_out (Z.of_nat (length a)) ltac:(lia)).
  unfold arg2_bytes. split.
  - cbn [byteLength arg2]. unfold varByteLength. cbv zeta.
    destruct (Z.ltb_spec 65535 (Z.of_nat (length a))); [lia|]. lengths.
  - intros buffer offset buffer' H. cbn [writeInto arg2].
    unfold varWriteInto. cbv zeta.
    destruct (Z.ltb_spec 65535 (Z.of_nat (length a))); [lia|].
    write_step H L16. rewrite (writeBytes_write _ _ _ _ H). lengths.
  - intros buffer offset rest H. cbn [readFrom arg2]. unfold varReadFrom.
    rewrite <- (assoc_L (++)) in H. read_step H L16.
    rewrite (readBytes_holds _ _ _ _ H). lengths.
Qed.

(** ** Tracing *)

Lemma Tracing_lays_out v :
  tracing_ok v = true -> lays_out Tracing.RW v (Tracing.bytes v).
Proof.
  destruct v as [[s1 s2] [p1 p2] [t1 t2] fl].
  unfold tracing_ok, id_ok. cbn [Tracing.spanid Tracing.parentid
    Tracing.traceid Tracing.flags fst snd].
  rewrite !andb_true_iff.
  intros [[[[Hs1%uint32_ok_spec Hs2%uint32_ok_spec]
            [Hp1%uint32_ok_spec Hp2%uint32_ok_spec]]
           [Ht1%uint32_ok_spec Ht2%uint32_ok_spec]] Hfl%uint8_ok_spec].
  split.
  - done.
  - intros buffer offset buffer' H. by apply writeBytes_write.
  - intros buffer offset rest H. cbn [readFrom Tracing.RW].
    unfold Tracing.readFrom, Tracing.bytes in *. cbv zeta.
    cbn [Tracing.spanid Tracing.parentid Tracing.traceid Tracing.flags
         fst snd] in *.
    rewrite <- !(assoc_L (++)) in H.
    read_step H (UInt32BE_lays_out s1 Hs1).
    read_step H (UInt32BE_lays_out s2 Hs2).
    read_step H (UInt32BE_lays_out p1 Hp1).
    read_step H (UInt32BE_lays_out p2 Hp2).
    read_step H (UInt32BE_lays_out t1 Ht1).
    read_step H (UInt32BE_lays_out t2 Ht2).
    read_step H (UInt8_lays_out fl Hfl).
    lengths.
Qed.

(** ** Headers *)

Lemma pairsLength_bytes hs :
  forallb (fun kv => str1_ok kv.1 && str1_ok kv.2) hs = true ->
  Header.pairsLength hs = LJust (Z.of_nat (length (pairs_bytes hs))).
Proof.
  induction hs as [|[key val] hs IH]; [done|].
  cbn [forallb fst snd]. rewrite !andb_true_iff. intros [[Hk Hv] Hr].
  cbn [Header.pairsLength pairs_bytes].
  rewrite (lo_length (str1_lays_out key Hk)), (lo_length (str1_lays_out val Hv)).
  rewrite (IH Hr). cbn [bindL]. lengths.
Qed.

Lemma writePairs_bytes hs buffer offset buffer' :
  forallb (fun kv => str1_ok kv.1 && str1_ok kv.2) hs = true ->
  Buf.write buffer offset (pairs_bytes hs) = Some buffer' ->
  Header.writePairs hs buffer offset
  = (WJust (offset + Z.of_nat (length (pairs_bytes hs))), buffer').
Proof.
  revert buffer offset.
  induction hs as [|[key val] hs IH]; intros buffer offset.
  - intros _ ->%write_nil. cbn. by rewrite Z.add_0_r.
  - cbn [forallb fst snd]. rewrite !andb_true_iff. intros [[Hk Hv] Hr] H.
    cbn [Header.writePairs pairs_bytes] in *.
    write_step H (str1_lays_out key Hk).
    write_step H (str1_lays_out val Hv).
    rewrite (IH _ _ Hr H). lengths.
Qed.

Lemma readPairs_bytes hs buffer offset rest :
  forallb (fun kv => str1_ok kv.1 && str1_ok kv.2) hs = true ->
  holds buffer offset (pairs_bytes hs ++ rest) ->
  Header.readPairs (length hs) buffer offset
  = RJust (offset + Z.of_nat (length (pairs_bytes hs))) hs.
Proof.
  revert offset.
  induction hs as [|[key val] hs IH]; intros offset.
  - intros _ _. cbn. by rewrite Z.add_0_r.
  - cbn [forallb fst snd]. rewrite !andb_true_iff. intros [[Hk Hv] Hr] H.
    cbn [Header.readPairs pairs_bytes length] in *.
    rewrite <- !(assoc_L (++)) in H.
    read_step H (str1_lays_out key Hk).
    read_step H (str1_lays_out val Hv).
    rewrite (IH _ Hr H). cbn [bindR]. lengths.
Qed.

Lemma header1_lays_out hs :
  headers_ok hs = true -> lays_out Header.header1 hs (header1_bytes hs).
Proof.
  unfold headers_ok. intros [Hn%Z.leb_le Hp]%andb_true_iff.
  assert (L8 := UInt8_lays_out (Z.of_nat (length hs)) ltac:(lia)).
  unfold header1_bytes. split.
  - cbn [byteLength Header.header1].
    destruct (Z.ltb_spec 255 (Z.of_nat (length hs))); [lia|].
    rewrite (pairsLength_bytes _ Hp). cbn [bindL]. lengths.
  - intros buffer offset buffer' H. cbn [writeInto Header.header1].
    destruct (Z.ltb_spec 255 (Z.of_nat (length hs))); [lia|].
    write_step H L8. rewrite (writePairs_bytes _ _ _ _ Hp H). lengths.
  - intros buffer offset rest H. cbn [readFrom Header.header1].
    rewrite <- (assoc_L (++)) in H. read_step H L8.
    rewrite Nat2Z.id, (readPairs_bytes _ _ _ _ Hp H). lengths.
Qed.

(** ** Checksum and arguments *)

Lemma argsLength_bytes args :
  args_ok args = true ->
  Args.argsLength args = LJust (Z.of_nat (length (args_bytes args))).
Proof.
  induction args as [|a args IH]; [done|].
  cbn [args_ok forallb]. intros [Ha%Z.leb_le Hr]%andb_true_iff.
  cbn [Args.argsLength args_bytes].
  rewrite (lo_length (arg2_lays_out a Ha)), (IH Hr). cbn [bindL]. lengths.
Qed.

Lemma writeArgs_bytes args buffer offset buffer' :
  args_ok args = true ->
  Buf.write buffer offset (args_bytes args) = Some buffer' ->
  Args.writeArgs args buffer offset
  = (WJust (offset + Z.of_nat (length (args_bytes args))), buffer').
Proof.
  revert buffer offset.
  induction args as [|a args IH]; intros buffer offset.
  - intros _ ->%write_nil. cbn. by rewrite Z.add_0_r.
  - cbn [args_ok forallb]. intros [Ha%Z.leb_le Hr]%andb_true_iff H.
    cbn [Args.writeArgs args_bytes] in *.
    write_step H (arg2_lays_out a Ha). rewrite (IH _ _ Hr H). lengths.
Qed.

Lemma readArgs_bytes args fuel buffer offset :
  args_ok args = true ->
  (length args <= fuel)%nat ->
  holds buffer offset (args_bytes args) ->
  Args.readArgs fuel buffer offset
  = RJust (offset + Z.of_nat (length (args_bytes args))) args.
Proof.
  revert fuel offset.
  induction args as [|a args IH]; intros fuel offset.
  - intros _ _ (pre & -> & ->). rewrite app_nil_r.
    destruct fuel; cbn [Args.readArgs]; rewrite Z.leb_refl;
      cbn; by rewrite Z.add_0_r.
  - cbn [args_ok forallb]. intros [Ha%Z.leb_le Hr]%andb_true_iff Hf H.
    assert (Hlt : offset < Z.of_nat (length buffer)).
    { destruct H as (pre & -> & ->). cbn [args_bytes]. unfold arg2_bytes.
      rewrite !length_app. cbn [length Buf.u16_bytes]. lia. }
    destruct fuel as [|fuel]; [cbn [length] in Hf; lia|].
    cbn [Args.readArgs args_bytes] in *.
    destruct (Z.leb_spec (Z.of_nat (length buffer)) offset); [lia|].
    read_step H (arg2_lays_out a Ha).
    rewrite (IH fuel _ Hr ltac:(cbn [length] in Hf; lia) H). cbn [bindR].
    lengths.
Qed.

Lemma args_bytes_length args :
  (length args <= length (args_bytes args))%nat.
Proof.
  induction args as [|a args IH]; [done|].
  cbn [args_bytes length]. unfold arg2_bytes. rewrite !length_app.
  cbn [length Buf.u16_bytes]. lia.
Qed.

Lemma lor_Fragment_range f : 0 <= f < 256 -> 0 <= Z.lor f Fragment < 256.
Proof.
  intros Hf. unfold Fragment. split; [apply Z.lor_nonneg; lia|].
  assert (H0 : 0 < Z.lor f 1).
  { destruct (Z.eq_dec (Z.lor f 1) 0) as [E|E].
    - apply Z.lor_eq_0_iff in E. lia.
    - pose proof (proj2 (Z.lor_nonneg f 1) ltac:(lia)). lia. }
  change 256 with (2 ^ 8). apply Z.log2_lt_pow2; [done|].
  rewrite Z.log2_lor by lia. change (Z.log2 1) with 0.
  destruct (Z.eq_dec f 0) as [->|]; [done|].
  assert (Z.log2 f < 8) by (apply Z.log2_lt_pow2; lia). lia.
Qed.

Section Codec.

Variable None_ : Z.
Variable offsetWidth : Z -> Z.
Variable known : Z -> bool.

Lemma Checksum_lays_out c :
  csum_ok None_ offsetWidth known c = true ->
  lays_out (Checksum.RW None_ offsetWidth known) c (csum_bytes None_ c).
Proof.
  destruct c as [ty d]. unfold csum_ok, csum_bytes.
  cbn [Checksum.type Checksum.digest]. rewrite !andb_true_iff.
  intros [[Hk Hty%uint8_ok_spec] Hd].
  assert (L8 := UInt8_lays_out ty Hty).
  split.
  - cbn [byteLength Checksum.RW]. unfold Checksum.byteLength.
    cbn [Checksum.type]. rewrite Hk. cbn [negb].
    destruct (ty =? None_); [lengths|]. apply Z.eqb_eq in Hd. lengths.
  - intros buffer offset buffer' H. cbn [writeInto Checksum.RW].
    unfold Checksum.writeInto. cbn [Checksum.type Checksum.digest].
    rewrite Hk. cbn [negb]. write_step H L8.
    destruct (ty =? None_).
    + apply write_nil in H as ->. lengths.
    + rewrite (writeBytes_write _ _ _ _ H). lengths.
  - intros buffer offset rest H. cbn [readFrom Checksum.RW].
    unfold Checksum.readFrom. rewrite <- (assoc_L (++)) in H.
    read_step H L8. rewrite Hk. cbn [negb].
    destruct (ty =? None_).
    + destruct d; [|done]. lengths.
    + apply Z.eqb_eq in Hd. rewrite <- Hd.
      rewrite (readBytes_holds _ _ _ _ H). cbn [bindR]. lengths.
Qed.

Section Body.

Context {B : Type} `{Args.ArgsBody B}.

Variable more : bool.

Lemma argsrw_length body :
  csum_ok None_ offsetWidth known (Args.body_csum body) = true ->
  args_ok (Args.body_args body) = true ->
  Args.byteLength (Args.rw None_ offsetWidth known more) body
  = LJust (Z.of_nat (length (csum_bytes None_ (Args.body_csum body)
                             ++ args_bytes (Args.body_args body)))).
Proof.
  intros Hc Ha. cbn [Args.byteLength Args.rw].
  pose proof (lo_length (Checksum_lays_out _ Hc)) as Hl.
  cbn [byteLength Checksum.RW] in Hl.
  rewrite Hl, (argsLength_bytes _ Ha). cbn [bindL]. lengths.
Qed.

Lemma argsrw_write body buffer offset buffer' :
  csum_ok None_ offsetWidth known (Args.body_csum body) = true ->
  args_ok (Args.body_args body) = true ->
  Buf.write buffer offset (csum_bytes None_ (Args.body_csum body)
                           ++ args_bytes (Args.body_args body))
  = Some buffer' ->
  Args.writeInto (Args.rw None_ offsetWidth known more) body buffer offset
  = (WJust (offset
            + Z.of_nat (length (csum_bytes None_ (Args.body_csum body)
                                ++ args_bytes (Args.body_args body)))),
     buffer', written more body).
Proof.
  intros Hc Ha Hw. cbn [Args.writeInto Args.rw]. cbv zeta.
  apply write_split in Hw as (mid & Hw1 & Hw2).
  pose proof (lo_write (Checksum_lays_out _ Hc) _ _ _ Hw1) as Hl.
  cbn [writeInto Checksum.RW] in Hl.
  rewrite Hl. cbn [bindW]. rewrite (writeArgs_bytes _ _ _ _ Ha Hw2).
  unfold written. f_equal. lengths.
Qed.

Lemma argsrw_read body c args buffer offset :
  csum_ok None_ offsetWidth known c = true ->
  args_ok args = true ->
  holds buffer offset (csum_bytes None_ c ++ args_bytes args) ->
  Args.readFrom (Args.rw None_ offsetWidth known more) body buffer offset
  = RJust (offset + Z.of_nat (length (csum_bytes None_ c ++ args_bytes args)))
          (Args.set_body_csum_args c args body).
Proof.
  intros Hc Ha Hh. cbn [Args.readFrom Args.rw].
  assert (Hf : (length args <= length buffer)%nat).
  { destruct Hh as (pre & -> & _). rewrite !length_app.
    pose proof (args_bytes_length args). lia. }
  pose proof (lo_read (Checksum_lays_out _ Hc) _ _ _ Hh) as Hl.
  cbn [readFrom Checksum.RW] in Hl.
  rewrite Hl. cbn [bindR]. apply holds_app in Hh.
  rewrite (readArgs_bytes _ _ _ _ Ha Hf Hh). cbn [bindR]. lengths.
Qed.

End Body.

End Codec.

Section Call.

Variable None_ : Z.
Variable offsetWidth : Z -> Z.
Variable known : Z -> bool.
Variable more : bool.
Variable noCsum : Checksum.t.

(** Where the flags byte is reserved: the bytes after it are written
    behind it, and it is written in place at the end. *)
Lemma write_tail pre o0 old tail :
  length old = length tail ->
  Buf.write (pre ++ o0 :: old) (Z.of_nat (length pre) + 1) tail
  = Some (pre ++ o0 :: tail).
Proof.
  intros Hl.
  replace (Z.of_nat (length pre) + 1) with (Z.of_nat (length (pre ++ [o0])))
    by (rewrite length_app; cbn [length]; lia).
  change (pre ++ o0 :: old) with (pre ++ [o0] ++ old).
  change (pre ++ o0 :: tail) with (pre ++ [o0] ++ tail).
  rewrite !(assoc_L (++) pre [o0]).
  pose proof (Buf.write_app (pre ++ [o0]) old [] tail Hl) as H.
  by rewrite !app_nil_r in H.
Qed.

Lemma write_flags pre o0 tail v :
  Buf.write (pre ++ o0 :: tail) (Z.of_nat (length pre)) (Buf.u8_bytes v)
  = Some (pre ++ Buf.u8_bytes v ++ tail).
Proof. by apply (Buf.write_app pre [o0] tail). Qed.

(** Arithmetic on the lengths of the layouts. *)
Ltac measure :=
  unfold request_bytes, request_tail, response_bytes, response_tail,
    str1_bytes, header1_bytes, csum_bytes, Tracing.bytes, UInt8_width,
    UInt32BE_width in *;
  cbn [Args.body_csum Args.body_args CallRequest.argsBody
       CallResponse.argsBody] in *;
  rewrite ?length_app in *;
  cbn [length Buf.u8_bytes Buf.u32_bytes] in *; lia.

Ltac then_step H law :=
  let mid := fresh "mid" in
  let H1 := fresh "Hw" in
  apply write_split in H as (mid & H1 & H);
  rewrite (lo_write law _ _ _ H1); cbv beta iota.

Lemma request_round_trip body pre old :
  let argsrw := Args.rw None_ offsetWidth known more in
  let start := Z.of_nat (length pre) in
  let end_ := start + Z.of_nat (length old) in
  request_ok None_ offsetWidth known body = true ->
  CallRequest.callReqLength Tracing.RW Header.header1 argsrw body
  = LJust (Z.of_nat (length old)) ->
  CallRequest.writeCallReqInto Tracing.RW Header.header1 argsrw body
    (pre ++ old) start
  = (WJust end_, pre ++ request_bytes None_ (written more body),
     written more body)
  /\ CallRequest.readCallReqFrom Tracing.RW Header.header1 argsrw noCsum
       (pre ++ request_bytes None_ (written more body)) start
     = RJust end_ (written more body).
Proof.
  intros argsrw start end_ Hok Hlen. subst argsrw start end_.
  unfold request_ok in Hok. rewrite !andb_true_iff in Hok.
  destruct Hok as [[[[[[[Hf0%uint8_ok_spec Hpos%Z.ltb_lt]
                        Httl%uint32_ok_spec] Htr] Hsv] Hhd] Hcs] Har].
  assert (Ltr := Tracing_lays_out _ Htr).
  assert (Lsv := str1_lays_out _ Hsv).
  assert (Lhd := header1_lays_out _ Hhd).
  assert (Lttl := UInt32BE_lays_out _ Httl).
  assert (Hl : length old = length (request_bytes None_ body)).
  { revert Hlen. unfold CallRequest.callReqLength. cbv zeta.
    rewrite (lo_length Ltr), (lo_length Lsv), (lo_length Lhd). cbn [bindL].
    rewrite (@argsrw_length None_ offsetWidth known _ CallRequest.argsBody more
               body Hcs Har).
    cbn [bindL]. unfold UInt8_width, UInt32BE_width.
    intros [= E]. measure. }
  assert (Htail : request_tail None_ (written more body)
                  = request_tail None_ body)
    by (unfold written; destruct more; reflexivity).
  assert (Hfl : 0 <= CallRequest.flags (written more body) < 256).
  { unfold written. destruct more; [|done]. by apply lor_Fragment_range. }
  assert (Lfl := UInt8_lays_out _ Hfl).
  split.
  - destruct old as [|o0 old]; [done|].
    unfold request_bytes in Hl. rewrite length_app in Hl.
    cbn [length Buf.u8_bytes] in Hl.
    assert (Hw := write_tail pre o0 old (request_tail None_ body)
                    ltac:(lia)).
    assert (Hf := write_flags pre o0 (request_tail None_ body)
                    (CallRequest.flags (written more body))).
    unfold CallRequest.writeCallReqInto, CallRequest.andThen, UInt8_width.
    cbv zeta.
    destruct (Z.leb_spec (CallRequest.ttl body) 0); [lia|].
    unfold request_tail in Hw, Hf.
    then_step Hw Lttl. then_step Hw Ltr. then_step Hw Lsv. then_step Hw Lhd.
    rewrite (@argsrw_write None_ offsetWidth known _ CallRequest.argsBody more
               body _ _ _ Hcs Har Hw).
    cbv beta iota. rewrite (lo_write Lfl _ _ _ Hf). cbv beta iota.
    unfold request_bytes. rewrite Htail. unfold request_tail.
    do 3 f_equal. measure.
  - assert (Hh := holds_here pre (request_bytes None_ (written more body))).
    revert Hh. generalize (pre ++ request_bytes None_ (written more body)).
    intros buffer Hh.
    unfold request_bytes in Hh, Hl. rewrite Htail in Hh.
    unfold request_tail in Hh, Hl.
    unfold CallRequest.readCallReqFrom.
    read_step Hh Lfl. read_step Hh Lttl.
    destruct (Z.leb_spec (CallRequest.ttl body) 0); [lia|]. cbv zeta.
    read_step Hh Ltr. read_step Hh Lsv. read_step Hh Lhd.
    rewrite (@argsrw_read None_ offsetWidth known _ CallRequest.argsBody more
               _ _ _ _ _ Hcs Har Hh).
    f_equal.
    + measure.
    + unfold written. destruct body, more; reflexivity.
Qed.

Lemma response_round_trip body pre old :
  let argsrw := Args.rw None_ offsetWidth known more in
  let start := Z.of_nat (length pre) in
  let end_ := start + Z.of_nat (length old) in
  response_ok None_ offsetWidth known body = true ->
  CallResponse.callResLength Tracing.RW Header.header1 argsrw body
  = LJust (Z.of_nat (length old)) ->
  CallResponse.writeCallResInto Tracing.RW Header.header1 argsrw body
    (pre ++ old) start
  = (WJust end_, pre ++ response_bytes None_ (written more body),
     written more body)
  /\ CallResponse.readCallResFrom Tracing.RW Header.header1 argsrw noCsum
       (pre ++ response_bytes None_ (written more body)) start
     = RJust end_ (written more body).
Proof.
  intros argsrw start end_ Hok Hlen. subst argsrw start end_.
  unfold response_ok in Hok. rewrite !andb_true_iff in Hok.
  destruct Hok as [[[[[Hf0%uint8_ok_spec Hcode%uint8_ok_spec] Htr] Hhd] Hcs]
                   Har].
  assert (Ltr := Tracing_lays_out _ Htr).
  assert (Lhd := header1_lays_out _ Hhd).
  assert (Lcode := UInt8_lays_out _ Hcode).
  assert (Hl : length old = length (response_bytes None_ body)).
  { revert Hlen. unfold CallResponse.callResLength. cbv zeta.
    rewrite (lo_length Ltr), (lo_length Lhd). cbn [bindL].
    rewrite (@argsrw_length None_ offsetWidth known _ CallResponse.argsBody
               more body Hcs Har).
    cbn [bindL]. intros [= E]. measure. }
  assert (Htail : response_tail None_ (written more body)
                  = response_tail None_ body)
    by (unfold written; destruct more; reflexivity).
  assert (Hfl : 0 <= CallResponse.flags (written more body) < 256).
  { unfold written. destruct more; [|done]. by apply lor_Fragment_range. }
  assert (Lfl := UInt8_lays_out _ Hfl).
  split.
  - destruct old as [|o0 old]; [done|].
    unfold response_bytes in Hl. rewrite length_app in Hl.
    cbn [length Buf.u8_bytes] in Hl.
    assert (Hw := write_tail pre o0 old (response_tail None_ body)
                    ltac:(lia)).
    assert (Hf := write_flags pre o0 (response_tail None_ body)
                    (CallResponse.flags (written more body))).
    unfold CallResponse.writeCallResInto, CallResponse.andThen, UInt8_width.
    cbv zeta. unfold response_tail in Hw, Hf.
    then_step Hw Lcode. then_step Hw Ltr. then_step Hw Lhd.
    rewrite (@argsrw_write None_ offsetWidth known _ CallResponse.argsBody
               more body _ _ _ Hcs Har Hw).
    cbv beta iota. rewrite (lo_write Lfl _ _ _ Hf). cbv beta iota.
    unfold response_bytes. rewrite Htail. unfold response_tail.
    do 3 f_equal. measure.
  - assert (Hh := holds_here pre (response_bytes None_ (written more body))).
    revert Hh. generalize (pre ++ response_bytes None_ (written more body)).
    intros buffer Hh.
    unfold response_bytes in Hh, Hl. rewrite Htail in Hh.
    unfold response_tail in Hh, Hl.
    unfold CallResponse.readCallResFrom.
    read_step Hh Lfl. read_step Hh Lcode. read_step Hh Ltr. read_step Hh Lhd.
    rewrite (@argsrw_read None_ offsetWidth known _ CallResponse.argsBody
               more _ _ _ _ _ Hcs Har Hh).
    f_equal.
    + measure.
    + unfold written. destruct body, more; reflexivity.
Qed.

End Call.

(** C1. For a well-formed CallRequest body and a buffer with the room
    that [callReqLength] computes, [writeCallReqInto] succeeds and leaves
    the body laid out in the buffer, and [readCallReqFrom] reads from it a
    body with the ttl, tracing, service, headers, checksum and args of the
    body written, and with its flags as the writer leaves them: the flags
    of the body written, with the Fragment bit set if more bodies follow.
    The same holds for a CallResponse body, with its code in place of ttl
    and service. *)
Theorem structured_codec_round_trips
    (None_ : Z) (offsetWidth : Z -> Z) (known : Z -> bool) (more : bool)
    (noCsum : Checksum.t) (pre : list byte) :
  let start := Z.of_nat (length pre) in
  let flags' flags := if more then Z.lor flags Fragment else flags in
  (forall (body : CallRequest.t) (old : list byte),
     let argsrw := Args.rw None_ offsetWidth known more in
     let end_ := start + Z.of_nat (length old) in
     request_ok None_ offsetWidth known body = true ->
     CallRequest.callReqLength Tracing.RW Header.header1 argsrw body
     = LJust (Z.of_nat (length old)) ->
     exists buffer' body',
       CallRequest.writeCallReqInto Tracing.RW Header.header1 argsrw body
         (pre ++ old) start
       = (WJust end_, buffer', body')
       /\ CallRequest.readCallReqFrom Tracing.RW Header.header1 argsrw
            noCsum buffer' start
          = RJust end_ body'
       /\ body'
          = CallRequest.mk (flags' (CallRequest.flags body))
              (CallRequest.ttl body) (CallRequest.tracing body)
              (CallRequest.service body) (CallRequest.headers body)
              (CallRequest.csum body) (CallRequest.args body))
  /\ (forall (body : CallResponse.t) (old : list byte),
     let argsrw := Args.rw None_ offsetWidth known more in
     let end_ := start + Z.of_nat (length old) in
     response_ok None_ offsetWidth known body = true ->
     CallResponse.callResLength Tracing.RW Header.header1 argsrw body
     = LJust (Z.of_nat (length old)) ->
     exists buffer' body',
       CallResponse.writeCallResInto Tracing.RW Header.header1 argsrw body
         (pre ++ old) start
       = (WJust end_, buffer', body')
       /\ CallResponse.readCallResFrom Tracing.RW Header.header1 argsrw
            noCsum buffer' start
          = RJust end_ body'
       /\ body'
          = CallResponse.mk (flags' (CallResponse.flags body))
              (CallResponse.code body) (CallResponse.tracing body)
              (CallResponse.headers body) (CallResponse.csum body)
              (CallResponse.args body)).
Proof.
  intros start flags'. split; intros body old argsrw end_ Hok Hlen.
  - destruct (request_round_trip None_ offsetWidth known more noCsum
                body pre old Hok Hlen) as [Hw Hr].
    eexists _, _. split; [exact Hw|]. split; [exact Hr|].
    unfold written, flags'. destruct body, more; reflexivity.
  - destruct (response_round_trip None_ offsetWidth known more noCsum
                body pre old Hok Hlen) as [Hw Hr].
    eexists _, _. split; [exact Hw|]. split; [exact Hr|].
    unfold written, flags'. destruct body, more; reflexivity.
Qed.

(** Witness for C1: a request with a checksum and three arguments and a
    response, each written behind a frame header of 16 bytes and read
    back. *)
Lemma structured_codec_round_trips_witness :
  let room n := replicate 16 x00 ++ replicate n x00 in
  (exists buffer,
     CallRequest.writeCallReqInto Tracing.RW Header.header1
       (Scenario.argsrw false) Scenario.checksummed (room 66%nat) 16
     = (WJust 82, buffer, Scenario.checksummed)
     /\ Scenario.decodeRequest buffer 16 = RJust 82 Scenario.checksummed)
  /\ (exists buffer,
     CallResponse.writeCallResInto Tracing.RW Header.header1
       (Scenario.argsrw false) Scenario.response (room 46%nat) 16
     = (WJust 62, buffer, Scenario.response)
     /\ CallResponse.readCallResFrom Tracing.RW Header.header1
          (Scenario.argsrw false) Scenario.noCsum buffer 16
        = RJust 62 Scenario.response).
Proof.
  intros room.
  destruct (structured_codec_round_trips Scenario.ChecksumNone
              Scenario.offsetWidth Scenario.known false Scenario.noCsum
              (replicate 16 x00)) as [Hreq Hres].
  split.
  - destruct (Hreq Scenario.checksummed (replicate 66 x00) eq_refl eq_refl)
      as (buffer & body' & Hw & Hr & ->).
    exists buffer. split; [exact Hw|exact Hr].
  - destruct (Hres Scenario.response (replicate 46 x00) eq_refl eq_refl)
      as (buffer & body' & Hw & Hr & ->).
    exists buffer. split; [exact Hw|exact Hr].
Defined.

End RoundTrip.

(* ===================================================================== *)
(** * [hyperbahn/permissions_cache.js]                                    *)
(* ===================================================================== *)

Module PermissionsCache.

Local Open Scope string_scope.

Definition BUCKET_RESET_DURATION : Z := 1000.
Definition NUM_TOKENS : Z := 100.

(** A JavaScript number as far as this file computes with one: a double
    that is an integer, or the [NaN] that [undefined - 1] is. *)
Inductive num : Type :=
| Num (z : Z)
| NaN.

(** The double nearest to an integer, ties to the even significand.
    Every integer up to 2^53 in magnitude is a double; beyond that a
    double is a multiple of a power of two that leaves 53 bits. *)
Definition toDouble (z : Z) : Z :=
  (let m := Z.abs z in
   if m <=? 9007199254740992 then z
   else
     let e := Z.log2 m - 52 in
     let q := m / 2 ^ e in
     let r := m mod 2 ^ e in
     let half := 2 ^ (e - 1) in
     let q := if (half <? r) || ((r =? half) && Z.odd q) then q + 1 else q in
     Z.sgn z * (q * 2 ^ e))%Z.

(** [tokens - 1], for [tokens] a number or [undefined]. *)
Definition minus_one (tokens : option num) : num :=
  match tokens with
  | Some (Num z) => Num (toDouble (z - 1))
  | Some NaN | None => NaN
  end.

(** A stat event, with the fields [increment] reads. *)
Record Stat : Type := mkStat {
  name : string;
  type : string;
  tags : gmap string string
}.

(** The inherited [LRUCache], of the package [lru-cache], which is not
    part of this repository: the state of such a cache and the two
    methods this file calls on it.  [get] returns [undefined] for a key
    it does not find; it returns the state as well, because a hit makes
    the entry the most recently used one.  [set] may evict other
    entries. *)
Class LRUCache (C : Type) : Type := {
  lru_get : string -> C -> option num * C;
  lru_set : string -> num -> C -> C
}.

(** The cache object: what it is as an [LRUCache], and
    [_bucketIntervals], each timer noted by the key whose bucket it
    refills every [BUCKET_RESET_DURATION] milliseconds. *)
Record t (C : Type) : Type := mk {
  lru : C;
  _bucketIntervals : list string
}.
Arguments mk {C} _ _.
Arguments lru {C} _.
Arguments _bucketIntervals {C} _.

(** The string a property lookup concatenates as: a missing tag is
    [undefined]. *)
Definition toString (v : option string) : string := default "undefined" v.

Definition createCallsKey (caller callee : option string) : string :=
  toString caller +:+ "_" +:+ toString callee.

Section Cache.

Context {C : Type} `{!LRUCache C}.

(** [self.get(key)] and [self.set(key, value)], inherited from
    [LRUCache]. *)
Definition get (key : string) (self : t C) : option num * t C :=
  let '(value, c) := lru_get key (lru self) in
  (value, mk c (_bucketIntervals self)).

Definition set (key : string) (value : num) (self : t C) : t C :=
  mk (lru_set key value (lru self)) (_bucketIntervals self).

Definition initializeTokenBucket (key : string) (self : t C) : t C :=
  (* resetTokens() *)
  let self := set key (Num NUM_TOKENS) self in
  (* self._bucketIntervals.push(setInterval(resetTokens, ...)) *)
  mk (lru self) (_bucketIntervals self ++ [key])%list.

Definition increment (stat : Stat) (self : t C) : t C :=
  if decide (name stat = "inbound.calls.recvd" /\ type stat = "counter") then
    let key := createCallsKey (tags stat !! "calling-service")
                              (tags stat !! "service") in
    let '(tokens, self) := get key self in
    let '(tokens, self) :=
      match tokens with
      | None =>
        let self := initializeTokenBucket key self in
        get key self
      | Some _ => (tokens, self)
      end in
    set key (minus_one tokens) self
  else self.

End Cache.

(** An [LRUCache] for the examples: it keeps at most [max] entries, the
    most recently used first, and drops the least recently used ones to
    stay within [max]. *)
Record Bounded (max : nat) : Type := mkBounded {
  items : list (string * num)
}.
Arguments mkBounded {max} _.
Arguments items {max} _.

Fixpoint find (key : string) (l : list (string * num)) : option num :=
  match l with
  | [] => None
  | (k, v) :: rest => if decide (k = key) then Some v else find key rest
  end.

Definition without (key : string) (l : list (string * num))
  : list (string * num) :=
  filter (fun kv => kv.1 <> key) l.

#[global] Instance bounded (max : nat) : LRUCache (Bounded max) := {
  lru_get key c :=
    match find key (items c) with
    | Some v => (Some v, mkBounded ((key, v) :: without key (items c)))
    | None => (None, c)
    end;
  lru_set key value c :=
    mkBounded (take max ((key, value) :: without key (items c)))
}.

(** A cache with room for an entry finds what was just set. *)
Lemma bounded_get_set (max : nat) k v (c : Bounded (S max)) :
  (lru_get k (lru_set k v c)).1 = Some v.
Proof. cbn. by rewrite decide_True. Qed.

(** Subtracting one is exact as long as the result is no further from 0
    than 2^53. *)
Lemma toDouble_exact z :
  (- 9007199254740992 <= z <= 9007199254740992)%Z -> toDouble z = z.
Proof.
  intros H. unfold toDouble.
  destruct (Z.leb_spec (Z.abs z) 9007199254740992); [done|lia].
Qed.

Section Law.

Context {C : Type} `{!LRUCache C}.

(** The one thing asked of the inherited cache: a [get] that follows a
    [set] of the same key finds the value set. *)
Hypothesis get_set :
  forall k v (c : C), (lru_get k (lru_set k v c)).1 = Some v.

Lemma get_after_set key value (self : t C) :
  (get key (set key value self)).1 = Some value.
Proof.
  unfold get, set. cbn [lru _bucketIntervals].
  pose proof (get_set key value (lru self)) as H.
  by destruct (lru_get key (lru_set key value (lru self))).
Qed.

Lemma get_intervals key (self : t C) :
  _bucketIntervals (get key self).2 = _bucketIntervals self.
Proof. unfold get. by destruct (lru_get key (lru self)). Qed.

(** What [increment] leaves under the key of a stat it counts, and the
    timers it leaves. *)
Lemma increment_counted (stat : Stat) (self : t C) :
  name stat = "inbound.calls.recvd" /\ type stat = "counter" ->
  let key := createCallsKey (tags stat !! "calling-service")
                            (tags stat !! "service") in
  (get key (increment stat self)).1
  = Some (minus_one (Some (default (Num NUM_TOKENS) (get key self).1)))
  /\ _bucketIntervals (increment stat self)
     = (_bucketIntervals self
        ++ match (get key self).1 with
           | None => [key]
           | Some _ => []
           end)%list.
Proof.
  intros H key. unfold increment. rewrite decide_True by exact H. fold key.
  pose proof (get_intervals key self) as Hi.
  destruct (get key self) as [[v|] self1] eqn:E1; cbn [fst snd] in *.
  - rewrite get_after_set. split; [done|].
    unfold set. cbn [_bucketIntervals]. by rewrite Hi, app_nil_r.
  - pose proof (get_intervals key (initializeTokenBucket key self1)) as Hi2.
    assert (H3 : (get key (initializeTokenBucket key self1)).1
                 = Some (Num NUM_TOKENS)).
    { pose proof (get_set key (Num NUM_TOKENS) (lru self1)) as H2.
      unfold initializeTokenBucket, get, set.
      cbn [lru _bucketIntervals].
      by destruct (lru_get key (lru_set key (Num NUM_TOKENS) (lru self1))). }
    destruct (get key (initializeTokenBucket key self1)) as [tokens self2];
      cbn [fst snd] in *.
    subst tokens. rewrite get_after_set. split; [done|].
    unfold set at 1. cbn [_bucketIntervals]. rewrite Hi2.
    unfold initializeTokenBucket, set. cbn [_bucketIntervals].
    by rewrite Hi.
Qed.

End Law.

(** C10, as the code has it.  Let the inherited cache find, with a [get]
    that follows a [set] of the same key, the value set.  [increment]
    changes the cache only for a stat named ['inbound.calls.recvd'] of
    type ['counter'].  For such a stat the entry at
    [caller + '_' + callee] ends at the double nearest to one below its
    former count, which is exactly one below it for a count above -2^53
    and up to 2^53; when there was no entry it ends at one below 100, and
    one refill timer is registered for the key.  For any other stat the
    cache is left as it was. *)
Theorem increment_observes_inbound_calls
    {C : Type} `{!LRUCache C} (stat : Stat) (self : t C) :
  (forall k v (c : C), (lru_get k (lru_set k v c)).1 = Some v) ->
  let key := toString (tags stat !! "calling-service") +:+ "_"
             +:+ toString (tags stat !! "service") in
  (name stat = "inbound.calls.recvd" /\ type stat = "counter" ->
     (forall n, (get key self).1 = Some (Num n) ->
        (get key (increment stat self)).1 = Some (Num (toDouble (n - 1)))
        /\ ((- 9007199254740992 < n <= 9007199254740992)%Z ->
            toDouble (n - 1) = (n - 1)%Z)
        /\ _bucketIntervals (increment stat self) = _bucketIntervals self)
     /\ ((get key self).1 = None ->
        (get key (increment stat self)).1 = Some (Num (100 - 1))
        /\ _bucketIntervals (increment stat self)
           = (_bucketIntervals self ++ [key])%list))
  /\ (~ (name stat = "inbound.calls.recvd" /\ type stat = "counter") ->
     increment stat self = self).
Proof.
  intros Hlaw key. split.
  - intros H. destruct (increment_counted Hlaw stat self H) as [Hg Hi].
    unfold createCallsKey in Hg, Hi. fold key in Hg, Hi. split.
    + intros n Hn. rewrite Hn in Hg, Hi. cbn [default from_option id] in Hg.
      split; [exact Hg|]. split; [|by rewrite Hi, app_nil_r].
      intros Hr. apply toDouble_exact. lia.
    + intros Hn. rewrite Hn in Hg, Hi. split; [|done].
      rewrite Hg. reflexivity.
  - intros H. unfold increment. by rewrite decide_False by exact H.
Qed.

(** Witness for C10: in a cache with room for one entry, the first call
    from [alice] to [bob] leaves 99 tokens in their bucket and registers
    its refill timer, and a stat of another name leaves the cache as it
    was. *)
Lemma increment_observes_inbound_calls_witness :
  let stat := mkStat "inbound.calls.recvd" "counter"
                (<["calling-service" := "alice"]>
                   (<["service" := "bob"]> empty)) in
  let other := mkStat "outbound.calls.sent" "counter" empty in
  let self : t (Bounded 1) := mk (mkBounded []) [] in
  ((get "alice_bob" (increment stat self)).1 = Some (Num 99)
   /\ _bucketIntervals (increment stat self) = ["alice_bob"])
  /\ increment other self = self.
Proof.
  intros stat other self. split.
  - destruct (increment_observes_inbound_calls stat self (bounded_get_set 0))
      as [H _].
    destruct (H (conj eq_refl eq_refl)) as (_ & Hnone).
    exact (Hnone eq_refl).
  - destruct (increment_observes_inbound_calls other self
                (bounded_get_set 0)) as [_ H].
    apply H. intros [Hn _]. discriminate Hn.
Defined.

(** Counterexample to C10 as stated: a bucket that holds -2^53 holds
    -2^53 after a call is counted, because -2^53 - 1 is not a double. *)
Lemma bucket_at_the_end_of_the_integers_stays :
  let stat := mkStat "inbound.calls.recvd" "counter"
                (<["calling-service" := "alice"]>
                   (<["service" := "bob"]> empty)) in
  let self : t (Bounded 1) :=
    mk (mkBounded [("alice_bob", Num (- 9007199254740992))])
       ["alice_bob"] in
  (get "alice_bob" self).1 = Some (Num (- 9007199254740992))
  /\ (get "alice_bob" (increment stat self)).1
     = Some (Num (- 9007199254740992)).
Proof. split; reflexivity. Qed.

End PermissionsCache.

(* ===================================================================== *)
(** * The permissions cache over many stat events                         *)
(* ===================================================================== *)

Module PermissionsProofs.

Import PermissionsCache.

Local Open Scope string_scope.

(** The stats [increment] counts. *)
Definition counted (stat : Stat) : Prop :=
  name stat = "inbound.calls.recvd" /\ type stat = "counter".

(** The key [increment] computes for a stat. *)
Definition callsKey (stat : Stat) : string :=
  createCallsKey (tags stat !! "calling-service") (tags stat !! "service").

(** The cache after the stats of a list, first to last. *)
Definition observe {C : Type} `{!LRUCache C} (stats : list Stat)
    (self : t C) : t C :=
  foldl (fun self stat => increment stat self) self stats.

Lemma observe_cons {C : Type} `{!LRUCache C} stat stats (self : t C) :
  observe (stat :: stats) self = observe stats (increment stat self).
Proof. reflexivity. Qed.



End PermissionsProofs.

(* ===================================================================== *)
(** * The lazy accessors of the fixed part of a frame                     *)
(* ===================================================================== *)

(** [writeTTL] of [CallRequest.RW.lazy], and [readFlags] and
    [isFrameTerminal], which [call.js] defines for [CallRequest.RW.lazy]
    and a second time, with the same text, for [CallResponse.RW.lazy]. *)
Module LazyFixed.

Import Bufrw Lazy LazyProofs.

Section Fixed.

Variable Overhead : Z.

(** The writer mutates [frame.buffer]; the frame is returned as it is
    left. *)
Definition writeTTL (ttl : Z) (frame : Frame) : WriteResult * Frame :=
  (* ttl:4 *)
  let '(res, buffer) :=
    writeInto UInt32BE ttl (buffer frame) (ttlOffset Overhead) in
  (res, mkFrame buffer (size frame)).

End Fixed.

Lemma land_Fragment_mod v : Z.land (v mod 256) Fragment = Z.land v Fragment.
Proof.
  unfold Fragment. change 1 with (Z.ones 1).
  rewrite !Z.land_ones by lia. change (2 ^ 1) with 2. zlia.
Qed.

(** The flags byte a successful write leaves at the start position. *)
Lemma request_flags_byte TracingRW header1 argsrw body buffer offset
    o' buffer' body' :
  CallRequest.writeCallReqInto TracingRW header1 argsrw body buffer offset
  = (WJust o', buffer', body') ->
  Buf.readUInt8 buffer' offset = Some (CallRequest.flags body' mod 256).
Proof.
  unfold CallRequest.writeCallReqInto, CallRequest.andThen, UInt8_width.
  destruct (CallRequest.ttl body <=? 0); [done|].
  destruct (writeInto UInt32BE _ buffer _) as [[e o|o1] b1]; [done|].
  destruct (writeInto TracingRW _ b1 o1) as [[e o|o2] b2]; [done|].
  destruct (writeInto str1 _ b2 o2) as [[e o|o3] b3]; [done|].
  destruct (writeInto header1 _ b3 o3) as [[e o|o4] b4]; [done|].
  destruct (Args.writeInto argsrw body b4 o4) as [[[e o|oA] bA] bodyA];
    [done|].
  destruct (writeInto UInt8 (CallRequest.flags bodyA) bA offset)
    as [[e o|oF] bF] eqn:EF; [done|].
  intros [= <- <- <-]. by apply CallProofs.UInt8_write_read in EF as [_ Hr].
Qed.

Lemma response_flags_byte TracingRW header1 argsrw body buffer offset
    o' buffer' body' :
  CallResponse.writeCallResInto TracingRW header1 argsrw body buffer offset
  = (WJust o', buffer', body') ->
  Buf.readUInt8 buffer' offset = Some (CallResponse.flags body' mod 256).
Proof.
  unfold CallResponse.writeCallResInto, CallResponse.andThen, UInt8_width.
  destruct (writeInto UInt8 _ buffer _) as [[e o|o1] b1]; [done|].
  destruct (writeInto TracingRW _ b1 o1) as [[e o|o2] b2]; [done|].
  destruct (writeInto header1 _ b2 o2) as [[e o|o3] b3]; [done|].
  destruct (Args.writeInto argsrw body b3 o3) as [[[e o|oA] bA] bodyA];
    [done|].
  destruct (writeInto UInt8 (CallResponse.flags bodyA) bA offset)
    as [[e o|oF] bF] eqn:EF; [done|].
  intros [= <- <- <-]. by apply CallProofs.UInt8_write_read in EF as [_ Hr].
Qed.

(** A frame is terminal exactly when the Fragment bit of the flags
    its writer ended with is clear: for a body written at the frame
    header's end by [writeCallReqInto] or [writeCallResInto], whatever
    [argsrw] did to the flags while it wrote, [isFrameTerminal] is true if
    and only if the body's final flags have bit 0 clear. *)
Theorem terminal_iff_no_fragment_bit
    (Overhead : Z) (TracingRW : RW Tracing.t) (header1 : RW Header.t)
    (size : Z) (buffer buffer' : list byte) (o' : Z) :
  (forall argsrw body body',
     CallRequest.writeCallReqInto TracingRW header1 argsrw body buffer
       Overhead = (WJust o', buffer', body') ->
     isFrameTerminal Overhead (mkFrame buffer' size)
     = (Z.land (CallRequest.flags body') Fragment =? 0))
  /\ (forall argsrw body body',
     CallResponse.writeCallResInto TracingRW header1 argsrw body buffer
       Overhead = (WJust o', buffer', body') ->
     isFrameTerminal Overhead (mkFrame buffer' size)
     = (Z.land (CallResponse.flags body') Fragment =? 0)).
Proof.
  split; intros argsrw body body' H.
  - apply request_flags_byte in H.
    unfold isFrameTerminal, readFlags, flagsOffset. cbn [Lazy.buffer].
    cbn [readFrom UInt8]. rewrite H. cbn [valueOf]. unfold bitand.
    cbn [default from_option id]. by rewrite land_Fragment_mod.
  - apply response_flags_byte in H.
    unfold isFrameTerminal, readFlags, flagsOffset. cbn [Lazy.buffer].
    cbn [readFrom UInt8]. rewrite H. cbn [valueOf]. unfold bitand.
    cbn [default from_option id]. by rewrite land_Fragment_mod.
Qed.

(** The request of scenario S1 written behind a frame
    header of 16 bytes, once with more bodies to follow and once
    without. *)
Lemma terminal_iff_no_fragment_bit_witness :
  let room := replicate 16 x00 ++ replicate 48 x00 in
  (exists o' buffer' body',
     CallRequest.writeCallReqInto Tracing.RW Header.header1
       (Scenario.argsrw true) Scenario.minimal room 16
     = (WJust o', buffer', body')
     /\ isFrameTerminal 16 (mkFrame buffer' 64) = false)
  /\ (exists o' buffer' body',
     CallRequest.writeCallReqInto Tracing.RW Header.header1
       (Scenario.argsrw false) Scenario.minimal room 16
     = (WJust o', buffer', body')
     /\ isFrameTerminal 16 (mkFrame buffer' 64) = true).
Proof.
  intros room. split.
  - eassert (Hw : CallRequest.writeCallReqInto Tracing.RW Header.header1
                    (Scenario.argsrw true) Scenario.minimal room 16
                  = (WJust _, _, _)) by (vm_compute; reflexivity).
    eexists _, _, _. split; [exact Hw|].
    exact (proj1 (terminal_iff_no_fragment_bit 16 Tracing.RW Header.header1
                    64 _ _ _) _ _ _ Hw).
  - eassert (Hw : CallRequest.writeCallReqInto Tracing.RW Header.header1
                    (Scenario.argsrw false) Scenario.minimal room 16
                  = (WJust _, _, _)) by (vm_compute; reflexivity).
    eexists _, _, _. split; [exact Hw|].
    exact (proj1 (terminal_iff_no_fragment_bit 16 Tracing.RW Header.header1
                    64 _ _ _) _ _ _ Hw).
Defined.

Lemma write_elsewhere buf off bs buf' i :
  Buf.write buf off bs = Some buf' ->
  i < off \/ off + Z.of_nat (length bs) <= i ->
  Buf.readUInt8 buf' i = Buf.readUInt8 buf i.
Proof.
  intros H Hi.
  apply RoundTrip.write_inv in H as (pre & old & post & -> & -> & Hl & ->).
  unfold Buf.readUInt8. destruct (Z.leb_spec 0 i); [|done]. f_equal.
  destruct Hi as [Hi|Hi].
  - by rewrite !lookup_app_l by lia.
  - rewrite !lookup_app_r by lia. by rewrite Hl.
Qed.

(** [writeTTL] stores the ttl where [readTTL] looks for it and
    nowhere else, and leaves the cache alone: on a frame long enough to
    hold a ttl, a [readTTL] with nothing cached returns the ttl written,
    while a [readTTL] that follows an earlier one keeps returning the
    value read before the write; every byte outside the four of the ttl
    is as it was. *)
Theorem writeTTL_then_readTTL
    (Overhead ttl : Z) (frame frame' : Frame) (o : Z) :
  0 <= ttl < 4294967296 ->
  ttlOffset Overhead + 4 <= size frame ->
  writeTTL Overhead ttl frame = (WJust o, frame') ->
  readTTL Overhead frame' fresh
  = Done ttl (mkSt (set_ttlValue (Some ttl) emptyCache) 1)
  /\ (forall s t s1,
        readTTL Overhead frame s = Done t s1 ->
        readTTL Overhead frame' s1 = Done t s1)
  /\ size frame' = size frame
  /\ (forall i, i < ttlOffset Overhead \/ ttlOffset Overhead + 4 <= i ->
        Buf.readUInt8 (buffer frame') i = Buf.readUInt8 (buffer frame) i).
Proof.
  intros Httl Hsz. unfold writeTTL.
  destruct (writeInto UInt32BE ttl (buffer frame) (ttlOffset Overhead))
    as [res buffer'] eqn:E.
  intros [= -> <-]. cbn [writeInto UInt32BE] in E.
  apply CallProofs.writeBytes_just in E as [Hw _].
  split_and!.
  - unfold readTTL, readUInt32BE, bufferRead, bind, ret, getCache,
      modifyCache, fresh. cbn [cache ttlValue emptyCache size buffer reads].
    destruct (Z.ltb_spec (size frame) (ttlOffset Overhead + 4)); [lia|].
    apply RoundTrip.write_inv in Hw as (pre & old & post & _ & -> & _ & ->).
    by rewrite Buf.readUInt32BE_u32.
  - intros [c n] t s1. unfold readTTL, readUInt32BE, bufferRead, bind, ret,
      getCache, modifyCache. cbn [cache reads size buffer].
    destruct (Z.ltb_spec (size frame) (ttlOffset Overhead + 4)); [lia|].
    destruct (ttlValue c) eqn:Ec.
    + intros [= <- <-]. cbn [cache]. by rewrite Ec.
    + destruct (Buf.readUInt32BE (buffer frame) (ttlOffset Overhead));
        [|done].
      by intros [= <- <-].
  - done.
  - intros i Hi. cbn [buffer]. by apply (write_elsewhere _ _ _ _ _ Hw).
Qed.

(** On the frame of scenario S1, whose ttl is 1, a
    [readTTL], a [writeTTL] of 500 and another [readTTL]. *)
Lemma writeTTL_then_readTTL_witness :
  let frame := Scenario.frameOf (Scenario.bodyBytes Scenario.minimal) in
  exists o frame' s1,
    writeTTL 16 500 frame = (WJust o, frame')
    /\ readTTL 16 frame fresh = Done 1 s1
    /\ readTTL 16 frame' s1 = Done 1 s1
    /\ readTTL 16 frame' fresh
       = Done 500 (mkSt (set_ttlValue (Some 500) emptyCache) 1).
Proof.
  intros frame.
  eassert (Hw : writeTTL 16 500 frame = (WJust _, _))
    by (vm_compute; reflexivity).
  eassert (Hr : readTTL 16 frame fresh = Done 1 _)
    by (vm_compute; reflexivity).
  destruct (writeTTL_then_readTTL 16 500 frame _ _ ltac:(lia)
              ltac:(vm_compute; discriminate) Hw) as (H1 & H2 & _).
  eexists _, _, _. split; [exact Hw|]. split; [exact Hr|].
  split; [exact (H2 _ _ _ Hr)|exact H1].
Defined.

End LazyFixed.

(* ===================================================================== *)
(** * The names the header scan finds                                     *)
(* ===================================================================== *)

Module HeaderScan.

Import Lazy LazyProofs Equiv FirstMatch.

(** The value of the first header stored under [key]. *)
Fixpoint firstValue (key : list byte) (hs : list (list byte * list byte))
  : option (list byte) :=
  match hs with
  | [] => None
  | (k, v) :: rest => if decide (k = key) then Some v else firstValue key rest
  end.

(** What an accessor makes of a value: the string it decodes to, and null
    for a value that is missing or empty. *)
Definition shown (v : option (list byte)) : option Utf8.jsstr :=
  match v with
  | Some (b :: bs) => Some (Utf8.utf8ToString (b :: bs))
  | Some [] | None => None
  end.

Lemma firstValue_Some key hs v :
  firstValue key hs = Some v ->
  exists h1 rest,
    hs = h1 ++ (key, v) :: rest /\ Forall (fun kv => kv.1 <> key) h1.
Proof.
  induction hs as [|[k w] hs IH]; [done|]. cbn [firstValue].
  destruct (decide (k = key)) as [->|Hk].
  - intros [= ->]. by exists [], hs.
  - intros H. destruct (IH H) as (h1 & rest & -> & Hn).
    exists ((k, w) :: h1), rest. split; [done|]. by constructor.
Qed.

Lemma firstValue_None key hs :
  firstValue key hs = None -> Forall (fun kv => kv.1 <> key) hs.
Proof.
  induction hs as [|[k w] hs IH]; [done|]. cbn [firstValue].
  destruct (decide (k = key)) as [->|Hk]; [done|].
  intros H. constructor; [done|]. by apply IH.
Qed.

Lemma valueOffset_absent key hs :
  Forall (fun kv => kv.1 <> key) hs -> forall o, valueOffset key 0 o hs = 0.
Proof.
  induction 1 as [|kv hs Hk _ IH]; intros o; cbn [valueOffset]; [done|].
  cbn [Z.eqb andb]. rewrite bool_decide_eq_false_2 by done. apply IH.
Qed.

(** The caller name and the routing delegate are the values of the first
    [cn] and the first [rd] among the headers the frame holds, however
    many headers there are and whatever follows them; a header that is
    missing comes back as null, and so does one whose value is empty. *)
Theorem names_are_first_values
    (Overhead : Z) (f : Frame) (hs : list (list byte * list byte)) :
  holds Overhead f hs ->
  (exists s, readCallerNameStr Overhead f fresh
             = Done (shown (firstValue (bytes "cn") hs)) s)
  /\ (exists s, readRoutingDelegateStr Overhead f fresh
                = Done (shown (firstValue (bytes "rd") hs)) s).
Proof.
  intros Hh.
  assert (Hshown : forall v : list byte,
             (if decide (v = []) then None else Some (Utf8.utf8ToString v))
             = shown (Some v)).
  { intros [|b v]; [by rewrite decide_True|by rewrite decide_False]. }
  destruct (scanAndSkipHeaders_holds Overhead f hs Hh)
    as (pre & post & st' & _ & _ & Hscan & Hcn & Hrd & _).
  split.
  - destruct (firstValue (bytes "cn") hs) as [v|] eqn:E.
    + apply firstValue_Some in E as (h1 & rest & -> & Hn).
      destruct (first_value_is_read Overhead f (bytes "cn") h1 v rest Hh Hn)
        as [[s Hs] _]; [done|].
      exists s. by rewrite Hs, Hshown.
    + apply firstValue_None in E.
      unfold readCallerNameStr, bind, getCache.
      cbn [cache fresh emptyCache callerNameStr cnValueOffset].
      fold fresh. rewrite Hscan. cbn [negb]. rewrite Hcn.
      unfold bytes in E. rewrite (valueOffset_absent _ _ E).
      cbn [truthy Z.eqb shown]. unfold ret. eauto.
  - destruct (firstValue (bytes "rd") hs) as [v|] eqn:E.
    + apply firstValue_Some in E as (h1 & rest & -> & Hn).
      destruct (first_value_is_read Overhead f (bytes "rd") h1 v rest Hh Hn)
        as [_ [s Hs]]; [done|].
      exists s. by rewrite Hs, Hshown.
    + apply firstValue_None in E.
      unfold readRoutingDelegateStr, bind, getCache.
      cbn [cache fresh emptyCache routingDelegateStr rdValueOffset].
      fold fresh. rewrite Hscan. cbn [negb]. rewrite Hrd.
      unfold bytes in E. rewrite (valueOffset_absent _ _ E).
      cbn [truthy Z.eqb shown]. unfold ret. eauto.
Qed.

Lemma minimal_holds :
  holds Scenario.Overhead
    (Scenario.frameOf (Scenario.bodyBytes Scenario.minimal))
    [(bytes "cn", bytes "caller")].
Proof.
  exists 3,
    (take 50 (buffer (Scenario.frameOf (Scenario.bodyBytes Scenario.minimal)))),
    (drop 61 (buffer (Scenario.frameOf (Scenario.bodyBytes Scenario.minimal)))).
  split; [reflexivity|]. split; [vm_compute; reflexivity|].
  split; [reflexivity|]. split; [vm_compute; discriminate|].
  split; [vm_compute; discriminate|].
  repeat constructor; vm_compute; discriminate.
Qed.

(** Scenario S1: the caller name is ["caller"] and there is no routing
    delegate. *)
Lemma names_are_first_values_witness :
  let f := Scenario.frameOf (Scenario.bodyBytes Scenario.minimal) in
  (exists s, readCallerNameStr Scenario.Overhead f fresh
             = Done (Some (str "caller")) s)
  /\ (exists s, readRoutingDelegateStr Scenario.Overhead f fresh
                = Done None s).
Proof.
  exact (names_are_first_values Scenario.Overhead _ _ minimal_holds).
Defined.

End HeaderScan.

(* ===================================================================== *)
(** * The lazy readers on a frame the structured writer wrote             *)
(* ===================================================================== *)

Module EndToEnd.

Import Bufrw Lazy LazyProofs Equiv RoundTrip.

(** The lazy readers read what the structured writer wrote: for a
    well-formed request written behind a frame header into the room
    [callReqLength] computes, each lazy reader on the frame, with nothing
    cached, returns the field of the body that was written; the caller
    name and the routing delegate are the values of the first [cn] and
    [rd] headers, null when missing or empty, and the first argument is
    null when there is none. *)
Theorem lazy_readers_read_what_was_written
    (ChecksumNone : Z) (offsetWidth : Z -> Z) (known : Z -> bool)
    (more : bool) (header old : list byte) (body : CallRequest.t) :
  let argsrw := Args.rw ChecksumNone offsetWidth known more in
  let Overhead := Z.of_nat (length header) in
  request_ok ChecksumNone offsetWidth known body = true ->
  CallRequest.callReqLength Tracing.RW Header.header1 argsrw body
  = LJust (Z.of_nat (length old)) ->
  exists o buffer' body',
    CallRequest.writeCallReqInto Tracing.RW Header.header1 argsrw body
      (header ++ old) Overhead
    = (WJust o, buffer', body')
    /\ let f := mkFrame buffer' (Z.of_nat (length buffer')) in
       (exists s, readTTL Overhead f fresh = Done (CallRequest.ttl body) s)
       /\ (exists s, readTracingValue Overhead f fresh
                     = Done (Some (infoOf (CallRequest.tracing body))) s)
       /\ (exists s, readServiceStr Overhead f fresh
                     = Done (Some (CallRequest.service body)) s)
       /\ (exists s, readCallerNameStr Overhead f fresh
                     = Done (nonEmpty (Header.first (str "cn")
                                         (CallRequest.headers body))) s)
       /\ (exists s, readRoutingDelegateStr Overhead f fresh
                     = Done (nonEmpty (Header.first (str "rd")
                                         (CallRequest.headers body))) s)
       /\ (exists s, readArg1Str Overhead ChecksumNone
                       (Checksum.offsetWidthOf offsetWidth known) f fresh
                     = Done (Utf8.utf8ToString
                               <$> head (CallRequest.args body)) s).
Proof.
  intros argsrw Overhead Hok Hlen.
  destruct (request_round_trip ChecksumNone offsetWidth known more
              (Checksum.mk ChecksumNone []) body header old Hok Hlen)
    as [Hw Hr].
  eexists _, _, _. split; [exact Hw|]. intros f.
  assert (Hfields :
    CallRequest.ttl (written more body) = CallRequest.ttl body
    /\ CallRequest.tracing (written more body) = CallRequest.tracing body
    /\ CallRequest.service (written more body) = CallRequest.service body
    /\ CallRequest.headers (written more body) = CallRequest.headers body
    /\ CallRequest.args (written more body) = CallRequest.args body).
  { unfold written. by destruct more. }
  destruct Hfields as (E1 & E2 & E3 & E4 & E5).
  rewrite <- E1, <- E2, <- E3, <- E4, <- E5. split_and!.
  - exact (readTTL_decoded _ _ _ _ _ _ _ _ _ Hr).
  - exact (readTracingValue_decoded _ _ _ _ _ _ _ _ _ Hr).
  - exact (readServiceStr_decoded _ _ _ _ _ _ _ _ _ Hr).
  - exact (readCallerNameStr_decoded _ _ _ _ _ _ _ _ _ Hr).
  - exact (readRoutingDelegateStr_decoded _ _ _ _ _ _ _ _ _ Hr).
  - exact (readArg1Str_decoded _ _ _ _ _ _ _ _ _ Hr).
Qed.

(** The request with a checksum and three arguments, written behind a
    frame header of 16 bytes: its first argument reads back as ["hi"]. *)
Lemma lazy_readers_read_what_was_written_witness :
  exists o buffer' body',
    CallRequest.writeCallReqInto Tracing.RW Header.header1
      (Scenario.argsrw false) Scenario.checksummed
      (replicate 16 x00 ++ replicate 66 x00) 16
    = (WJust o, buffer', body')
    /\ exists s,
         readArg1Str 16 Scenario.ChecksumNone Scenario.offsetWidthOf
           (mkFrame buffer' (Z.of_nat (length buffer'))) fresh
         = Done (Some (str "hi")) s.
Proof.
  destruct (lazy_readers_read_what_was_written Scenario.ChecksumNone
              Scenario.offsetWidth Scenario.known false
              (replicate 16 x00) (replicate 66 x00) Scenario.checksummed)
    as (o & buffer' & body' & Hw & _ & _ & _ & _ & _ & Ha).
  - vm_compute. reflexivity.
  - vm_compute. reflexivity.
  - exists o, buffer', body'. split; [exact Hw|exact Ha].
Defined.

End EndToEnd.

(* ===================================================================== *)
(** * What the header scan finds                                          *)
(* ===================================================================== *)

Module LazyScan.

Import Lazy LazyProofs LazySafety LazyOrder.

(** [offset] is 0, or it comes right after a key of two bytes whose value
    as a 16-bit number is [key]. *)
Definition after_key (frame : Frame) (key offset : Z) : Prop :=
  offset = 0
  \/ (Buf.readUInt8 (buffer frame) (offset - 3) = Some 2
      /\ Buf.readUInt16BE (buffer frame) (offset - 2) = Some key).

(** [str] is the value, not empty, of a header of [frame] whose key is the
    two bytes [key]: at some offset the frame holds the key length 2, the
    key, the length of the value and, within the frame's size, the bytes
    that [str] decodes. *)
Definition header_value (frame : Frame) (key : Z) (str : Utf8.jsstr)
  : Prop :=
  exists offset valueLength,
    Buf.readUInt8 (buffer frame) (offset - 3) = Some 2
    /\ Buf.readUInt16BE (buffer frame) (offset - 2) = Some key
    /\ Buf.readUInt8 (buffer frame) offset = Some valueLength
    /\ offset + 1 + valueLength <= size frame
    /\ str = Utf8.fastBufferToString (buffer frame) (offset + 1)
               (offset + 1 + valueLength)
    /\ str <> [].

Ltac key_found :=
  repeat match goal with
         | H : _ && _ = true |- _ => apply andb_true_iff in H as [? ?]
         | H : (_ =? _) = true |- _ => apply Z.eqb_eq in H
         end;
  first
    [ assumption
    | exfalso; pose proof Equiv.CN_VALUE_eq; pose proof Equiv.RD_VALUE_eq; lia
    | right; subst; split; (eapply eq_trans; [|eassumption]); f_equal; lia ].

Lemma scanLoop_sound f n :
  forall o cn rd s o' cn' rd' s',
    scanLoop f n o cn rd s = Done (Some (o', cn', rd')) s' ->
    after_key f CN_VALUE cn -> after_key f RD_VALUE rd ->
    after_key f CN_VALUE cn' /\ after_key f RD_VALUE rd'.
Proof.
  induction n as [|n IH]; intros o cn rd s o' cn' rd' s' H Hcn Hrd.
  - cbn [scanLoop] in H. unfold ret in H. by injection H as _ <- <- _.
  - cbn [scanLoop] in H. unfold_readers.
    repeat (case_in H; simpl_state; try discriminate).
    all: repeat match goal with
                | E : (_, _) = (_, _) |- _ => injection E as <- <-
                | E : Done _ _ = Done _ _ |- _ => injection E as <- <-
                end.
    all: apply IH in H; [exact H|key_found|key_found].
Qed.

(** The offsets a successful scan leaves each come after a key that
    matches. *)
Lemma scanAndSkipHeaders_sound Overhead f s s1 :
  scanAndSkipHeaders Overhead f s = Done true s1 ->
  (forall o, cnValueOffset (cache s1) = Some o -> after_key f CN_VALUE o)
  /\ (forall o, rdValueOffset (cache s1) = Some o -> after_key f RD_VALUE o).
Proof.
  unfold scanAndSkipHeaders. rewrite bind_run.
  destruct (findHeaderStartOffset Overhead f s) as [|o s0]; [done|].
  destruct (o =? 0); [done|]. destruct (size f <? o + 1); [done|].
  rewrite bind_run. destruct (readUInt8 f o s0) as [|nh s2]; [done|].
  rewrite bind_run.
  destruct (scanLoop f (Z.to_nat nh) (o + 1) 0 0 s2) as [|r s3] eqn:E;
    [done|].
  destruct r as [[[o' cn'] rd']|]; [|done].
  unfold bind, modifyCache, ret. intros [= <-]. simpl_state.
  destruct (scanLoop_sound _ _ _ _ _ _ _ _ _ _ E) as [Hcn Hrd];
    [by left|by left|].
  split; by intros ? [= <-].
Qed.

(** What [readUInt8String] returns is the value behind the length byte at
    its offset. *)
Lemma readUInt8String_returned f o s str s' :
  readUInt8String f o s = Done (Some str) s' ->
  exists valueLength,
    Buf.readUInt8 (buffer f) o = Some valueLength
    /\ o + 1 + valueLength <= size f
    /\ str = Utf8.fastBufferToString (buffer f) (o + 1) (o + 1 + valueLength).
Proof.
  unfold_readers. intros H.
  repeat (case_in H; simpl_state; try discriminate).
  injection H as <- _. tests. eexists. split; [done|]. split; [lia|done].
Qed.

Lemma readCallerNameStr_sound Overhead f str s :
  readCallerNameStr Overhead f fresh = Done (Some str) s ->
  header_value f CN_VALUE str.
Proof.
  unfold readCallerNameStr. rewrite bind_getCache_fresh.
  cbn [callerNameStr cnValueOffset emptyCache]. rewrite bind_run.
  destruct (scanAndSkipHeaders Overhead f fresh) as [|b s1] eqn:Es; [done|].
  destruct b; cbn [negb]; [|done]. rewrite bind_getCache.
  destruct (truthy (cnValueOffset (cache s1))) as [o|] eqn:Eo; [|done].
  apply truthy_Some in Eo as [Eo Hne]. rewrite bind_run.
  destruct (readUInt8String f o s1) as [|r s2] eqn:Er; [done|].
  destruct r as [[|ch r]|]; cbn [falsyStr]; try done.
  unfold bind, modifyCache, ret. intros [= <- _].
  destruct (readUInt8String_returned _ _ _ _ _ Er) as (L & HL & Hsz & Hstr).
  destruct (proj1 (scanAndSkipHeaders_sound _ _ _ _ Es) _ Eo) as [?|[H2 Hk]];
    [done|].
  exists o, L. by rewrite <- Hstr.
Qed.

Lemma readRoutingDelegateStr_sound Overhead f str s :
  readRoutingDelegateStr Overhead f fresh = Done (Some str) s ->
  header_value f RD_VALUE str.
Proof.
  unfold readRoutingDelegateStr. rewrite bind_getCache_fresh.
  cbn [routingDelegateStr rdValueOffset emptyCache]. rewrite bind_run.
  destruct (scanAndSkipHeaders Overhead f fresh) as [|b s1] eqn:Es; [done|].
  destruct b; cbn [negb]; [|done]. rewrite bind_getCache.
  destruct (truthy (rdValueOffset (cache s1))) as [o|] eqn:Eo; [|done].
  apply truthy_Some in Eo as [Eo Hne]. rewrite bind_run.
  destruct (readUInt8String f o s1) as [|r s2] eqn:Er; [done|].
  destruct r as [[|ch r]|]; cbn [falsyStr]; try done.
  unfold bind, modifyCache, ret. intros [= <- _].
  destruct (readUInt8String_returned _ _ _ _ _ Er) as (L & HL & Hsz & Hstr).
  destruct (proj2 (scanAndSkipHeaders_sound _ _ _ _ Es) _ Eo) as [?|[H2 Hk]];
    [done|].
  exists o, L. by rewrite <- Hstr.
Qed.



End LazyScan.
